(** * The persistent completion provider of hindsight-service

    A shallow embedding of [src/providers/LLMProvider.js]: the provider object,
    the child processes it spawns, the promises and timers it creates, and the
    handlers Node's event loop runs on its behalf.

    One _task_ of the event loop is one [step]: an API call of the host
    application, a [data], [exit] or [error] event of a child process, or a
    timer callback.  The handler runs to its end, then the promise reactions
    it queued run, before the next task starts (timers and I/O events are
    tasks; [then], [catch] and the resumption of an [await] are reactions).
    The host calls the API from tasks of its own, not from inside a listener
    it has on the provider.

    What the environment decides is an argument of the task: the time
    ([Date.now()]), what [spawn] returns, what the child writes.  [spawn]
    returns a handle with its three streams; a child that could not be
    started has no pid.  Strings are sequences of code units below 256;
    integers of the source are in [Z].  Console output is not modelled. *)

From Stdlib Require Import ZArith Ascii String Lia.
From stdpp Require Import base option list strings pretty.

Open Scope Z_scope.
Open Scope string_scope.
Open Scope list_scope.

Set Warnings "-register-all".
Set Primitive Projections.

(** ** JSON values and the JavaScript operations the provider applies to them *)

(** What [JSON.parse] returns.  A number is held as the text JavaScript's
    [ToString] gives for it (["0"] for both zeros), which is all the provider
    ever asks of a number: whether it is truthy, and its text.  [undefined],
    which JSON does not have, is [None] in [option JSON]. *)
Inductive JSON :=
| JNull
| JBool (b : bool)
| JNum (repr : string)
| JStr (s : string)
| JArr (items : list JSON)
| JObj (fields : list (string * JSON)).

(** [ToBoolean]. *)
Definition truthy (v : JSON) : bool :=
  match v with
  | JNull => false
  | JBool b => b
  | JNum r => negb (String.eqb r "0")
  | JStr s => negb (String.eqb s "")
  | JArr _ | JObj _ => true
  end.

Definition truthy_opt (v : option JSON) : bool :=
  match v with Some x => truthy x | None => false end.

(** The value of the last field named [k]: [JSON.parse] keeps the last of
    duplicate keys. *)
Fixpoint field (k : string) (fields : list (string * JSON)) : option JSON :=
  match fields with
  | [] => None
  | (k', v) :: rest =>
      match field k rest with
      | Some later => Some later
      | None => if String.eqb k' k then Some v else None
      end
  end.

(** [v.k] for a value [v] other than [null], and for the property names the
    provider reads ([type], [message], [content], [text], [result], [error]):
    none of them is a property of a string, a number, a boolean or an array,
    or of [Object.prototype]. *)
Definition prop (v : JSON) (k : string) : option JSON :=
  match v with
  | JObj fields => field k fields
  | _ => None
  end.

(** [v?.k] *)
Definition opt_prop (v : option JSON) (k : string) : option JSON :=
  match v with
  | None | Some JNull => None
  | Some x => prop x k
  end.

(** [a || b] *)
Definition js_or (a b : option JSON) : option JSON :=
  if truthy_opt a then a else b.

Definition join_comma (parts : list string) : string :=
  match parts with
  | [] => ""
  | p :: rest => fold_left (fun acc q => acc +:+ "," +:+ q) rest p
  end.

Definition all_some {A} (l : list (option A)) : option (list A) :=
  fold_right (fun o acc =>
                match o, acc with
                | Some x, Some xs => Some (x :: xs)
                | _, _ => None
                end) (Some []) l.

(** [ToString], as string concatenation and [new Error(v)] apply it.  [None]
    is the [TypeError] of an object that cannot be converted: a parsed object
    with a [toString] field of its own has lost the inherited method. *)
Fixpoint to_string (v : JSON) : option string :=
  match v with
  | JNull => Some "null"
  | JBool true => Some "true"
  | JBool false => Some "false"
  | JNum r => Some r
  | JStr s => Some s
  | JArr items =>
      join_comma <$>
        all_some (map (fun x => match x with
                                | JNull => Some ""
                                | _ => to_string x
                                end) items)
  | JObj fields =>
      if existsb (fun kv => String.eqb (fst kv) "toString") fields
      then None else Some "[object Object]"
  end.

(** ** The stream buffer: lines and trimming *)

Definition newline : ascii := "010"%char.

(** [s.split('\n')]: never empty; the last segment is what follows the last
    newline. *)
Fixpoint split (s : string) : list string :=
  match s with
  | EmptyString => [""]
  | String c rest =>
      if Ascii.eqb c newline then "" :: split rest
      else match split rest with
           | seg :: segs => String c seg :: segs
           | [] => [String c ""]
           end
  end.

(** White space and line terminators, as [String.prototype.trim] knows them,
    among the code units below 256. *)
Definition is_space (c : ascii) : bool :=
  match nat_of_ascii c with
  | 9 | 10 | 11 | 12 | 13 | 32 | 160 => true
  | _ => false
  end%nat.

Fixpoint trim_start (s : string) : string :=
  match s with
  | EmptyString => ""
  | String c rest => if is_space c then trim_start rest else s
  end.

Fixpoint trim_end (s : string) : string :=
  match s with
  | EmptyString => ""
  | String c rest =>
      match trim_end rest with
      | EmptyString => if is_space c then "" else String c ""
      | kept => String c kept
      end
  end.

Definition trim (s : string) : string := trim_end (trim_start s).

Definition nonempty (s : string) : bool := negb (String.eqb s "").

(** ** The provider object *)

Inductive ProviderState := STOPPED | STARTING | READY | BUSY | ERROR.

Definition state_name (s : ProviderState) : string :=
  match s with
  | STOPPED => "STOPPED" | STARTING => "STARTING" | READY => "READY"
  | BUSY => "BUSY" | ERROR => "ERROR"
  end.

Inductive Mode := persistent | api | other_mode (name : string).

Record Stats := {
  completions : Z;
  totalTimeMs : Z;
  avgTimeMs : Z;
  errors : Z;
  coldStarts : Z
}.

(** [this.pendingPromise]: the accumulator and the start time; [turn] names
    the promise its [resolve] and [reject] settle and the timeout they
    clear. *)
Record PendingPromise := {
  turn : nat;
  response : string;
  startTime : Z
}.

(** The fields of [this] the persistent mode reads and writes ([process] is
    the handle of a child in [procs] below). *)
Record Provider := {
  mode : Mode;
  timeout : Z;
  process : option nat;
  state : ProviderState;
  stdoutBuffer : string;
  pendingPromise : option PendingPromise;
  stats : Stats
}.

(** ** What lives outside the object: children, promises, timers *)

Inductive Promise :=
| Pending
| Resolved (v : option JSON)
| Rejected (message : string).

(** A child process, as returned by [spawn]; [initCall] is the API call that
    awaits the promise of the [_startPersistentProcess] that spawned it and
    [init] that promise; [exitOnce] are the [shutdown()] calls that hooked
    [once('exit')] on it. *)
Record Proc := {
  pid : option nat;
  stdinWritable : bool;
  exited : bool;
  exitOnce : list nat;
  initCall : nat;
  init : Promise
}.

(** Who reacts to the promise [_sendMessage] returns: the [then]/[catch] of
    the warmup of child [h], or the [complete()] call that returns it. *)
Inductive Owner := Warmup (h : nat) | Caller (c : nat).

Record Turn := { owner : Owner; outcome : Promise }.

Inductive CallKind :=
| KComplete (fullPrompt : string)
| KApi (started : Z)
| KInitialize
| KShutdown.

Record Call := { kind : CallKind; promise : Promise }.

Inductive Timer :=
| TurnTimer (t : nat)        (* setTimeout(..., this.timeout) of _sendMessage *)
| WarmupTimer (h : nat)      (* setTimeout(..., 5000) of _startPersistentProcess *)
| PollTimer (c : nat)        (* setInterval(..., 100) of _persistentComplete *)
| ForceKillTimer (c : nat)   (* setTimeout(..., 5000) of shutdown *)
| SigtermTimer (c : nat).    (* setTimeout(..., 1000) of shutdown *)

Global Instance Timer_eq_dec : EqDecision Timer.
Proof. solve_decision. Defined.

Inductive Signal := SIGTERM | SIGKILL.

(** What the provider did to its children, and what became of its turns, in
    order of occurrence (newest first). *)
Inductive Obs :=
| Spawned (h : nat)
| Wrote (h t : nat) (content : string)
| Ended (h : nat)
| Killed (h : nat) (sig : Signal)
| Settled (t : nat)
| ExitSeen (h : nat).

Record World := {
  self : Provider;
  procs : list Proc;
  turns : list Turn;
  calls : list Call;
  timers : list Timer;
  readyOnce : list nat;       (* once('ready') listeners of initialize() *)
  errorOnce : list nat;       (* once('error') listeners of initialize() *)
  hostListensError : bool;    (* the host has an 'error' listener on the provider *)
  jobs : list nat;            (* settled turns whose reactions have not run yet *)
  history : list Obs
}.

(** *** Field updates *)

Definition with_process (x : option nat) (p : Provider) : Provider :=
  {| mode := mode p; timeout := timeout p; process := x; state := state p;
     stdoutBuffer := stdoutBuffer p; pendingPromise := pendingPromise p;
     stats := stats p |}.

Definition with_state (x : ProviderState) (p : Provider) : Provider :=
  {| mode := mode p; timeout := timeout p; process := process p; state := x;
     stdoutBuffer := stdoutBuffer p; pendingPromise := pendingPromise p;
     stats := stats p |}.

Definition with_stdoutBuffer (x : string) (p : Provider) : Provider :=
  {| mode := mode p; timeout := timeout p; process := process p;
     state := state p; stdoutBuffer := x;
     pendingPromise := pendingPromise p; stats := stats p |}.

Definition with_pendingPromise (x : option PendingPromise) (p : Provider)
  : Provider :=
  {| mode := mode p; timeout := timeout p; process := process p;
     state := state p; stdoutBuffer := stdoutBuffer p; pendingPromise := x;
     stats := stats p |}.

Definition with_stats (x : Stats) (p : Provider) : Provider :=
  {| mode := mode p; timeout := timeout p; process := process p;
     state := state p; stdoutBuffer := stdoutBuffer p;
     pendingPromise := pendingPromise p; stats := x |}.

Definition on_self (f : Provider -> Provider) (w : World) : World :=
  {| self := f (self w); procs := procs w; turns := turns w;
     calls := calls w; timers := timers w; readyOnce := readyOnce w;
     errorOnce := errorOnce w; hostListensError := hostListensError w;
     jobs := jobs w; history := history w |}.

Definition set_procs (x : list Proc) (w : World) : World :=
  {| self := self w; procs := x; turns := turns w; calls := calls w;
     timers := timers w; readyOnce := readyOnce w; errorOnce := errorOnce w;
     hostListensError := hostListensError w; jobs := jobs w;
     history := history w |}.

Definition set_turns (x : list Turn) (w : World) : World :=
  {| self := self w; procs := procs w; turns := x; calls := calls w;
     timers := timers w; readyOnce := readyOnce w; errorOnce := errorOnce w;
     hostListensError := hostListensError w; jobs := jobs w;
     history := history w |}.

Definition set_calls (x : list Call) (w : World) : World :=
  {| self := self w; procs := procs w; turns := turns w; calls := x;
     timers := timers w; readyOnce := readyOnce w; errorOnce := errorOnce w;
     hostListensError := hostListensError w; jobs := jobs w;
     history := history w |}.

Definition set_timers (x : list Timer) (w : World) : World :=
  {| self := self w; procs := procs w; turns := turns w; calls := calls w;
     timers := x; readyOnce := readyOnce w; errorOnce := errorOnce w;
     hostListensError := hostListensError w; jobs := jobs w;
     history := history w |}.

Definition set_readyOnce (x : list nat) (w : World) : World :=
  {| self := self w; procs := procs w; turns := turns w; calls := calls w;
     timers := timers w; readyOnce := x; errorOnce := errorOnce w;
     hostListensError := hostListensError w; jobs := jobs w;
     history := history w |}.

Definition set_errorOnce (x : list nat) (w : World) : World :=
  {| self := self w; procs := procs w; turns := turns w; calls := calls w;
     timers := timers w; readyOnce := readyOnce w; errorOnce := x;
     hostListensError := hostListensError w; jobs := jobs w;
     history := history w |}.

Definition set_jobs (x : list nat) (w : World) : World :=
  {| self := self w; procs := procs w; turns := turns w; calls := calls w;
     timers := timers w; readyOnce := readyOnce w; errorOnce := errorOnce w;
     hostListensError := hostListensError w; jobs := x;
     history := history w |}.

Definition observe (o : Obs) (w : World) : World :=
  {| self := self w; procs := procs w; turns := turns w; calls := calls w;
     timers := timers w; readyOnce := readyOnce w; errorOnce := errorOnce w;
     hostListensError := hostListensError w; jobs := jobs w;
     history := o :: history w |}.

Definition set_process x := on_self (with_process x).
Definition set_state x := on_self (with_state x).
Definition set_stdoutBuffer x := on_self (with_stdoutBuffer x).
Definition set_pendingPromise x := on_self (with_pendingPromise x).
Definition set_stats x := on_self (with_stats x).

(** *** The constructor *)

Record Config := { cfg_mode : option string; cfg_timeout : option Z }.

(** [config.mode || 'persistent'] and [config.timeout || 120000]. *)
Definition new_provider (config : Config) : Provider :=
  {| mode := match cfg_mode config with
             | None => persistent
             | Some m =>
                 if String.eqb m "" then persistent
                 else if String.eqb m "persistent" then persistent
                 else if String.eqb m "api" then api
                 else other_mode m
             end;
     timeout := match cfg_timeout config with
                | None => 120000
                | Some t => if Z.eqb t 0 then 120000 else t
                end;
     process := None;
     state := STOPPED;
     stdoutBuffer := "";
     pendingPromise := None;
     stats := {| completions := 0; totalTimeMs := 0; avgTimeMs := 0;
                 errors := 0; coldStarts := 0 |} |}.

Definition new_world (config : Config) (host_listens : bool) : World :=
  {| self := new_provider config; procs := []; turns := []; calls := [];
     timers := []; readyOnce := []; errorOnce := [];
     hostListensError := host_listens; jobs := []; history := [] |}.

(** ** Promises, timers, signals, listeners *)

(** Settling is idempotent: a promise already settled stays as it is. *)
Definition settle_call (c : nat) (r : Promise) (w : World) : World :=
  match calls w !! c with
  | Some cl =>
      match promise cl with
      | Pending =>
          set_calls (<[c := {| kind := kind cl; promise := r |}]> (calls w)) w
      | _ => w
      end
  | None => w
  end.

(** Settling the promise of a turn queues its reaction for the end of the
    running task. *)
Definition settle_turn (t : nat) (r : Promise) (w : World) : World :=
  match turns w !! t with
  | Some tr =>
      match outcome tr with
      | Pending =>
          let w := set_turns
                     (<[t := {| owner := owner tr; outcome := r |}]> (turns w))
                     w in
          let w := set_jobs (jobs w ++ [t]) w in
          observe (Settled t) w
      | _ => w
      end
  | None => w
  end.

(** [setTimeout]/[setInterval] and [clearTimeout]/[clearInterval]. *)
Definition setTimeout (tm : Timer) (w : World) : World :=
  set_timers (tm :: timers w) w.

Definition clearTimeout (tm : Timer) (w : World) : World :=
  set_timers (filter (fun x => x <> tm) (timers w)) w.

Definition armed (tm : Timer) (w : World) : bool :=
  bool_decide (tm ∈ timers w).

(** [this.pendingPromise.resolve] and [.reject]: the wrappers of
    [_sendMessage], which clear the turn's timeout first. *)
Definition pending_resolve (p : PendingPromise) (v : JSON) (w : World)
  : World :=
  let w := clearTimeout (TurnTimer (turn p)) w in
  settle_turn (turn p) (Resolved (Some v)) w.

Definition pending_reject (p : PendingPromise) (message : string) (w : World)
  : World :=
  let w := clearTimeout (TurnTimer (turn p)) w in
  settle_turn (turn p) (Rejected message) w.

(** [child.kill(sig)]: nothing is sent to a child that has exited. *)
Definition kill (h : nat) (sig : Signal) (w : World) : World :=
  match procs w !! h with
  | Some pr => if exited pr then w else observe (Killed h sig) w
  | None => w
  end.

(** [this.process && this.process.stdin.writable] *)
Definition writable_process (w : World) : option nat :=
  match process (self w) with
  | Some h =>
      match procs w !! h with
      | Some pr => if stdinWritable pr then Some h else None
      | None => None
      end
  | None => None
  end.

(** [this.process?.pid], as a condition. *)
Definition pid_truthy (w : World) : bool :=
  match process (self w) with
  | Some h =>
      match procs w !! h with
      | Some pr => match pid pr with Some (S _) => true | _ => false end
      | None => false
      end
  | None => false
  end.

Definition settle_calls (cs : list nat) (r : Promise) (w : World) : World :=
  fold_left (fun w c => settle_call c r w) cs w.

(** [this.emit('ready')]: the [once('ready')] listeners of [initialize()]. *)
Definition emit_ready (w : World) : World :=
  let w := settle_calls (readyOnce w) (Resolved (Some (JBool true))) w in
  set_readyOnce [] w.

(** ** Sending a turn *)

(** [_sendMessage(content)], called for [who].  An [async] function: its
    [throw] is a promise born rejected, whose reaction runs like any other. *)
Definition _sendMessage (now : Z) (who : Owner) (content : string) (w : World)
  : World :=
  let t := length (turns w) in
  match writable_process w with
  | None =>
      let w := set_turns
                 (turns w ++
                    [{| owner := who;
                        outcome := Rejected "Process not running" |}]) w in
      set_jobs (jobs w ++ [t]) w
  | Some h =>
      let w := set_turns (turns w ++ [{| owner := who; outcome := Pending |}])
                 w in
      let w := setTimeout (TurnTimer t) w in
      let w := set_pendingPromise
                 (Some {| turn := t; response := ""; startTime := now |}) w in
      let w := set_state BUSY w in
      (* stdin.write(JSON.stringify({type:'user',
                       message:{role:'user',content}}) + '\n') *)
      observe (Wrote h t content) w
  end.

(** [_persistentComplete] from [if (this.state !== READY)] on: where a call
    parked on the poll promise resumes. *)
Definition _persistentComplete_woken (now : Z) (c : nat) (prompt : string)
  (w : World) : World :=
  match state (self w) with
  | READY => _sendMessage now (Caller c) prompt w
  | s => settle_call c (Rejected ("Provider not ready: " +:+ state_name s)) w
  end.

(** [_persistentComplete] from [if (this.state === BUSY)] on: where a call
    resumes after [await this.initialize()], and where it starts when the
    state is not [STOPPED]. *)
Definition _persistentComplete_initialized (now : Z) (c : nat)
  (prompt : string) (w : World) : World :=
  match state (self w) with
  | BUSY => setTimeout (PollTimer c) w
  | _ => _persistentComplete_woken now c prompt w
  end.

(** What the call that awaits [initialize()] does with its result: a
    [complete()] that auto-initialised goes on (or rethrows), an
    [initialize()] of the host returns it. *)
Definition resume_initialize (now : Z) (c : nat) (r : Promise) (w : World)
  : World :=
  match kind <$> calls w !! c with
  | Some (KComplete fullPrompt) =>
      match r with
      | Rejected e => settle_call c (Rejected e) w
      | _ => _persistentComplete_initialized now c fullPrompt w
      end
  | Some _ => settle_call c r w
  | None => w
  end.

(** [resolve]/[reject] of the promise of [_startPersistentProcess] for
    child [h]. *)
Definition settle_init (now : Z) (h : nat) (r : Promise) (w : World) : World :=
  match procs w !! h with
  | Some pr =>
      match init pr with
      | Pending =>
          let w := set_procs
                     (<[h := {| pid := pid pr;
                                stdinWritable := stdinWritable pr;
                                exited := exited pr; exitOnce := exitOnce pr;
                                initCall := initCall pr; init := r |}]>
                        (procs w)) w in
          resume_initialize now (initCall pr) r w
      | _ => w
      end
  | None => w
  end.

Record SpawnResult := { spawn_pid : option nat; spawn_writable : bool }.

(** [_startPersistentProcess()], called for API call [c]; [sp] is what
    [spawn] returns this time. *)
Definition _startPersistentProcess (now : Z) (c : nat) (sp : SpawnResult)
  (w : World) : World :=
  let w := set_state STARTING w in
  let st := stats (self w) in
  let w := set_stats {| completions := completions st;
                        totalTimeMs := totalTimeMs st;
                        avgTimeMs := avgTimeMs st; errors := errors st;
                        coldStarts := coldStarts st + 1 |} w in
  let h := length (procs w) in
  let w := set_procs
             (procs w ++
                [{| pid := spawn_pid sp; stdinWritable := spawn_writable sp;
                    exited := false; exitOnce := []; initCall := c;
                    init := Pending |}]) w in
  let w := set_process (Some h) w in
  let w := observe (Spawned h) w in
  let w := setTimeout (WarmupTimer h) w in
  _sendMessage now (Warmup h) "Hello" w.

(** The [.then] and the [.catch] of the warmup of child [h]. *)
Definition warmup_then (now : Z) (h : nat) (w : World) : World :=
  let w := clearTimeout (WarmupTimer h) w in
  let w := set_state READY w in
  let w := emit_ready w in
  settle_init now h (Resolved (Some (JBool true))) w.

Definition warmup_catch (now : Z) (h : nat) (err : string) (w : World)
  : World :=
  let w := clearTimeout (WarmupTimer h) w in
  if pid_truthy w then
    let w := set_state READY w in
    let w := emit_ready w in
    settle_init now h (Resolved (Some (JBool true))) w
  else
    let w := set_state ERROR w in
    settle_init now h (Rejected err) w.

(** The reaction to the settled promise of turn [t]. *)
Definition react (now : Z) (t : nat) (w : World) : World :=
  match turns w !! t with
  | Some tr =>
      match outcome tr, owner tr with
      | Pending, _ => w
      | r, Caller c => settle_call c r w
      | Resolved _, Warmup h => warmup_then now h w
      | Rejected e, Warmup h => warmup_catch now h e w
      end
  | None => w
  end.

Definition run_jobs (now : Z) (w : World) : World :=
  fold_left (fun w t => react now t w) (jobs w) (set_jobs [] w).

(** The reactions queued by the task, then the ones those queued (a reaction
    queues at most the rejected send of a resumed [complete()], whose own
    reaction queues nothing). *)
Definition drain (now : Z) (w : World) : World :=
  run_jobs now (run_jobs now w).

(** ** Messages of the child *)

(** How a piece of synchronous code ends: normally, or by a [throw] that
    keeps what was written to the world before it. *)
Inductive Completion := Normal (w : World) | Thrown (w : World).

Definition world_of (c : Completion) : World :=
  match c with Normal w | Thrown w => w end.

Definition is_type (v : option JSON) (name : string) : bool :=
  match v with
  | Some (JStr s) => String.eqb s name
  | _ => false
  end.

(** [this.pendingPromise.response += text] *)
Definition append_response (text : string) (w : World) : World :=
  match pendingPromise (self w) with
  | Some p =>
      set_pendingPromise
        (Some {| turn := turn p; response := response p +:+ text;
                 startTime := startTime p |}) w
  | None => w
  end.

(** The loop over [msg.message.content]: [block.type] of [null] throws, and
    so does the concatenation of a text that cannot be converted. *)
Fixpoint append_blocks (blocks : list JSON) (w : World) : Completion :=
  match blocks with
  | [] => Normal w
  | JNull :: _ => Thrown w
  | block :: rest =>
      if is_type (prop block "type") "text"
         && truthy_opt (prop block "text")
      then match prop block "text" ≫= to_string with
           | Some text => append_blocks rest (append_response text w)
           | None => Thrown w
           end
      else append_blocks rest w
  end.

(** [Math.round(a / b)] for integers [a] and [b > 0]: half rounds up. *)
Definition round_div (a b : Z) : Z := (2 * a + b) / (2 * b).

Definition record_completion (elapsed : Z) (st : Stats) : Stats :=
  let n := completions st + 1 in
  let total := totalTimeMs st + elapsed in
  {| completions := n; totalTimeMs := total; avgTimeMs := round_div total n;
     errors := errors st; coldStarts := coldStarts st |}.

Definition record_error (st : Stats) : Stats :=
  {| completions := completions st; totalTimeMs := totalTimeMs st;
     avgTimeMs := avgTimeMs st; errors := errors st + 1;
     coldStarts := coldStarts st |}.

(** [this.pendingPromise.response || msg.result || ''] *)
Definition final_response (p : PendingPromise) (msg : JSON) : JSON :=
  if nonempty (response p) then JStr (response p)
  else match prop msg "result" with
       | Some v => if truthy v then v else JStr ""
       | None => JStr ""
       end.

(** [msg.error?.message || msg.message || 'Unknown error'] *)
Definition error_message (msg : JSON) : option JSON :=
  js_or (js_or (opt_prop (prop msg "error") "message") (prop msg "message"))
    (Some (JStr "Unknown error")).

Definition _handleMessage (now : Z) (msg : JSON) (w : World) : Completion :=
  match pendingPromise (self w) with
  | None => Normal w
  | Some p =>
      match msg with
      | JNull => Thrown w
      | _ =>
          let type := prop msg "type" in
          if is_type type "assistant" then
            match opt_prop (prop msg "message") "content" with
            | Some content =>
                if truthy content then
                  match content with
                  | JArr blocks => append_blocks blocks w
                  | JStr _ => Normal w  (* its characters have no [type] *)
                  | _ => Thrown w       (* not iterable *)
                  end
                else Normal w
            | None => Normal w
            end
          else if is_type type "result" then
            let response := final_response p msg in
            let elapsed := now - startTime p in
            let w := set_stats (record_completion elapsed (stats (self w))) w in
            let w := pending_resolve p response w in
            let w := set_pendingPromise None w in
            Normal (set_state READY w)
          else if is_type type "error" then
            let w := set_stats (record_error (stats (self w))) w in
            match error_message msg ≫= to_string with
            | Some errorMsg =>
                let w := pending_reject p errorMsg w in
                let w := set_pendingPromise None w in
                Normal (set_state READY w)
            | None => Thrown w   (* new Error(errorMsg) *)
            end
          else Normal w
      end
  end.

Section Codec.

(** [JSON.parse]; [None] is its [SyntaxError]. *)
Variable JSON_parse : string -> option JSON.

(** The body of the loop of [_handleStdout]: the [catch] swallows what
    [JSON.parse] and [_handleMessage] throw. *)
Definition handle_line (now : Z) (w : World) (line : string) : World :=
  let trimmed := trim line in
  if nonempty trimmed then
    match JSON_parse trimmed with
    | Some msg => world_of (_handleMessage now msg w)
    | None => w
    end
  else w.

(** [_handleStdout(data)], where [data] is the text of the chunk, that is
    [data.toString()]. *)
Definition _handleStdout (now : Z) (data : string) (w : World) : World :=
  let segments := split (stdoutBuffer (self w) +:+ data) in
  (* lines.pop() || '' *)
  let w := set_stdoutBuffer (List.last segments "") w in
  let lines := removelast segments in
  fold_left (handle_line now) lines w.

End Codec.

(** ** Lifecycle events of a child, and timer callbacks *)

(** The [exit] listener of [_startPersistentProcess], then the
    [once('exit')] listeners of [shutdown()] on the same child. *)
Definition shutdown_on_exit (w : World) (c : nat) : World :=
  let w := clearTimeout (ForceKillTimer c) w in
  let w := set_process None w in
  let w := set_state STOPPED w in
  settle_call c (Resolved None) w.

Definition on_exit (h : nat) (w : World) : World :=
  match procs w !! h with
  | Some pr =>
      if exited pr then w else
      let w := set_procs
                 (<[h := {| pid := pid pr; stdinWritable := stdinWritable pr;
                            exited := true; exitOnce := [];
                            initCall := initCall pr; init := init pr |}]>
                    (procs w)) w in
      let w := observe (ExitSeen h) w in
      let w := set_process None w in
      let w := set_state STOPPED w in
      let w := match pendingPromise (self w) with
               | Some p =>
                   let w := pending_reject p "Process exited unexpectedly" w in
                   set_pendingPromise None w
               | None => w
               end in
      fold_left shutdown_on_exit (exitOnce pr) w
  | None => w
  end.

(** The [error] listener.  [this.emit('error', error)] throws when nobody
    listens, and the handler ends there. *)
Definition on_error (now : Z) (h : nat) (message : string) (w : World)
  : World :=
  match procs w !! h with
  | Some _ =>
      let w := set_state ERROR w in
      match errorOnce w, hostListensError w with
      | [], false => w
      | waiting, _ =>
          let w := settle_calls waiting (Resolved (Some (JBool false))) w in
          let w := set_errorOnce [] w in
          settle_init now h (Rejected message) w
      end
  | None => w
  end.

(** The pipe to the child closes. *)
Definition on_stdin_closed (h : nat) (w : World) : World :=
  match procs w !! h with
  | Some pr =>
      set_procs
        (<[h := {| pid := pid pr; stdinWritable := false;
                   exited := exited pr; exitOnce := exitOnce pr;
                   initCall := initCall pr; init := init pr |}]> (procs w)) w
  | None => w
  end.

Definition prompt_of (c : nat) (w : World) : string :=
  match kind <$> calls w !! c with
  | Some (KComplete fullPrompt) => fullPrompt
  | _ => ""
  end.

(** The callback of an armed timer; a timeout is spent when it fires, an
    interval is not. *)
Definition fire (now : Z) (tm : Timer) (w : World) : World :=
  if armed tm w then
    match tm with
    | TurnTimer t =>
        let w := clearTimeout tm w in
        let w := set_pendingPromise None w in
        let w := set_state READY w in
        settle_turn t
          (Rejected ("Timeout after " +:+ pretty (timeout (self w)) +:+ "ms"))
          w
    | WarmupTimer h =>
        let w := clearTimeout tm w in
        match state (self w) with
        | STARTING =>
            let w := set_state READY w in
            let w := emit_ready w in
            settle_init now h (Resolved (Some (JBool true))) w
        | _ => w
        end
    | PollTimer c =>
        match state (self w) with
        | READY =>
            let w := clearTimeout tm w in
            _persistentComplete_woken now c (prompt_of c w) w
        | _ => w
        end
    | ForceKillTimer c =>
        let w := clearTimeout tm w in
        let w := match process (self w) with
                 | Some h => kill h SIGKILL w
                 | None => w
                 end in
        let w := set_process None w in
        let w := set_state STOPPED w in
        settle_call c (Resolved None) w
    | SigtermTimer c =>
        let w := clearTimeout tm w in
        match process (self w) with
        | Some h => kill h SIGTERM w
        | None => w
        end
    end
  else w.

(** ** The API of the provider *)

Definition line_break : string := String newline "".

(** The prompt [complete] builds when a system prompt is given. *)
Definition full_prompt (prompt : string) (systemPrompt : option string)
  : string :=
  match systemPrompt with
  | Some sys =>
      if nonempty sys
      then sys +:+ line_break +:+ line_break +:+ "---" +:+ line_break
               +:+ line_break +:+ prompt
      else prompt
  | None => prompt
  end.

Definition add_call (k : CallKind) (w : World) : World :=
  set_calls (calls w ++ [{| kind := k; promise := Pending |}]) w.

(** [initialize()], awaited by call [c]. *)
Definition initialize (now : Z) (c : nat) (sp : SpawnResult) (w : World)
  : World :=
  match mode (self w) with
  | persistent =>
      match state (self w) with
      | READY => resume_initialize now c (Resolved (Some (JBool true))) w
      | STARTING =>
          let w := set_readyOnce (readyOnce w ++ [c]) w in
          set_errorOnce (errorOnce w ++ [c]) w
      | _ => _startPersistentProcess now c sp w
      end
  | _ => resume_initialize now c (Resolved (Some (JBool true))) w
  end.

Definition _persistentComplete (now : Z) (c : nat) (prompt : string)
  (sp : SpawnResult) (w : World) : World :=
  match state (self w) with
  | STOPPED => initialize now c sp w
  | _ => _persistentComplete_initialized now c prompt w
  end.

(** [complete(prompt, systemPrompt)].  In [api] mode the call waits for the
    reply of the remote API. *)
Definition complete (now : Z) (prompt : string) (systemPrompt : option string)
  (sp : SpawnResult) (w : World) : World :=
  let c := length (calls w) in
  match mode (self w) with
  | persistent =>
      let fullPrompt := full_prompt prompt systemPrompt in
      let w := add_call (KComplete fullPrompt) w in
      _persistentComplete now c fullPrompt sp w
  | api => add_call (KApi now) w
  | other_mode m =>
      let w := add_call (KComplete (full_prompt prompt systemPrompt)) w in
      settle_call c
        (Rejected ("Unknown mode: " +:+ m
                   +:+ ". Supported modes: persistent, api")) w
  end.

Definition call_initialize (now : Z) (sp : SpawnResult) (w : World) : World :=
  let c := length (calls w) in
  initialize now c sp (add_call KInitialize w).

(** [shutdown()] *)
Definition shutdown (w : World) : World :=
  let c := length (calls w) in
  let w := add_call KShutdown w in
  match mode (self w), process (self w) with
  | persistent, Some h =>
      let w := setTimeout (ForceKillTimer c) w in
      let w := match writable_process w with
               | Some _ => observe (Ended h) (on_stdin_closed h w)
               | None => w
               end in
      let w := match procs w !! h with
               | Some pr =>
                   set_procs
                     (<[h := {| pid := pid pr;
                                stdinWritable := stdinWritable pr;
                                exited := exited pr;
                                exitOnce := exitOnce pr ++ [c];
                                initCall := initCall pr; init := init pr |}]>
                        (procs w)) w
               | None => w
               end in
      setTimeout (SigtermTimer c) w
  | _, _ => settle_call c (Resolved None) w
  end.

(** [isReady()] *)
Definition isReady (w : World) : bool :=
  match mode (self w), state (self w) with
  | persistent, READY => true
  | persistent, _ => false
  | _, _ => true
  end.

(** *** The stateless mode *)

Inductive ApiResult :=
| ApiNoClient (message : string)    (* the SDK client cannot be created *)
| ApiMessage (content : list JSON)  (* messages.create resolves *)
| ApiFailure (message : string).    (* messages.create rejects *)

(** [message.content.find(c => c.type === 'text')]; [None] is the
    [TypeError] of a [null] block. *)
Fixpoint find_text (content : list JSON) : option (option JSON) :=
  match content with
  | [] => Some None
  | JNull :: _ => None
  | block :: rest =>
      if is_type (prop block "type") "text" then Some (Some block)
      else find_text rest
  end.

(** [_anthropicAPI] once the remote call has an outcome. *)
Definition _anthropicAPI (now : Z) (c : nat) (r : ApiResult) (w : World)
  : World :=
  match calls w !! c with
  | Some {| kind := KApi started; promise := Pending |} =>
      match r with
      | ApiNoClient e => settle_call c (Rejected e) w
      | ApiMessage content =>
          let w := set_stats
                     (record_completion (now - started) (stats (self w))) w in
          match find_text content with
          | Some (Some block) => settle_call c (Resolved (prop block "text")) w
          | Some None => settle_call c (Resolved (Some (JStr ""))) w
          | None =>
              let w := set_stats (record_error (stats (self w))) w in
              settle_call c
                (Rejected "Cannot read properties of null (reading 'type')") w
          end
      | ApiFailure e =>
          let w := set_stats (record_error (stats (self w))) w in
          settle_call c (Rejected e) w
      end
  | _ => w
  end.

(** ** Tasks of the event loop *)

Inductive Event :=
| CallComplete (prompt : string) (systemPrompt : option string)
    (sp : SpawnResult)
| CallInitialize (sp : SpawnResult)
| CallShutdown
| StdoutData (h : nat) (data : string)
| ProcessExit (h : nat)
| ProcessError (h : nat) (message : string)
| StdinClosed (h : nat)
| TimerFires (tm : Timer)
| ApiReply (c : nat) (r : ApiResult).

Section Loop.

Variable JSON_parse : string -> option JSON.

(** The synchronous part of a task. *)
Definition handle (now : Z) (ev : Event) (w : World) : World :=
  match ev with
  | CallComplete prompt systemPrompt sp => complete now prompt systemPrompt sp w
  | CallInitialize sp => call_initialize now sp w
  | CallShutdown => shutdown w
  | StdoutData h data =>
      match procs w !! h with
      | Some _ => _handleStdout JSON_parse now data w
      | None => w
      end
  | ProcessExit h => on_exit h w
  | ProcessError h message => on_error now h message w
  | StdinClosed h => on_stdin_closed h w
  | TimerFires tm => fire now tm w
  | ApiReply c r => _anthropicAPI now c r w
  end.

(** One task: the handler, then the reactions it queued. *)
Definition step (now : Z) (ev : Event) (w : World) : World :=
  drain now (handle now ev w).

Definition run (w : World) (tasks : list (Z * Event)) : World :=
  fold_left (fun w task => step (fst task) (snd task) w) tasks w.

End Loop.

(** ** A decoder to run the scenarios with

    The properties below hold for every [JSON_parse].  To run the provider
    on concrete output of a child, this decoder reads the JSON texts the
    scenarios use: objects, arrays, strings with the one-letter escapes,
    the three literals, and integers. *)

Definition dquote : ascii := "034"%char.

Definition is_json_space (c : ascii) : bool :=
  match nat_of_ascii c with
  | 9 | 10 | 13 | 32 => true
  | _ => false
  end%nat.

Fixpoint skip_space (s : string) : string :=
  match s with
  | String c rest => if is_json_space c then skip_space rest else s
  | EmptyString => ""
  end.

Definition unescape (c : ascii) : option ascii :=
  match nat_of_ascii c with
  | 34 => Some dquote | 92 => Some "\"%char | 47 => Some "/"%char
  | 110 => Some newline | 116 => Some "009"%char | 114 => Some "013"%char
  | 98 => Some "008"%char | 102 => Some "012"%char
  | _ => None
  end%nat.

(** The characters of a string literal, after its opening quote. *)
Fixpoint parse_chars (s : string) : option (string * string) :=
  match s with
  | EmptyString => None
  | String c rest =>
      if Ascii.eqb c dquote then Some ("", rest)
      else if Ascii.eqb c "\" then
        match rest with
        | String e rest' =>
            x ← unescape e;
            '(str, r) ← parse_chars rest';
            Some (String x str, r)
        | EmptyString => None
        end
      else if (nat_of_ascii c <? 32)%nat then None
      else '(str, r) ← parse_chars rest; Some (String c str, r)
  end.

Definition is_digit (c : ascii) : bool :=
  ((48 <=? nat_of_ascii c) && (nat_of_ascii c <=? 57))%nat.

Fixpoint take_digits (s : string) : string * string :=
  match s with
  | String c rest =>
      if is_digit c then
        let '(ds, r) := take_digits rest in (String c ds, r)
      else ("", s)
  | EmptyString => ("", "")
  end.

Definition strip_prefix (p s : string) : option string :=
  if String.prefix p s
  then Some (substring (String.length p) (String.length s - String.length p) s)
  else None.

(** An integer without fraction or exponent; its text is its [ToString]
    (["-0"] reads as zero). *)
Definition parse_integer (s : string) : option (JSON * string) :=
  let '(negative, body) :=
    match s with
    | String "-" rest => (true, rest)
    | _ => (false, s)
    end in
  let '(ds, r) := take_digits body in
  match ds, r with
  | EmptyString, _ => None
  | String "0" (String _ _), _ => None
  | _, String "." _ | _, String "e" _ | _, String "E" _ => None
  | _, _ =>
      Some (JNum (if negative && negb (String.eqb ds "0")
                  then String "-" ds else ds), r)
  end.

Fixpoint parse_value (fuel : nat) (s : string) {struct fuel}
  : option (JSON * string) :=
  match fuel with
  | O => None
  | S n =>
      match skip_space s with
      | EmptyString => None
      | String c rest as text =>
          if Ascii.eqb c "{" then
            match skip_space rest with
            | String "}" r => Some (JObj [], r)
            | r => '(fs, r') ← parse_members n r; Some (JObj fs, r')
            end
          else if Ascii.eqb c "[" then
            match skip_space rest with
            | String "]" r => Some (JArr [], r)
            | r => '(vs, r') ← parse_items n r; Some (JArr vs, r')
            end
          else if Ascii.eqb c dquote then
            '(str, r) ← parse_chars rest; Some (JStr str, r)
          else match strip_prefix "null" text with
               | Some r => Some (JNull, r)
               | None =>
          match strip_prefix "true" text with
          | Some r => Some (JBool true, r)
          | None =>
          match strip_prefix "false" text with
          | Some r => Some (JBool false, r)
          | None => parse_integer text
          end end end
      end
  end
with parse_items (fuel : nat) (s : string) {struct fuel}
  : option (list JSON * string) :=
  match fuel with
  | O => None
  | S n =>
      '(v, r) ← parse_value n s;
      match skip_space r with
      | String "," r' => '(vs, r'') ← parse_items n r'; Some (v :: vs, r'')
      | String "]" r' => Some ([v], r')
      | _ => None
      end
  end
with parse_members (fuel : nat) (s : string) {struct fuel}
  : option (list (string * JSON) * string) :=
  match fuel with
  | O => None
  | S n =>
      match skip_space s with
      | String c rest =>
          if Ascii.eqb c dquote then
            '(k, r) ← parse_chars rest;
            match skip_space r with
            | String ":" r' =>
                '(v, r'') ← parse_value n r';
                match skip_space r'' with
                | String "," r3 =>
                    '(fs, r4) ← parse_members n r3; Some ((k, v) :: fs, r4)
                | String "}" r3 => Some ([(k, v)], r3)
                | _ => None
                end
            | _ => None
            end
          else None
      | EmptyString => None
      end
  end.

Definition sample_parse (s : string) : option JSON :=
  '(v, r) ← parse_value (2 * String.length s + 2) s;
  match skip_space r with
  | EmptyString => Some v
  | _ => None
  end.

(** JSON text written with single quotes for the double ones. *)
Fixpoint json_text (s : string) : string :=
  match s with
  | String c rest =>
      String (if Ascii.eqb c "'" then dquote else c) (json_text rest)
  | EmptyString => ""
  end.

(** ** Vocabulary of the properties *)

Fixpoint no_newline (s : string) : bool :=
  match s with
  | EmptyString => true
  | String c rest => negb (Ascii.eqb c newline) && no_newline rest
  end.

(** The text made of the complete [lines], each followed by a newline, and
    of the unterminated [rest]. *)
Fixpoint unlines (lines : list string) (rest : string) : string :=
  match lines with
  | [] => rest
  | l :: ls => l +:+ line_break +:+ unlines ls rest
  end.

(** The Protocol Message a complete line decodes to, if any. *)
Definition decode_line (parse : string -> option JSON) (line : string)
  : option JSON :=
  let trimmed := trim line in
  if nonempty trimmed then parse trimmed else None.

(** Trimming, said without [trim]: the code units below 256 that
    ECMAScript's [WhiteSpace] (TAB, VT, FF, SP, NBSP) and [LineTerminator]
    (LF, CR) name are what [String.prototype.trim] strips at both ends. *)
Definition WhiteSpace : list nat := [9; 11; 12; 32; 160]%nat.
Definition LineTerminator : list nat := [10; 13]%nat.

Definition strippable (c : ascii) : bool :=
  bool_decide (nat_of_ascii c ∈ WhiteSpace ++ LineTerminator).

Fixpoint blank (s : string) : bool :=
  match s with
  | EmptyString => true
  | String c rest => strippable c && blank rest
  end.

(** The last code unit of [String c s]. *)
Fixpoint last_unit (c : ascii) (s : string) : ascii :=
  match s with
  | EmptyString => c
  | String c' rest => last_unit c' rest
  end.

(** A text that neither starts nor ends with a code unit [trim] strips. *)
Definition tight (s : string) : bool :=
  match s with
  | EmptyString => true
  | String c rest =>
      negb (strippable c) && negb (strippable (last_unit c rest))
  end.

(** A complete line, read as white space, a tight core, and white space
    again; the core of a blank line is empty. *)
Record Framed := { before : string; core : string; after : string }.

Definition line_of (f : Framed) : string :=
  before f +:+ core f +:+ after f.

Definition framed (f : Framed) : bool :=
  blank (before f) && tight (core f) && blank (after f)
  && no_newline (line_of f).

(** The Protocol Message a line gives: the parse of its core, and none when
    the core is empty or [JSON.parse] rejects it. *)
Definition decode_core (parse : string -> option JSON) (f : Framed)
  : option JSON :=
  if String.eqb (core f) "" then None else parse (core f).

(** Messages handed to [_handleMessage] one after the other, whatever each
    of them throws. *)
Definition deliver (now : Z) (msgs : list JSON) (w : World) : World :=
  fold_left (fun w msg => world_of (_handleMessage now msg w)) msgs w.

(** The text a content block contributes to the answer. *)
Definition block_text (block : JSON) : string :=
  if is_type (prop block "type") "text" && truthy_opt (prop block "text")
  then default "" (prop block "text" ≫= to_string)
  else "".

Definition blocks_text (blocks : list JSON) : string :=
  fold_right (fun b acc => block_text b +:+ acc) "" blocks.

(** The text of the text blocks of an assistant fragment, in order. *)
Definition fragment_text (msg : JSON) : string :=
  match opt_prop (prop msg "message") "content" with
  | Some (JArr blocks) => blocks_text blocks
  | _ => ""
  end.

Definition fragments_text (msgs : list JSON) : string :=
  fold_right (fun m acc => fragment_text m +:+ acc) "" msgs.

(** A block the loop can read: not [null], and its text, if it is a text
    block, has a string form. *)
Definition readable_block (block : JSON) : bool :=
  match block with
  | JNull => false
  | _ =>
      if is_type (prop block "type") "text" && truthy_opt (prop block "text")
      then bool_decide (is_Some (prop block "text" ≫= to_string))
      else true
  end.

(** An [assistant] message whose content, when a list, is a list of
    readable blocks. *)
Definition assistant_fragment (msg : JSON) : bool :=
  is_type (prop msg "type") "assistant"
  && match opt_prop (prop msg "message") "content" with
     | Some (JArr blocks) => forallb readable_block blocks
     | _ => true
     end.

Definition turn_result (msg : JSON) : bool := is_type (prop msg "type") "result".

Definition turn_error (msg : JSON) : bool := is_type (prop msg "type") "error".

(** The result payload's own text: [msg.result || '']. *)
Definition result_text (msg : JSON) : JSON :=
  match prop msg "result" with
  | Some v => if truthy v then v else JStr ""
  | None => JStr ""
  end.

Definition outcome_of (t : nat) (w : World) : option Promise :=
  outcome <$> turns w !! t.

Definition promise_of (c : nat) (w : World) : option Promise :=
  promise <$> calls w !! c.

Definition is_settled (r : Promise) : bool :=
  match r with Pending => false | _ => true end.

(** A turn is open while the promise of its [_sendMessage] is pending. *)
Definition open_turn (w : World) (t : nat) : Prop :=
  outcome_of t w = Some Pending.

(** Every write to a child's input comes after the settling of each turn
    written before it ([hist] is newest first). *)
Fixpoint serialised (hist : list Obs) : Prop :=
  match hist with
  | [] => True
  | Wrote _ _ _ :: older =>
      (forall h t c, In (Wrote h t c) older -> In (Settled t) older)
      /\ serialised older
  | _ :: older => serialised older
  end.

(** What the properties of the turns depend on. *)
Definition slot_turn (w : World) : option nat :=
  turn <$> pendingPromise (self w).

Definition view (w : World) :=
  (slot_turn w, state (self w), turns w, timers w, history w).

(** The pending turn is the one open turn; a timeout is armed for an open
    turn only, and no timer of a shutdown is armed; the writes are
    serialised, and a turn that was written and is no longer open has been
    settled. *)
Record TurnsOk (w : World) : Prop := {
  ok_slot : forall t, open_turn w t <-> slot_turn w = Some t;
  ok_timers : forall tm, tm ∈ timers w ->
                match tm with
                | TurnTimer t => open_turn w t
                | WarmupTimer _ | PollTimer _ => True
                | ForceKillTimer _ | SigtermTimer _ => False
                end;
  ok_serial : serialised (history w);
  ok_logged : forall h t c, In (Wrote h t c) (history w) ->
                open_turn w t \/ In (Settled t) (history w)
}.

(** A turn is pending in the states [BUSY] and [ERROR] only. *)
Definition Idle (w : World) : Prop :=
  slot_turn w <> None -> state (self w) = BUSY \/ state (self w) = ERROR.

(** Between two tasks. *)
Definition Inv (w : World) : Prop := TurnsOk w /\ Idle w /\ jobs w = [].

(** After the handler of a task, before its reactions: at most one turn
    was settled, and it is no longer the pending one. *)
Definition Mid (w : World) : Prop :=
  TurnsOk w /\ Idle w
  /\ (jobs w = [] \/ exists t, jobs w = [t] /\ pendingPromise (self w) = None).

(** After a continuation that started with the jobs [J]: it queued nothing,
    or the rejected send of a [complete()]. *)
Definition Post (J : list nat) (w : World) : Prop :=
  TurnsOk w /\ Idle w
  /\ (jobs w = J
      \/ exists t c e,
           jobs w = J ++ [t] /\ pendingPromise (self w) = None
           /\ turns w !! t
              = Some {| owner := Caller c; outcome := Rejected e |}).

(** The host application only ever calls [complete()]. *)
Definition host_only_completes (tasks : list (Z * Event)) : Prop :=
  Forall (fun task => match snd task with
                      | CallInitialize _ | CallShutdown => False
                      | _ => True
                      end) tasks.

(** More generally: the host never calls [shutdown()], and calls
    [initialize()] only when no turn is pending. *)
Definition allowed (w : World) (ev : Event) : Prop :=
  match ev with
  | CallShutdown => False
  | CallInitialize _ => pendingPromise (self w) = None
  | _ => True
  end.

Fixpoint host_keeps_off (parse : string -> option JSON) (w : World)
  (tasks : list (Z * Event)) : Prop :=
  match tasks with
  | [] => True
  | task :: rest =>
      allowed w (snd task)
      /\ host_keeps_off parse (step parse (fst task) (snd task) w) rest
  end.

Definition default_config : Config :=
  {| cfg_mode := None; cfg_timeout := None |}.

Definition spawned_ok (p : nat) : SpawnResult :=
  {| spawn_pid := Some p; spawn_writable := true |}.

(** The configuration, the current child, the buffer, the statistics and
    the number of children. *)
Definition fixed (w : World) :=
  (mode (self w), timeout (self w), process (self w), stdoutBuffer (self w),
   stats (self w), length (procs w)).

(** The world in which the open turn has accumulated [text] more. *)
Definition accumulate (p : PendingPromise) (text : string) (w : World)
  : World :=
  set_pendingPromise
    (Some {| turn := turn p; response := response p +:+ text;
             startTime := startTime p |}) w.

(** The message of the error a timed-out turn is rejected with. *)
Definition timeout_message (w : World) : string :=
  "Timeout after " +:+ pretty (timeout (self w)) +:+ "ms".

(** An observation that is neither a write nor the settling of a turn. *)
Definition passive (o : Obs) : Prop :=
  match o with Wrote _ _ _ | Settled _ => False | _ => True end.

(** A send born rejected for a [complete()] call. *)
Definition born_rejected (w : World) (t : nat) : Prop :=
  exists c e,
    turns w !! t = Some {| owner := Caller c; outcome := Rejected e |}.

(** What a continuation may do: it never sets [STARTING], it only adds
    turns, and the jobs it adds are sends born rejected. *)
Record Cont (w w' : World) : Prop := {
  cont_state : state (self w) <> STARTING -> state (self w') <> STARTING;
  cont_turns : exists ts, turns w' = turns w ++ ts;
  cont_jobs : exists js, jobs w' = jobs w ++ js /\ Forall (born_rejected w') js
}.

(** The same, when the state is known not to be [STARTING] afterwards. *)
Definition Over (w w' : World) : Prop :=
  state (self w') <> STARTING
  /\ (exists ts, turns w' = turns w ++ ts)
  /\ (exists js, jobs w' = jobs w ++ js /\ Forall (born_rejected w') js).

(** What a handler leaves: a state other than [STARTING], or the rejected
    warmup of a failed send as the one job. *)
Definition Started (w : World) : Prop :=
  state (self w) <> STARTING
  \/ exists t h r,
       jobs w = [t]
       /\ turns w !! t = Some {| owner := Warmup h; outcome := r |}
       /\ is_settled r = true.

(** ** Scenarios *)

(** A provider just constructed, persistent mode, default timeout. *)
Definition fresh : World := new_world default_config false.

Definition result_line (text : string) : string :=
  json_text "{'type':'result','result':'" +:+ text +:+ json_text "'}"
  +:+ line_break.

Definition fragment_line (text : string) : string :=
  json_text "{'type':'assistant','message':{'content':[{'type':'text','text':'"
  +:+ text +:+ json_text "'}]}}" +:+ line_break.

Definition fragment_msg (text : string) : JSON :=
  JObj [("type", JStr "assistant");
        ("message",
         JObj [("content",
                JArr [JObj [("type", JStr "text"); ("text", JStr text)]])])].

Definition result_msg (text : string) : JSON :=
  JObj [("type", JStr "result"); ("result", JStr text)].

Definition error_msg (text : string) : JSON :=
  JObj [("type", JStr "error"); ("error", JObj [("message", JStr text)])].

(** [initialize()] on a fresh provider; the child is spawned with pid 41. *)
Definition warming : World :=
  run sample_parse fresh [(0, CallInitialize (spawned_ok 41))].

(** The warmup answered after 900 ms. *)
Definition ready : World :=
  run sample_parse warming [(900, StdoutData 0 (result_line "Hello!"))].

(** A first [complete("hello")] has sent its turn. *)
Definition busy : World :=
  run sample_parse ready [(1000, CallComplete "hello" None (spawned_ok 0))].

(** [initialize()], then five seconds without a word from the child. *)
Definition silent_warmup : list (Z * Event) :=
  [(0, CallInitialize (spawned_ok 41));
   (5000, TimerFires (WarmupTimer 0))].

(** [shutdown()], the child exits 200 ms later, a [complete()] respawns
    within the second, and the one-second timer of the shutdown fires. *)
Definition shutdown_then_respawn : list (Z * Event) :=
  [(2000, CallShutdown);
   (2200, ProcessExit 0);
   (2500, CallComplete "again" None (spawned_ok 42));
   (3000, TimerFires (SigtermTimer 1))].

(** Two callers: the second calls while the first turn is open, polls, and
    sends once the first turn has its result. *)
Definition two_callers : list (Z * Event) :=
  [(0, CallComplete "first" None (spawned_ok 41));
   (900, StdoutData 0 (result_line "Hello!"));
   (1000, CallComplete "second" None (spawned_ok 0));
   (1100, TimerFires (PollTimer 1));
   (1500, StdoutData 0 (fragment_line "one"));
   (1600, StdoutData 0 (result_line ""));
   (1700, TimerFires (PollTimer 1));
   (2500, StdoutData 0 (result_line "two"))].

(** A provider whose child could not be spawned: no pid, no input. *)
Definition spawn_failed : World :=
  run sample_parse fresh
    [(0, CallInitialize {| spawn_pid := None; spawn_writable := false |})].

(** ** What a child reads

    [JSON.stringify] of the message [_sendMessage] writes.  The object has
    string values only, so its text is fixed but for the quoted prompt. *)

Definition hex_digit (n : nat) : ascii :=
  nth n (list_ascii_of_string "0123456789abcdef") "0"%char.

(** How [JSON.stringify] writes one code unit of a string (code units are
    below 256 here, so none is a surrogate). *)
Definition quote_char (c : ascii) : string :=
  match nat_of_ascii c with
  | 8 => "\b" | 9 => "\t" | 10 => "\n" | 12 => "\f" | 13 => "\r"
  | 34 => String "\" (String dquote "")
  | 92 => "\\"
  | n => if (n <? 32)%nat
         then "\u00" +:+ String (hex_digit (n / 16))
                          (String (hex_digit (n mod 16)) "")
         else String c ""
  end%nat.

Fixpoint quote_chars (s : string) : string :=
  match s with
  | EmptyString => ""
  | String c rest => quote_char c +:+ quote_chars rest
  end.

(** [JSON.stringify(s)] for a string [s]. *)
Definition JSON_stringify_string (s : string) : string :=
  String dquote (quote_chars s) +:+ String dquote "".

(** [JSON.stringify({type: 'user', message: {role: 'user', content}})] *)
Definition user_message (content : string) : string :=
  json_text "{'type':'user','message':{'role':'user','content':"
  +:+ JSON_stringify_string content +:+ "}}".

(** Everything written to the input of child [h], in the order of the
    writes: each [Wrote] of the history is one
    [stdin.write(jsonMessage + '\n')]. *)
Fixpoint stdin_of (h : nat) (hist : list Obs) : string :=
  match hist with
  | [] => ""
  | Wrote h' _ content :: older =>
      if Nat.eqb h' h
      then stdin_of h older +:+ user_message content +:+ line_break
      else stdin_of h older
  | _ :: older => stdin_of h older
  end.

(** The prompts sent to child [h], oldest first. *)
Fixpoint prompts_of (h : nat) (hist : list Obs) : list string :=
  match hist with
  | [] => []
  | Wrote h' _ content :: older =>
      if Nat.eqb h' h then prompts_of h older ++ [content]
      else prompts_of h older
  | _ :: older => prompts_of h older
  end.

(** ** The statistics *)

(** What [getStats()] shows is coherent: no counter is negative, and the
    average is the rounded quotient of the total time by the number of
    completions (both are 0 before the first completion). *)
Definition stats_consistent (st : Stats) : Prop :=
  0 <= completions st /\ 0 <= errors st /\ 0 <= coldStarts st
  /\ avgTimeMs st
     = (if Z.eqb (completions st) 0 then 0
        else round_div (totalTimeMs st) (completions st))
  /\ (completions st = 0 -> totalTimeMs st = 0).

(** The statistics are coherent and [coldStarts] counts the children. *)
Definition counted (w : World) : Prop :=
  stats_consistent (stats (self w))
  /\ coldStarts (stats (self w)) = Z.of_nat (length (procs w)).

(** ** Vocabulary of the further properties *)


(** Call [c] is a [shutdown()] call of the host. *)
Definition shutdown_call (w : World) (c : nat) : Prop :=
  kind <$> calls w !! c = Some KShutdown.

(** Deadlines and signals are in order: every open turn has its timeout
    armed and every pending [shutdown()] its force-kill timer; the timers of
    a shutdown belong to [shutdown()] calls; a child was signalled, or its
    input ended, only if [shutdown()] was called. *)
Definition Orderly (w : World) : Prop :=
  (forall t, open_turn w t -> TurnTimer t ∈ timers w)
  /\ (forall c, shutdown_call w c -> promise_of c w = Some Pending ->
                ForceKillTimer c ∈ timers w)
  /\ (forall c, ForceKillTimer c ∈ timers w \/ SigtermTimer c ∈ timers w ->
                shutdown_call w c)
  /\ (forall o, In o (history w) ->
                match o with
                | Killed _ _ | Ended _ => exists c, shutdown_call w c
                | _ => True
                end).

(** An observation that is not a signal or the end of input. *)
Definition harmless (o : Obs) : Prop :=
  match o with Killed _ _ | Ended _ => False | _ => True end.

(** A timer that is not one of [shutdown()], nor the timeout of a turn. *)
Definition plain_timer (tm : Timer) : Prop :=
  match tm with WarmupTimer _ | PollTimer _ => True | _ => False end.

(** The API calls made so far are of the kinds [ks], in this order. *)
Definition Kinds (ks : list CallKind) (w : World) : Prop :=
  kind <$> calls w = ks.

(** No task of the run is a [shutdown()] call. *)
Definition host_never_shuts_down (tasks : list (Z * Event)) : Prop :=
  Forall (fun task => snd task <> CallShutdown) tasks.

(** No [initialize()] call waits on the [ready] and [error] events. *)
Definition Unheard (w : World) : Prop := readyOnce w = [] /\ errorOnce w = [].

(** Nothing of the machinery of the persistent mode has been touched. *)
Definition Inert (w : World) : Prop :=
  mode (self w) <> persistent
  /\ procs w = [] /\ turns w = [] /\ timers w = [] /\ history w = []
  /\ jobs w = [] /\ state (self w) = STOPPED /\ process (self w) = None
  /\ pendingPromise (self w) = None.

(** The message of the error [complete()] throws in mode [m]. *)
Definition unknown_mode_message (m : string) : string :=
  "Unknown mode: " +:+ m +:+ ". Supported modes: persistent, api".

(** How a call ends at once in a mode [m] that is neither [persistent] nor
    [api]. *)
Definition answered_in (m : string) (cl : Call) : Prop :=
  match kind cl with
  | KComplete _ => promise cl = Rejected (unknown_mode_message m)
  | KInitialize => promise cl = Resolved (Some (JBool true))
  | KShutdown => promise cl = Resolved None
  | KApi _ => False
  end.

Definition config_of_mode (m : string) : Config :=
  {| cfg_mode := Some m; cfg_timeout := None |}.

(** [c.type === 'text'], the test of [find] in the stateless mode. *)
Definition is_text_block (block : JSON) : bool :=
  is_type (prop block "type") "text".

Definition not_null (v : JSON) : bool :=
  match v with JNull => false | _ => true end.

(** Every child that was written to read the warmup first; a child whose
    input is writable has been written to; nothing was written to a child
    that does not exist. *)
Definition Greeted (w : World) : Prop :=
  (forall h, (length (procs w) <= h)%nat -> prompts_of h (history w) = [])
  /\ (forall h pr, procs w !! h = Some pr -> stdinWritable pr = true ->
                   prompts_of h (history w) <> [])
  /\ (forall h c, head (prompts_of h (history w)) = Some c -> c = "Hello").

(** An observation that is not a write. *)
Definition silent (o : Obs) : Prop :=
  match o with Wrote _ _ _ => False | _ => True end.

(** The provider is [BUSY] only while a turn is pending. *)
Definition Engaged (w : World) : Prop :=
  state (self w) = BUSY -> pendingPromise (self w) <> None.

(** ** A caller of [complete()]: [extractEntitiesAndFacts] of the server

    The server asks the provider for the entities and facts of a text and
    reads the answer with a regular expression and [JSON.parse]. *)

Definition blank_line : string := line_break +:+ line_break.

(** The system prompt; a context counts when it is a non-empty string. *)
Definition extraction_system_prompt (bankContext actionContext : option string)
  : string :=
  "You are an entity and fact extractor."
  +:+ match bankContext with
      | Some context =>
          if nonempty context
          then blank_line +:+ "DOMAIN CONTEXT: " +:+ context else ""
      | None => ""
      end
  +:+ match actionContext with
      | Some context =>
          if nonempty context
          then blank_line +:+ "CURRENT TASK CONTEXT: " +:+ context else ""
      | None => ""
      end
  +:+ blank_line
  +:+ "Given the above context (if any), extract from the text:" +:+ line_break
  +:+ "1. ENTITIES: Named items relevant to the domain (classes, functions, "
  +:+ "modules, files, UI elements, concepts)" +:+ line_break
  +:+ "2. FACTS: Key assertions or learnings that can be stated as short "
  +:+ "sentences" +:+ blank_line
  +:+ "Respond ONLY with valid JSON in this exact format:" +:+ line_break
  +:+ json_text "{'entities': ['Entity1', 'Entity2'], "
  +:+ json_text "'facts': ['Fact 1', 'Fact 2']}" +:+ blank_line
  +:+ "Keep entities as single words or short phrases. "
  +:+ "Keep facts concise (under 20 words each).".

Definition extraction_prompt (content : string) : string :=
  "Extract entities and facts from this content:" +:+ blank_line
  +:+ String dquote content +:+ String dquote "" +:+ blank_line
  +:+ "Respond with JSON only:".

(** What is left of a text from its first opening brace on. *)
Fixpoint from_first_brace (s : string) : option string :=
  match s with
  | EmptyString => None
  | String c rest =>
      if Ascii.eqb c "{" then Some s else from_first_brace rest
  end.

(** A text up to its last closing brace. *)
Fixpoint upto_last_brace (s : string) : option string :=
  match s with
  | EmptyString => None
  | String c rest =>
      match upto_last_brace rest with
      | Some kept => Some (String c kept)
      | None => if Ascii.eqb c "}" then Some (String c "") else None
      end
  end.

(** [response.match(/\{[\s\S]*\}/)]: the leftmost match starts at the first
    opening brace that a closing brace follows, which is the first opening
    brace if any is; the star is greedy and goes to the last closing
    brace. *)
Definition json_match (response : string) : option string :=
  from_first_brace response ≫= upto_last_brace.

(** [v?.length] for a value of [JSON.parse]. *)
Definition length_of (v : option JSON) : option JSON :=
  match v with
  | Some (JStr s) => Some (JNum (pretty (String.length s)))
  | Some (JArr items) => Some (JNum (pretty (length items)))
  | Some (JObj fields) => field "length" fields
  | _ => None
  end.

(** The text of [v?.length || 0] in the line the server logs; [None] is the
    [TypeError] of a value that cannot be converted. *)
Definition logged_count (v : option JSON) : option string :=
  js_or (length_of v) (Some (JNum "0")) ≫= to_string.

(** [v || []] *)
Definition or_empty (v : option JSON) : JSON :=
  match v with
  | Some x => if truthy x then x else JArr []
  | None => JArr []
  end.

Record Extraction := { entities : JSON; facts : JSON }.

Definition no_extraction : Extraction :=
  {| entities := JArr []; facts := JArr [] |}.

Section Extraction.

Variable JSON_parse : string -> option JSON.

(** What [extractEntitiesAndFacts] returns once the promise of
    [complete()] has the [outcome]; it has not returned while that promise
    is pending.  The [catch] turns every exception into empty lists: the
    rejection of the call, [response.match] of a value that is not a
    string, the [SyntaxError] of [JSON.parse], a property of [null]. *)
Definition extraction_of (outcome : Promise) : option Extraction :=
  match outcome with
  | Pending => None
  | Resolved (Some (JStr response)) =>
      match json_match response with
      | Some text =>
          match JSON_parse text with
          | Some JNull => Some no_extraction
          | Some parsed =>
              match logged_count (prop parsed "entities"),
                    logged_count (prop parsed "facts") with
              | Some _, Some _ =>
                  Some {| entities := or_empty (prop parsed "entities");
                          facts := or_empty (prop parsed "facts") |}
              | _, _ => Some no_extraction
              end
          | None => Some no_extraction
          end
      | None => Some no_extraction
      end
  | _ => Some no_extraction
  end.

End Extraction.

Fixpoint has_char (c : ascii) (s : string) : bool :=
  match s with
  | EmptyString => false
  | String x rest => Ascii.eqb x c || has_char c rest
  end.

(** A code unit [JSON.stringify] writes as itself or with a one-letter
    escape. *)
Definition plain_char (c : ascii) : bool :=
  match nat_of_ascii c with
  | 8 | 9 | 10 | 12 | 13 => true
  | n => (32 <=? n)%nat
  end%nat.

(** ** Chunks of output, as bytes

    A [data] event of the child's output carries a [Buffer], which
    [_handleStdout] reads with [data.toString()]: the UTF-8 decoding of that
    chunk alone.  The texts of this development hold code units below 256,
    so [Buffer_toString] gives the text of the chunks that decode to such
    code units only: bytes below 0x80, and the two-byte sequences from
    [C2 80] to [C3 BF].  Any other chunk decodes to a text with a code unit
    from 256 on, or with U+FFFD (for a byte that starts no character, and
    for a character cut short by the end of the chunk); these texts do not
    hold it: [None]. *)
Fixpoint Buffer_toString (data : list Byte.byte) : option string :=
  match data with
  | [] => Some ""
  | b :: rest =>
      let n := Byte.to_N b in
      if (n <? 128)%N then String (ascii_of_N n) <$> Buffer_toString rest
      else if ((n =? 194) || (n =? 195))%N then
        match rest with
        | c :: rest' =>
            let m := Byte.to_N c in
            if ((128 <=? m) && (m <? 192))%N
            then String (ascii_of_N ((n - 192) * 64 + (m - 128)))
                   <$> Buffer_toString rest'
            else None
        | [] => None
        end
      else None
  end.

(** The task of a [data] event of child [h] with the chunk [data], where
    the chunk has a text. *)
Definition on_data (parse : string -> option JSON) (now : Z) (h : nat)
  (data : list Byte.byte) (w : World) : option World :=
  (fun text => step parse now (StdoutData h text) w) <$> Buffer_toString data.

(** The turns the statistics have seen end: with a result, or with an
    error message. *)
Definition turns_ended (w : World) : Z :=
  completions (stats (self w)) + errors (stats (self w)).

(** The tasks that bring no output of a child. *)
Definition no_output (ev : Event) : bool :=
  match ev with
  | StdoutData _ _ => false
  | _ => true
  end.

(** * Properties *)

(** ** What the primitives leave alone *)

Lemma settle_turn_self t r w : self (settle_turn t r w) = self w.
Proof.
  unfold settle_turn. destruct (turns w !! t) as [tr|]; [|done].
  by destruct (outcome tr).
Qed.

Lemma settle_call_self c r w : self (settle_call c r w) = self w.
Proof.
  unfold settle_call. destruct (calls w !! c) as [cl|]; [|done].
  by destruct (promise cl).
Qed.

Lemma pending_resolve_self p v w : self (pending_resolve p v w) = self w.
Proof. unfold pending_resolve. by rewrite settle_turn_self. Qed.

Lemma pending_reject_self p e w : self (pending_reject p e w) = self w.
Proof. unfold pending_reject. by rewrite settle_turn_self. Qed.

Lemma append_blocks_buffer blocks w :
  stdoutBuffer (self (world_of (append_blocks blocks w)))
  = stdoutBuffer (self w).
Proof.
  revert w. induction blocks as [|b bs IH]; intros w; [done|].
  simpl. destruct b; try done;
    repeat (case_match; try done); rewrite IH; unfold append_response;
    by destruct (pendingPromise (self w)).
Qed.

Lemma handleMessage_buffer now msg w :
  stdoutBuffer (self (world_of (_handleMessage now msg w)))
  = stdoutBuffer (self w).
Proof.
  unfold _handleMessage.
  destruct (pendingPromise (self w)) as [p|]; [|done].
  destruct msg; try done;
    repeat (case_match; try done); simpl;
    rewrite ?append_blocks_buffer, ?pending_resolve_self,
      ?pending_reject_self; done.
Qed.

Lemma deliver_buffer now msgs w :
  stdoutBuffer (self (deliver now msgs w)) = stdoutBuffer (self w).
Proof.
  revert w. induction msgs as [|m ms IH]; intros w; [done|].
  simpl. fold (deliver now ms). by rewrite IH, handleMessage_buffer.
Qed.

(** ** Lines of the stream buffer *)

Lemma split_whole s : no_newline s = true -> split s = [s].
Proof.
  induction s as [|c s IH]; [done|]. simpl.
  destruct (Ascii.eqb c newline); [done|]. simpl. intros H.
  by rewrite (IH H).
Qed.

Lemma split_line l s :
  no_newline l = true -> split (l +:+ line_break +:+ s) = l :: split s.
Proof.
  induction l as [|c l IH]; simpl.
  - intros _. unfold newline. done.
  - destruct (Ascii.eqb c newline) eqn:E; [done|]. simpl. intros H.
    by rewrite (IH H).
Qed.

Lemma split_unlines lines rest :
  forallb no_newline lines = true -> no_newline rest = true ->
  split (unlines lines rest) = lines ++ [rest].
Proof.
  intros Hl Hr. induction lines as [|l ls IH]; simpl in *.
  - by apply split_whole.
  - apply andb_prop in Hl as [H1 H2]. by rewrite split_line, IH.
Qed.

Lemma last_snoc {A} (l : list A) (x d : A) : List.last (l ++ [x]) d = x.
Proof. induction l as [|a [|b l] IH]; done. Qed.

Lemma removelast_snoc {A} (l : list A) (x : A) : removelast (l ++ [x]) = l.
Proof.
  induction l as [|a l IH]; [done|]. simpl.
  destruct (l ++ [x]) eqn:E; [by destruct l|]. by rewrite <- IH.
Qed.

Lemma handle_lines_deliver parse now lines w :
  fold_left (handle_line parse now) lines w
  = deliver now (omap (decode_line parse) lines) w.
Proof.
  revert w. induction lines as [|l ls IH]; intros w; [done|].
  simpl. rewrite IH. unfold handle_line, decode_line.
  destruct (nonempty (trim l)); [|done].
  by destruct (parse (trim l)).
Qed.

(** *** What trimming removes *)

Lemma strippable_is_space c : strippable c = is_space c.
Proof. destruct c as [[] [] [] [] [] [] [] []]; vm_compute; reflexivity. Qed.

Lemma trim_start_blank s x :
  blank s = true -> trim_start (s +:+ x) = trim_start x.
Proof.
  induction s as [|c s IH]; [done|]. simpl.
  intros [Hc Hs]%andb_prop. rewrite <- strippable_is_space, Hc. by apply IH.
Qed.

Lemma trim_start_only_blank s : blank s = true -> trim_start s = "".
Proof.
  induction s as [|c s IH]; [done|]. simpl.
  intros [Hc Hs]%andb_prop. rewrite <- strippable_is_space, Hc. by apply IH.
Qed.

Lemma trim_end_only_blank s : blank s = true -> trim_end s = "".
Proof.
  induction s as [|c s IH]; [done|]. simpl.
  intros [Hc Hs]%andb_prop. by rewrite (IH Hs), <- strippable_is_space, Hc.
Qed.

Lemma trim_end_blank s x :
  blank s = true -> trim_end (x +:+ s) = trim_end x.
Proof.
  intros Hs. induction x as [|c x IH].
  - by apply trim_end_only_blank.
  - simpl. by rewrite IH.
Qed.

Lemma trim_end_tight s c :
  strippable (last_unit c s) = false -> trim_end (String c s) = String c s.
Proof.
  revert c. induction s as [|c' s IH]; intros c H.
  - simpl in *. by rewrite <- strippable_is_space, H.
  - change (trim_end (String c (String c' s)))
      with (match trim_end (String c' s) with
            | EmptyString => if is_space c then "" else String c ""
            | kept => String c kept
            end).
    by rewrite (IH c' H).
Qed.

(** [trim] gives the core of a framed line, whatever white space is around
    it. *)
Lemma trim_framed f : framed f = true -> trim (line_of f) = core f.
Proof.
  unfold framed, line_of, trim.
  intros [[[Hb Ht]%andb_prop Ha]%andb_prop _]%andb_prop.
  rewrite trim_start_blank by done.
  destruct (core f) as [|c s].
  - simpl. by rewrite trim_start_only_blank.
  - simpl in Ht. apply andb_prop in Ht as [H1 H2].
    apply negb_true_iff in H1, H2.
    change (String c s +:+ after f) with (String c (s +:+ after f)).
    simpl. rewrite <- strippable_is_space, H1.
    change (String c (s +:+ after f)) with (String c s +:+ after f).
    rewrite trim_end_blank by done. by apply trim_end_tight.
Qed.

Lemma decode_line_framed parse f :
  framed f = true -> decode_line parse (line_of f) = decode_core parse f.
Proof.
  intros Hf. unfold decode_line, decode_core, nonempty.
  rewrite (trim_framed f Hf). by destruct (String.eqb (core f) "").
Qed.

Lemma decode_lines_framed parse lines :
  forallb framed lines = true ->
  omap (decode_line parse) (map line_of lines)
  = omap (decode_core parse) lines.
Proof.
  induction lines as [|f fs IH]; [done|]. simpl.
  intros [Hf Hfs]%andb_prop. cbn [omap list_omap].
  rewrite (decode_line_framed parse f Hf).
  fold (omap (decode_line parse) (map line_of fs)). rewrite (IH Hfs).
  reflexivity.
Qed.

Lemma framed_no_newline lines :
  forallb framed lines = true ->
  forallb no_newline (map line_of lines) = true.
Proof.
  induction lines as [|f fs IH]; [done|]. simpl.
  intros [Hf Hfs]%andb_prop. rewrite (IH Hfs), andb_true_r.
  unfold framed in Hf. by apply andb_prop in Hf as [_ Hf].
Qed.

(** [C3] However the output of the child is cut into chunks: when the
    buffer followed by the new data reads as complete [lines] (each ended
    by a newline) and an unterminated [rest], [_handleStdout] hands
    [_handleMessage] exactly the messages the lines give, in order, and
    keeps [rest], unchanged, as the buffer for the next append.  A line is
    trimmed: with the white space before and after its core removed, the
    core is what [JSON.parse] reads; a line with an empty core, or one
    whose core [JSON.parse] rejects, gives no message and nothing is
    thrown. *)
Theorem stdout_lines_decoded_rest_kept
  (parse : string -> option JSON) (now : Z) (data : string) (w : World)
  (lines : list Framed) (rest : string) :
  forallb framed lines = true ->
  no_newline rest = true ->
  stdoutBuffer (self w) +:+ data = unlines (map line_of lines) rest ->
  _handleStdout parse now data w
  = deliver now (omap (decode_core parse) lines) (set_stdoutBuffer rest w)
  /\ stdoutBuffer (self (_handleStdout parse now data w)) = rest
  /\ (length (omap (decode_core parse) lines) <= length lines)%nat.
Proof.
  intros Hl Hr Heq.
  assert (E : _handleStdout parse now data w
    = deliver now (omap (decode_core parse) lines) (set_stdoutBuffer rest w)).
  { unfold _handleStdout.
    rewrite Heq, split_unlines by (done || by apply framed_no_newline).
    rewrite last_snoc, removelast_snoc, handle_lines_deliver.
    by rewrite decode_lines_framed. }
  split; [exact E|]. split.
  - by rewrite E, deliver_buffer.
  - clear. induction lines as [|l ls IH]; [done|].
    cbn [omap list_omap]. destruct (decode_core parse l); simpl; lia.
Qed.

(** Every text reads as complete lines and an unterminated rest, so the
    theorem above speaks of every chunk of output. *)
Lemma every_text_has_lines (s : string) :
  exists lines rest,
    s = unlines lines rest
    /\ forallb no_newline lines = true /\ no_newline rest = true.
Proof.
  induction s as [|c s (lines & rest & E & Hl & Hr)].
  - by exists [], "".
  - destruct (Ascii.eqb c newline) eqn:Hc.
    + apply Ascii.eqb_eq in Hc as ->.
      exists ("" :: lines), rest. split_and!; [|done..].
      simpl. by rewrite E.
    + destruct lines as [|l ls].
      * exists [], (String c rest). simpl in *. rewrite Hc, E. by split_and!.
      * exists (String c l :: ls), rest. simpl in *. rewrite Hc, E.
        by split_and!.
Qed.

(** Every line is framed, by the white space it starts with, the white
    space it ends with and what is in between: the theorem speaks of every
    line. *)
Lemma trim_start_frame s :
  exists b, blank b = true /\ s = b +:+ trim_start s
            /\ match trim_start s with
               | EmptyString => True
               | String c _ => strippable c = false
               end.
Proof.
  induction s as [|c s (b & Hb & E & H)]; [by exists ""|].
  simpl. destruct (is_space c) eqn:Hc.
  - exists (String c b). simpl. rewrite strippable_is_space, Hc, Hb.
    split_and!; [done| |done].
    change (String c s = String c (b +:+ trim_start s)). by rewrite <- E.
  - exists "". by rewrite strippable_is_space.
Qed.

Lemma trim_end_frame s :
  exists a, blank a = true /\ s = trim_end s +:+ a
            /\ match trim_end s with
               | EmptyString => True
               | String c r => strippable (last_unit c r) = false
               end.
Proof.
  induction s as [|c s (a & Ha & E & H)]; [by exists ""|].
  simpl. destruct (trim_end s) as [|c' kept] eqn:Ht.
  - simpl in E. subst s. destruct (is_space c) eqn:Hc.
    + exists (String c a). simpl. by rewrite strippable_is_space, Hc, Ha.
    + exists a. simpl. by rewrite strippable_is_space.
  - exists a. split_and!; [done| |done].
    change (String c s = String c (String c' kept +:+ a)). by rewrite <- E.
Qed.

Lemma trim_end_head c s :
  strippable c = false -> exists r, trim_end (String c s) = String c r.
Proof.
  intros Hc. simpl. rewrite <- strippable_is_space, Hc.
  destruct (trim_end s); by eexists.
Qed.

Lemma every_line_is_framed (line : string) :
  no_newline line = true ->
  exists f, line_of f = line /\ framed f = true.
Proof.
  intros Hn.
  destruct (trim_start_frame line) as (b & Hb & Eb & Hs).
  destruct (trim_end_frame (trim_start line)) as (a & Ha & Ea & He).
  exists {| before := b; core := trim line; after := a |}.
  assert (E : b +:+ trim line +:+ a = line).
  { unfold trim. by rewrite <- Ea, <- Eb. }
  unfold framed, line_of. simpl. rewrite E, Hb, Ha, Hn. split; [done|].
  rewrite !andb_true_r. simpl. unfold trim in *.
  destruct (trim_start line) as [|c0 r0]; [done|].
  destruct (trim_end_head c0 r0 Hs) as (r & Er). rewrite Er in *.
  simpl. by rewrite Hs, He.
Qed.

Example sample_parse_result :
  sample_parse (json_text "{'type':'result','result':'ok'}")
  = Some (result_msg "ok").
Proof. reflexivity. Qed.

Example sample_parse_fragment :
  decode_line sample_parse (fragment_line "Hi ") = Some (fragment_msg "Hi ").
Proof. reflexivity. Qed.

Example sample_parse_partial :
  sample_parse (json_text "{'type':'result'") = None.
Proof. reflexivity. Qed.

(** The input of the specification, with the line indented and ended by a
    carriage return before its newline: one message, the partial line
    kept. *)
Lemma stdout_lines_decoded_rest_kept_witness :
  let line := {| before := "  ";
                 core := json_text "{'type':'result','result':'ok'}";
                 after := String "013" "" |} in
  let rest := json_text "{'type':'result'" in
  let data := line_of line +:+ line_break +:+ rest in
  forallb framed [line] = true
  /\ no_newline rest = true
  /\ stdoutBuffer (self busy) +:+ data = unlines (map line_of [line]) rest
  /\ omap (decode_core sample_parse) [line] = [result_msg "ok"]
  /\ _handleStdout sample_parse 1500 data busy
     = deliver 1500 (omap (decode_core sample_parse) [line])
         (set_stdoutBuffer rest busy)
  /\ stdoutBuffer (self (_handleStdout sample_parse 1500 data busy)) = rest
  /\ (length (omap (decode_core sample_parse) [line]) <= length [line])%nat.
Proof.
  intros line rest data.
  assert (H1 : forallb framed [line] = true) by (vm_compute; reflexivity).
  assert (H2 : no_newline rest = true) by (vm_compute; reflexivity).
  assert (H3 : stdoutBuffer (self busy) +:+ data
               = unlines (map line_of [line]) rest)
    by (vm_compute; reflexivity).
  split; [exact H1|]. split; [exact H2|]. split; [exact H3|].
  split; [vm_compute; reflexivity|].
  exact (stdout_lines_decoded_rest_kept sample_parse 1500 data busy [line]
           rest H1 H2 H3).
Defined.

(** The partial line is decoded once a later append completes it. *)
Example partial_line_completed :
  let w1 := step sample_parse 1500
              (StdoutData 0 (fragment_line "a"
                             +:+ json_text "{'type':'result'")) busy in
  let w2 := step sample_parse 1600
              (StdoutData 0 (json_text ",'result':'b'}" +:+ line_break)) w1 in
  stdoutBuffer (self w1) = json_text "{'type':'result'"
  /\ promise_of 1 w1 = Some Pending
  /\ stdoutBuffer (self w2) = ""
  /\ promise_of 1 w2 = Some (Resolved (Some (JStr "a"))).
Proof. vm_compute. done. Qed.

(** ** Fragments, result and error of a turn *)

Lemma string_app_nil_r (s : string) : s +:+ "" = s.
Proof.
  induction s as [|c s IH]; [done|].
  change (String c (s +:+ "") = String c s). by rewrite IH.
Qed.

Lemma string_app_assoc (a b c : string) : (a +:+ b) +:+ c = a +:+ (b +:+ c).
Proof.
  induction a as [|x a IH]; [done|].
  change (String x ((a +:+ b) +:+ c) = String x (a +:+ (b +:+ c))).
  by rewrite IH.
Qed.

Lemma accumulate_nothing p w :
  pendingPromise (self w) = Some p -> accumulate p "" w = w.
Proof.
  intros H. unfold accumulate. rewrite string_app_nil_r.
  change (set_pendingPromise (Some p) w = w). by rewrite <- H.
Qed.

Lemma append_blocks_readable blocks : forall w p,
  pendingPromise (self w) = Some p ->
  forallb readable_block blocks = true ->
  append_blocks blocks w = Normal (accumulate p (blocks_text blocks) w).
Proof.
  induction blocks as [|b bs IH]; intros w p Hp Hb.
  - simpl. by rewrite accumulate_nothing.
  - simpl in Hb. apply andb_prop in Hb as [Hb Hbs].
    assert (Hstep : append_blocks (b :: bs) w
      = append_blocks bs (accumulate p (block_text b) w)).
    { unfold readable_block, block_text in *. simpl.
      destruct b; try done;
        (destruct (is_type _ "text" && truthy_opt _);
         [ destruct (_ ≫= to_string) as [text|]; [|done]; simpl;
           unfold append_response; by rewrite Hp
         | by rewrite accumulate_nothing ]). }
    rewrite Hstep.
    rewrite (IH _ {| turn := turn p; response := response p +:+ block_text b;
                     startTime := startTime p |}) by done.
    unfold accumulate. simpl. by rewrite string_app_assoc.
Qed.

Lemma handleMessage_fragment now msg w p :
  pendingPromise (self w) = Some p ->
  assistant_fragment msg = true ->
  world_of (_handleMessage now msg w) = accumulate p (fragment_text msg) w.
Proof.
  intros Hp Hm. unfold assistant_fragment in Hm.
  apply andb_prop in Hm as [Ht Hc].
  unfold _handleMessage, fragment_text. rewrite Hp.
  assert (msg <> JNull) by (intros ->; done).
  destruct msg; try done; rewrite Ht;
    (destruct (opt_prop _ "content") as [content|];
     [|by rewrite accumulate_nothing]);
    destruct content; simpl;
      rewrite ?accumulate_nothing by done; try done;
      try (by case_match; simpl; rewrite ?accumulate_nothing);
      by erewrite append_blocks_readable.
Qed.

Lemma deliver_fragments now frags : forall w p,
  pendingPromise (self w) = Some p ->
  forallb assistant_fragment frags = true ->
  deliver now frags w = accumulate p (fragments_text frags) w.
Proof.
  induction frags as [|m ms IH]; intros w p Hp Hf.
  - simpl. by rewrite accumulate_nothing.
  - simpl in Hf. apply andb_prop in Hf as [Hm Hms]. simpl.
    fold (deliver now ms). rewrite (handleMessage_fragment _ _ _ p) by done.
    rewrite (IH _ {| turn := turn p;
                     response := response p +:+ fragment_text m;
                     startTime := startTime p |}) by done.
    unfold accumulate. simpl. by rewrite string_app_assoc.
Qed.

Lemma deliver_app now ms1 ms2 w :
  deliver now (ms1 ++ ms2) w = deliver now ms2 (deliver now ms1 w).
Proof. unfold deliver. by rewrite fold_left_app. Qed.

Lemma settle_turn_pending t tr r w :
  turns w !! t = Some tr -> outcome tr = Pending ->
  settle_turn t r w
  = observe (Settled t)
      (set_jobs (jobs w ++ [t])
         (set_turns (<[t := {| owner := owner tr; outcome := r |}]> (turns w))
            w)).
Proof. intros H1 H2. unfold settle_turn. by rewrite H1, H2. Qed.

(** [C2] While a turn is open, [assistant] fragments followed by one
    [result] message resolve the promise of the turn with what the turn had
    accumulated followed by the texts of the fragments' text blocks in
    arrival order (just the latter for a turn whose accumulator was still
    empty, as [_sendMessage] leaves it), or, when that is the empty string,
    with the result payload's own text; the pending turn is cleared and the
    state is [READY]. *)
Theorem fragments_then_result_resolve
  (now : Z) (w : World) (p : PendingPromise) (tr : Turn)
  (frags : list JSON) (res : JSON) :
  pendingPromise (self w) = Some p ->
  turns w !! turn p = Some tr ->
  outcome tr = Pending ->
  forallb assistant_fragment frags = true ->
  turn_result res = true ->
  let w' := deliver now (frags ++ [res]) w in
  let text := response p +:+ fragments_text frags in
  outcome_of (turn p) w'
  = Some (Resolved (Some (if nonempty text then JStr text
                          else result_text res)))
  /\ state (self w') = READY
  /\ pendingPromise (self w') = None.
Proof.
  intros Hp Ht Ho Hf Hr w' text. subst w'.
  rewrite deliver_app, (deliver_fragments now frags w p) by done.
  unfold turn_result in Hr. simpl.
  unfold _handleMessage, accumulate. simpl.
  assert (res <> JNull) by (intros ->; done).
  assert (Ha : is_type (prop res "type") "assistant" = false).
  { unfold is_type in *. destruct (prop res "type") as [[]|]; try done.
    apply String.eqb_eq in Hr as ->. done. }
  destruct res; try done; rewrite Ha, Hr; simpl.
  split; [|done]. unfold pending_resolve, outcome_of. simpl.
  rewrite (settle_turn_pending _ tr) by done. simpl.
  rewrite list_lookup_insert_eq by (by eapply lookup_lt_Some). done.
Qed.

Lemma fragments_then_result_resolve_witness :
  let w := busy in
  let p := {| turn := 1; response := ""; startTime := 1000 |} in
  let frags := [fragment_msg "Hi "; fragment_msg "there"] in
  let res := result_msg "" in
  pendingPromise (self w) = Some p
  /\ forallb assistant_fragment frags = true
  /\ turn_result res = true
  /\ outcome_of 1 (deliver 1300 (frags ++ [res]) w)
     = Some (Resolved (Some (JStr "Hi there")))
  /\ state (self (deliver 1300 (frags ++ [res]) w)) = READY
  /\ pendingPromise (self (deliver 1300 (frags ++ [res]) w)) = None.
Proof.
  do 3 (split; [reflexivity|]).
  exact (fragments_then_result_resolve 1300 busy
           {| turn := 1; response := ""; startTime := 1000 |}
           {| owner := Caller 1; outcome := Pending |}
           [fragment_msg "Hi "; fragment_msg "there"] (result_msg "")
           eq_refl eq_refl eq_refl eq_refl eq_refl).
Defined.

(** The scenario of the specification: two fragments and an empty result. *)
Example hi_there :
  let w := run sample_parse busy
             [(1100, StdoutData 0 (fragment_line "Hi "));
              (1200, StdoutData 0 (fragment_line "there"));
              (1300, StdoutData 0 (result_line ""))] in
  promise_of 1 w = Some (Resolved (Some (JStr "Hi there")))
  /\ state (self w) = READY.
Proof. vm_compute. done. Qed.

(** ** What reactions and timers never touch *)

Lemma fixed_stats w w' : fixed w' = fixed w -> stats (self w') = stats (self w).
Proof. unfold fixed. congruence. Qed.

Lemma fixed_process w w' :
  fixed w' = fixed w -> process (self w') = process (self w).
Proof. unfold fixed. congruence. Qed.

Lemma fixed_children w w' :
  fixed w' = fixed w -> length (procs w') = length (procs w).
Proof. unfold fixed. congruence. Qed.

Lemma fold_left_invariant {A B} (P : A -> Prop) (f : A -> B -> A) l a :
  (forall a b, P a -> P (f a b)) -> P a -> P (fold_left f l a).
Proof. intros Hf. revert a. induction l; simpl; auto. Qed.

Lemma settle_calls_self cs r w : self (settle_calls cs r w) = self w.
Proof.
  unfold settle_calls.
  apply (fold_left_invariant (fun w' => self w' = self w)); [|done].
  intros a b <-. apply settle_call_self.
Qed.

Lemma emit_ready_self w : self (emit_ready w) = self w.
Proof. unfold emit_ready. simpl. apply settle_calls_self. Qed.

Lemma kill_self h sig w : self (kill h sig w) = self w.
Proof. unfold kill. by repeat case_match. Qed.

Ltac frame :=
  repeat (progress (simpl;
    rewrite ?settle_turn_self, ?settle_call_self, ?settle_calls_self,
      ?emit_ready_self, ?kill_self, ?pending_reject_self,
      ?pending_resolve_self)).

Lemma settle_call_procs c r w : procs (settle_call c r w) = procs w.
Proof. unfold settle_call. by repeat case_match. Qed.

Lemma settle_calls_procs cs r w : procs (settle_calls cs r w) = procs w.
Proof.
  unfold settle_calls.
  apply (fold_left_invariant (fun w' => procs w' = procs w)); [|done].
  intros a b <-. apply settle_call_procs.
Qed.

Lemma settle_call_fixed c r w : fixed (settle_call c r w) = fixed w.
Proof. unfold fixed. by rewrite settle_call_self, settle_call_procs. Qed.

Lemma sendMessage_fixed now who content w :
  fixed (_sendMessage now who content w) = fixed w.
Proof. unfold _sendMessage. by case_match. Qed.

Lemma persistentComplete_woken_fixed now c prompt w :
  fixed (_persistentComplete_woken now c prompt w) = fixed w.
Proof.
  unfold _persistentComplete_woken.
  case_match; rewrite ?settle_call_fixed, ?sendMessage_fixed; done.
Qed.

Lemma persistentComplete_initialized_fixed now c prompt w :
  fixed (_persistentComplete_initialized now c prompt w) = fixed w.
Proof.
  unfold _persistentComplete_initialized.
  case_match; rewrite ?persistentComplete_woken_fixed; done.
Qed.

Lemma resume_initialize_fixed now c r w :
  fixed (resume_initialize now c r w) = fixed w.
Proof.
  unfold resume_initialize.
  repeat case_match;
    rewrite ?settle_call_fixed, ?persistentComplete_initialized_fixed; done.
Qed.

Lemma settle_init_fixed now h r w : fixed (settle_init now h r w) = fixed w.
Proof.
  unfold settle_init. repeat case_match; try done;
    rewrite resume_initialize_fixed; unfold fixed; simpl;
    by rewrite length_insert.
Qed.

Lemma react_fixed now t w : fixed (react now t w) = fixed w.
Proof.
  unfold react, warmup_then, warmup_catch.
  repeat case_match; try done;
    rewrite ?settle_init_fixed, ?settle_call_fixed; unfold fixed, emit_ready;
    simpl; by rewrite ?settle_calls_self, ?settle_calls_procs.
Qed.

Lemma run_jobs_fixed now w : fixed (run_jobs now w) = fixed w.
Proof.
  unfold run_jobs.
  apply (fold_left_invariant (fun w' => fixed w' = fixed w)); [|done].
  intros a b <-. apply react_fixed.
Qed.

Lemma drain_fixed now w : fixed (drain now w) = fixed w.
Proof. unfold drain. by rewrite !run_jobs_fixed. Qed.

Lemma drain_stats now w : stats (self (drain now w)) = stats (self w).
Proof. apply fixed_stats, drain_fixed. Qed.

Lemma fire_errors now tm w :
  errors (stats (self (fire now tm w))) = errors (stats (self w)).
Proof.
  unfold fire. destruct (armed tm w); [|done].
  destruct tm; simpl; repeat case_match;
    rewrite ?(fixed_stats _ _ (settle_init_fixed _ _ _ _)),
      ?(fixed_stats _ _ (persistentComplete_woken_fixed _ _ _ _)); by frame.
Qed.

Lemma startPersistentProcess_errors now c sp w :
  errors (stats (self (_startPersistentProcess now c sp w)))
  = errors (stats (self w)).
Proof.
  unfold _startPersistentProcess.
  by rewrite (fixed_stats _ _ (sendMessage_fixed _ _ _ _)).
Qed.

Lemma initialize_errors now c sp w :
  errors (stats (self (initialize now c sp w))) = errors (stats (self w)).
Proof.
  unfold initialize.
  repeat case_match;
    rewrite ?(fixed_stats _ _ (resume_initialize_fixed _ _ _ _)),
      ?startPersistentProcess_errors; done.
Qed.

Lemma complete_errors now prompt sys sp w :
  errors (stats (self (complete now prompt sys sp w)))
  = errors (stats (self w)).
Proof.
  unfold complete, _persistentComplete.
  repeat case_match;
    rewrite ?settle_call_self, ?initialize_errors,
      ?(fixed_stats _ _ (persistentComplete_initialized_fixed _ _ _ _)); done.
Qed.

Lemma shutdown_self w : self (shutdown w) = self w.
Proof.
  unfold shutdown, on_stdin_closed. simpl.
  repeat (case_match; simpl); rewrite ?settle_call_self; done.
Qed.

Lemma on_exit_stats h w : stats (self (on_exit h w)) = stats (self w).
Proof.
  unfold on_exit. repeat case_match; try done;
    (apply (fold_left_invariant
              (fun w' => stats (self w') = stats (self w)));
     [ intros a b <-; unfold shutdown_on_exit; by frame | by frame ]).
Qed.

Lemma on_error_stats now h e w :
  stats (self (on_error now h e w)) = stats (self w).
Proof.
  unfold on_error. repeat case_match; try done;
    rewrite (fixed_stats _ _ (settle_init_fixed _ _ _ _)); by frame.
Qed.

Lemma on_stdin_closed_self h w : self (on_stdin_closed h w) = self w.
Proof. unfold on_stdin_closed. by case_match. Qed.

Lemma append_blocks_stats blocks : forall w,
  stats (self (world_of (append_blocks blocks w))) = stats (self w).
Proof.
  induction blocks as [|b bs IH]; intros w; [done|].
  simpl. destruct b; try done; repeat (case_match; try done);
    rewrite IH; unfold append_response; by destruct (pendingPromise (self w)).
Qed.

Lemma handleMessage_errors now msg w :
  turn_error msg = false ->
  errors (stats (self (world_of (_handleMessage now msg w))))
  = errors (stats (self w)).
Proof.
  unfold turn_error, _handleMessage. intros He.
  destruct (pendingPromise (self w)) as [p|]; [|done].
  destruct msg; try done; rewrite He;
    repeat (case_match; try done); simpl;
    rewrite ?append_blocks_stats, ?pending_resolve_self; done.
Qed.

Lemma anthropicAPI_errors now c r w :
  match r with
  | ApiNoClient _ => True
  | ApiMessage content => find_text content <> None
  | ApiFailure _ => False
  end ->
  errors (stats (self (_anthropicAPI now c r w))) = errors (stats (self w)).
Proof.
  unfold _anthropicAPI. intros Hr.
  repeat (case_match; try done); by rewrite settle_call_self.
Qed.

(** [C10] A turn's timeout leaves every counter of the statistics as it
    was, through the callback and the reactions that follow it.  The error
    counter moves only in a task that brings output of the child or the
    outcome of a call of the remote API: no API call, no exit or error of a
    child and no timer moves it.  Of the messages of the child only a
    [turn-error] moves it, and of the outcomes of the remote API only a
    failure (a rejected request, or a reply whose content cannot be
    read). *)
Theorem timeout_leaves_statistics
  (parse : string -> option JSON) (now : Z) (w : World) :
  (forall t, stats (self (step parse now (TimerFires (TurnTimer t)) w))
             = stats (self w))
  /\ (forall ev,
        errors (stats (self (step parse now ev w))) = errors (stats (self w))
        \/ (exists h data, ev = StdoutData h data)
        \/ (exists c r, ev = ApiReply c r))
  /\ (forall msg,
        turn_error msg = false ->
        errors (stats (self (world_of (_handleMessage now msg w))))
        = errors (stats (self w)))
  /\ (forall c r,
        match r with
        | ApiNoClient _ => True
        | ApiMessage content => find_text content <> None
        | ApiFailure _ => False
        end ->
        errors (stats (self (step parse now (ApiReply c r) w)))
        = errors (stats (self w))).
Proof.
  split_and!.
  - intros t. unfold step. rewrite drain_stats. simpl. unfold fire.
    destruct (armed _ w); [|done]. simpl. by rewrite settle_turn_self.
  - intros ev. unfold step. rewrite drain_stats.
    destruct ev; simpl; eauto; left.
    + apply complete_errors.
    + unfold call_initialize. by rewrite initialize_errors.
    + by rewrite shutdown_self.
    + by rewrite on_exit_stats.
    + by rewrite on_error_stats.
    + by rewrite on_stdin_closed_self.
    + apply fire_errors.
  - intros msg. apply handleMessage_errors.
  - intros c r Hr. unfold step. rewrite drain_stats. simpl.
    by apply anthropicAPI_errors.
Qed.

Lemma timeout_leaves_statistics_witness :
  stats (self (step sample_parse 121000 (TimerFires (TurnTimer 1)) busy))
  = stats (self busy)
  /\ turn_error (fragment_msg "late") = false
  /\ errors (stats (self (world_of
                            (_handleMessage 121000 (fragment_msg "late") busy))))
     = errors (stats (self busy)).
Proof.
  pose proof (timeout_leaves_statistics sample_parse 121000 busy)
    as (H1 & _ & H3 & _).
  split; [exact (H1 1%nat)|]. split; [reflexivity|].
  exact (H3 (fragment_msg "late") eq_refl).
Defined.

(** ** The reactions of a task *)

Lemma run_jobs_idle now w : jobs w = [] -> run_jobs now w = w.
Proof. intros H. unfold run_jobs. rewrite H. simpl. by rewrite <- H. Qed.

(** The reactions to a single settled turn that a [complete()] call owns:
    the call's promise takes the outcome of the turn. *)
Lemma drain_caller_turn now w t c r :
  jobs w = [t] ->
  turns w !! t = Some {| owner := Caller c; outcome := r |} ->
  is_settled r = true ->
  drain now w = settle_call c r (set_jobs [] w).
Proof.
  intros Hj Ht Hr. unfold drain.
  assert (E : run_jobs now w = settle_call c r (set_jobs [] w)).
  { unfold run_jobs. rewrite Hj. simpl. unfold react. simpl. rewrite Ht.
    simpl. by destruct r. }
  rewrite E. apply run_jobs_idle.
  unfold settle_call. simpl. by repeat case_match.
Qed.

Lemma settle_call_pending c cl r w :
  calls w !! c = Some cl -> promise cl = Pending ->
  settle_call c r w
  = set_calls (<[c := {| kind := kind cl; promise := r |}]> (calls w)) w.
Proof. intros H1 H2. unfold settle_call. by rewrite H1, H2. Qed.



(** ** Timeout of a turn *)

(** [C6] When the timeout of an open turn fires, the callback rejects the
    promise of the turn with the timeout error, clears the pending turn and
    sets the state to [READY]; it sends no signal (the history gains the
    settling of the turn and nothing else) and keeps the child and its
    handle.  When the turn belongs to a [complete()] call, the reactions of
    the task reject that call's promise and change none of this. *)
Theorem turn_timeout_rejects_without_kill
  (now : Z) (w : World) (t : nat) (tr : Turn) :
  jobs w = [] ->
  armed (TurnTimer t) w = true ->
  turns w !! t = Some tr ->
  outcome tr = Pending ->
  let w1 := fire now (TurnTimer t) w in
  outcome_of t w1 = Some (Rejected (timeout_message w))
  /\ pendingPromise (self w1) = None
  /\ state (self w1) = READY
  /\ process (self w1) = process (self w)
  /\ procs w1 = procs w
  /\ history w1 = Settled t :: history w
  /\ forall c k,
       owner tr = Caller c ->
       calls w !! c = Some {| kind := k; promise := Pending |} ->
       let w2 := drain now w1 in
       promise_of c w2 = Some (Rejected (timeout_message w))
       /\ pendingPromise (self w2) = None
       /\ state (self w2) = READY
       /\ process (self w2) = process (self w)
       /\ procs w2 = procs w
       /\ history w2 = Settled t :: history w.
Proof.
  intros Hj Ha Ht Ho w1.
  assert (Hlt : (t < length (turns w))%nat) by (by eapply lookup_lt_Some).
  assert (E : w1 = observe (Settled t)
           (set_jobs [t]
              (set_turns
                 (<[t := {| owner := owner tr;
                            outcome := Rejected (timeout_message w) |}]>
                    (turns w))
                 (set_state READY
                    (set_pendingPromise None
                       (clearTimeout (TurnTimer t) w)))))).
  { subst w1. unfold fire. rewrite Ha.
    rewrite (settle_turn_pending _ tr) by done. simpl. by rewrite Hj. }
  rewrite E. unfold outcome_of. simpl.
  rewrite list_lookup_insert_eq by done.
  split_and!; try done.
  intros c k Hc Hk.
  rewrite (drain_caller_turn _ _ t c (Rejected (timeout_message w)));
    [| done | simpl; by rewrite list_lookup_insert_eq, Hc | done].
  rewrite (settle_call_pending _ {| kind := k; promise := Pending |}) by done.
  unfold promise_of. simpl.
  rewrite list_lookup_insert_eq by (by eapply lookup_lt_Some).
  by split_and!.
Qed.

Lemma turn_timeout_rejects_without_kill_witness :
  jobs busy = []
  /\ armed (TurnTimer 1) busy = true
  /\ let w1 := fire 121000 (TurnTimer 1) busy in
     outcome_of 1 w1 = Some (Rejected (timeout_message busy))
     /\ pendingPromise (self w1) = None
     /\ state (self w1) = READY
     /\ process (self w1) = process (self busy)
     /\ procs w1 = procs busy
     /\ history w1 = Settled 1 :: history busy
     /\ forall c k,
          Caller 1 = Caller c ->
          calls busy !! c = Some {| kind := k; promise := Pending |} ->
          let w2 := drain 121000 w1 in
          promise_of c w2 = Some (Rejected (timeout_message busy))
          /\ pendingPromise (self w2) = None
          /\ state (self w2) = READY
          /\ process (self w2) = process (self busy)
          /\ procs w2 = procs busy
          /\ history w2 = Settled 1 :: history busy.
Proof.
  do 2 (split; [reflexivity|]).
  exact (turn_timeout_rejects_without_kill 121000 busy 1
           {| owner := Caller 1; outcome := Pending |}
           eq_refl eq_refl eq_refl eq_refl).
Defined.

(** A turn that times out: the late result of the child is discarded. *)
Example late_result_discarded :
  let w := run sample_parse busy
             [(121000, TimerFires (TurnTimer 1));
              (130000, StdoutData 0 (result_line "late"))] in
  promise_of 1 w = Some (Rejected "Timeout after 120000ms")
  /\ stats (self w) = stats (self busy)
  /\ history w = Settled 1 :: history busy.
Proof. vm_compute. done. Qed.

(** ** [complete()] and the state it finds *)

Lemma add_call_lookup k w :
  calls (add_call k w) !! length (calls w)
  = Some {| kind := k; promise := Pending |}.
Proof.
  unfold add_call. simpl. rewrite lookup_app_r by done.
  by rewrite Nat.sub_diag.
Qed.

Lemma settle_new_call k r w :
  settle_call (length (calls w)) r (add_call k w)
  = set_calls (calls w ++ [{| kind := k; promise := r |}]) w.
Proof.
  rewrite (settle_call_pending _ {| kind := k; promise := Pending |});
    [| apply add_call_lookup | done].
  unfold add_call. simpl.
  rewrite insert_app_r_alt by done. by rewrite Nat.sub_diag.
Qed.

(** [C9] In persistent mode [complete()] looks at the state once, when it
    is called.  In [STARTING] or [ERROR] it throws "Provider not ready"
    there and then: the world is as before but for the new call, whose
    promise is born rejected; nothing is spawned, armed or written.  A child
    is spawned from [STOPPED] and from no other state, and the call parks on
    a poll timer from [BUSY] and from no other state. *)
Theorem complete_not_ready_throws
  (now : Z) (prompt : string) (systemPrompt : option string)
  (sp : SpawnResult) (w : World) :
  mode (self w) = persistent ->
  let c := length (calls w) in
  let w' := complete now prompt systemPrompt sp w in
  (state (self w) = STARTING \/ state (self w) = ERROR ->
   w' = set_calls
          (calls w ++
             [{| kind := KComplete (full_prompt prompt systemPrompt);
                 promise := Rejected ("Provider not ready: "
                                      +:+ state_name (state (self w))) |}])
          w)
  /\ (state (self w) = STOPPED ->
      length (procs w') = S (length (procs w))
      /\ process (self w') = Some (length (procs w)))
  /\ (state (self w) <> STOPPED -> procs w' = procs w)
  /\ (state (self w) = BUSY ->
      timers w' = PollTimer c :: timers w /\ turns w' = turns w
      /\ promise_of c w' = Some Pending)
  /\ (state (self w) <> BUSY ->
      forall c', PollTimer c' ∈ timers w' -> PollTimer c' ∈ timers w).
Proof.
  intros Hm c w'. subst w' c. unfold complete. rewrite Hm. simpl.
  unfold _persistentComplete. simpl.
  split_and!.
  - intros [Hs|Hs]; rewrite Hs; unfold _persistentComplete_initialized; simpl;
      rewrite Hs; unfold _persistentComplete_woken; simpl; rewrite Hs;
      apply settle_new_call.
  - intros Hs. rewrite Hs.
    unfold initialize. simpl. rewrite Hm, Hs. unfold _startPersistentProcess.
    rewrite (fixed_children _ _ (sendMessage_fixed _ _ _ _)),
      (fixed_process _ _ (sendMessage_fixed _ _ _ _)). simpl.
    rewrite length_app. simpl. split; [lia|done].
  - intros Hs. destruct (state (self w)) eqn:Hs'; try done;
      unfold _persistentComplete_initialized, _persistentComplete_woken;
      simpl; rewrite Hs'; rewrite ?settle_call_procs; try done.
    unfold _sendMessage. by case_match.
  - intros Hs. rewrite Hs. unfold _persistentComplete_initialized. simpl.
    rewrite Hs. split_and!; try done.
    unfold promise_of. simpl. rewrite lookup_app_r by done.
    by rewrite Nat.sub_diag.
  - intros Hs c'. destruct (state (self w)) eqn:Hs'; try done.
    + unfold initialize. simpl. rewrite Hm, Hs'.
      unfold _startPersistentProcess, _sendMessage.
      case_match; simpl; rewrite ?elem_of_cons; intuition discriminate.
    + unfold _persistentComplete_initialized, _persistentComplete_woken.
      simpl. rewrite Hs'. unfold settle_call. by repeat case_match.
    + unfold _persistentComplete_initialized, _persistentComplete_woken.
      simpl. rewrite Hs'. unfold _sendMessage.
      case_match; simpl; rewrite ?elem_of_cons; intuition discriminate.
    + unfold _persistentComplete_initialized, _persistentComplete_woken.
      simpl. rewrite Hs'. unfold settle_call. by repeat case_match.
Qed.

Lemma complete_not_ready_throws_witness :
  mode (self spawn_failed) = persistent
  /\ state (self spawn_failed) = ERROR
  /\ complete 10 "hello" None (spawned_ok 42) spawn_failed
     = set_calls
         (calls spawn_failed ++
            [{| kind := KComplete "hello";
                promise := Rejected "Provider not ready: ERROR" |}])
         spawn_failed.
Proof.
  do 2 (split; [reflexivity|]).
  exact (proj1 (complete_not_ready_throws 10 "hello" None (spawned_ok 42)
                  spawn_failed eq_refl) (or_intror eq_refl)).
Defined.

(** ** Exit of the child *)

Lemma settle_call_turns c r w : turns (settle_call c r w) = turns w.
Proof. unfold settle_call. by repeat case_match. Qed.

Lemma settle_call_jobs c r w : jobs (settle_call c r w) = jobs w.
Proof. unfold settle_call. by repeat case_match. Qed.

Lemma settle_call_timers c r w : timers (settle_call c r w) = timers w.
Proof. unfold settle_call. by repeat case_match. Qed.

Lemma settle_call_history c r w : history (settle_call c r w) = history w.
Proof. unfold settle_call. by repeat case_match. Qed.

Lemma settle_call_calls_length c r w :
  length (calls (settle_call c r w)) = length (calls w).
Proof.
  unfold settle_call. repeat case_match; try done. simpl.
  by rewrite length_insert.
Qed.

(** A rejected [initialize()] resumes nobody but to reject: no state, turn
    or job changes. *)
Lemma settle_init_rejected now h e w :
  let w' := settle_init now h (Rejected e) w in
  self w' = self w /\ turns w' = turns w /\ jobs w' = jobs w
  /\ length (calls w') = length (calls w).
Proof.
  unfold settle_init, resume_initialize.
  repeat case_match; simpl;
    rewrite ?settle_call_self, ?settle_call_turns, ?settle_call_jobs,
      ?settle_call_calls_length; done.
Qed.

(** The [catch] of a warmup when no child is current. *)
Lemma react_warmup_catch_error now t h e w :
  turns w !! t = Some {| owner := Warmup h; outcome := Rejected e |} ->
  process (self w) = None ->
  let w' := react now t w in
  self w' = with_state ERROR (self w)
  /\ turns w' = turns w /\ jobs w' = jobs w
  /\ length (calls w') = length (calls w)
  /\ length (procs w') = length (procs w).
Proof.
  intros Ht Hp. unfold react. rewrite Ht. simpl.
  unfold warmup_catch, pid_truthy. simpl. rewrite Hp.
  pose proof (settle_init_rejected now h e
                (set_state ERROR (clearTimeout (WarmupTimer h) w)))
    as (H1 & H2 & H3 & H4).
  rewrite H1, H2, H3, H4. split_and!; try done.
  rewrite (fixed_children _ _ (settle_init_fixed _ _ _ _)). reflexivity.
Qed.

Lemma drain_idle now w : jobs w = [] -> drain now w = w.
Proof.
  intros H. unfold drain. by rewrite (run_jobs_idle now w H), run_jobs_idle.
Qed.

Lemma shutdown_on_exit_fold cs w :
  let w' := fold_left shutdown_on_exit cs w in
  turns w' = turns w /\ jobs w' = jobs w /\ procs w' = procs w
  /\ history w' = history w
  /\ length (calls w') = length (calls w)
  /\ (process (self w) = None -> state (self w) = STOPPED ->
      self w' = self w).
Proof.
  apply (fold_left_invariant
    (fun a => turns a = turns w /\ jobs a = jobs w /\ procs a = procs w
              /\ history a = history w
              /\ length (calls a) = length (calls w)
              /\ (process (self w) = None -> state (self w) = STOPPED ->
                  self a = self w))); [|done].
  intros a c (H1 & H2 & H3 & H4 & H5 & H6). unfold shutdown_on_exit.
  rewrite settle_call_turns, settle_call_jobs, settle_call_procs,
    settle_call_history, settle_call_calls_length, settle_call_self.
  split_and!; try done. intros Hp Hs. simpl. rewrite H6 by done.
  destruct (self w) as [m to pr st b pp sts]. simpl in *. by subst.
Qed.

(** The [exit] handlers, when a turn is open. *)
Lemma on_exit_open h pr p tr w :
  procs w !! h = Some pr -> exited pr = false ->
  pendingPromise (self w) = Some p ->
  turns w !! turn p = Some tr -> outcome tr = Pending ->
  let w' := on_exit h w in
  self w' = with_pendingPromise None
              (with_state STOPPED (with_process None (self w)))
  /\ turns w'
     = <[turn p := {| owner := owner tr;
                      outcome := Rejected "Process exited unexpectedly" |}]>
         (turns w)
  /\ jobs w' = jobs w ++ [turn p]
  /\ length (calls w') = length (calls w)
  /\ length (procs w') = length (procs w).
Proof.
  intros Hh He Hp Ht Ho. unfold on_exit. rewrite Hh, He. simpl. rewrite Hp.
  unfold pending_reject.
  rewrite (settle_turn_pending _ tr) by done.
  match goal with |- context [fold_left shutdown_on_exit ?cs ?w0] =>
    destruct (shutdown_on_exit_fold cs w0) as (H1 & H2 & H3 & H4 & H5 & H6)
  end.
  rewrite H1, H2, H3, H5, H6 by done. simpl.
  by rewrite length_insert.
Qed.

Lemma complete_stopped_spawns now prompt sys sp w :
  mode (self w) = persistent -> state (self w) = STOPPED ->
  let w' := complete now prompt sys sp w in
  length (procs w') = S (length (procs w))
  /\ process (self w') = Some (length (procs w)).
Proof.
  intros Hm Hs. unfold complete. rewrite Hm. simpl.
  unfold _persistentComplete. simpl. rewrite Hs.
  unfold initialize. simpl. rewrite Hm, Hs. unfold _startPersistentProcess.
  rewrite (fixed_children _ _ (sendMessage_fixed _ _ _ _)),
    (fixed_process _ _ (sendMessage_fixed _ _ _ _)). simpl.
  rewrite length_app. simpl. split; [lia|done].
Qed.

Lemma complete_rejects_not_ready now prompt sys sp w :
  mode (self w) = persistent ->
  state (self w) = STARTING \/ state (self w) = ERROR ->
  complete now prompt sys sp w
  = set_calls
      (calls w ++
         [{| kind := KComplete (full_prompt prompt sys);
             promise := Rejected ("Provider not ready: "
                                  +:+ state_name (state (self w))) |}]) w.
Proof.
  intros Hm Hs. unfold complete. rewrite Hm. simpl.
  unfold _persistentComplete. simpl.
  destruct Hs as [Hs|Hs]; rewrite Hs;
    unfold _persistentComplete_initialized; simpl;
    rewrite Hs; unfold _persistentComplete_woken; simpl; rewrite Hs;
    apply settle_new_call.
Qed.

(** [X29] If a child exits while a turn is open, the promise of the turn
    is rejected with the process-exited error and the pending turn and the
    current child are cleared.  When the turn was sent by a [complete()]
    call, that call is rejected with the same error, the state is
    [STOPPED], and the next [complete()] spawns a new child.  When the turn
    was the warmup, its [catch] finds no child and leaves the state
    [ERROR]: the next [complete()] throws "Provider not ready: ERROR" and
    spawns nothing. *)
Theorem exit_rejects_open_turn
  (parse : string -> option JSON) (now now' : Z) (w : World) (h : nat)
  (pr : Proc) (p : PendingPromise) (tr : Turn) :
  mode (self w) = persistent ->
  jobs w = [] ->
  procs w !! h = Some pr -> exited pr = false ->
  pendingPromise (self w) = Some p ->
  turns w !! turn p = Some tr -> outcome tr = Pending ->
  let w' := step parse now (ProcessExit h) w in
  outcome_of (turn p) w' = Some (Rejected "Process exited unexpectedly")
  /\ pendingPromise (self w') = None
  /\ process (self w') = None
  /\ match owner tr with
     | Caller c =>
         state (self w') = STOPPED
         /\ forall prompt sys sp,
              let w'' := step parse now' (CallComplete prompt sys sp) w' in
              length (procs w'') = S (length (procs w'))
              /\ process (self w'') = Some (length (procs w'))
     | Warmup _ =>
         state (self w') = ERROR
         /\ forall prompt sys sp,
              let w'' := step parse now' (CallComplete prompt sys sp) w' in
              procs w'' = procs w'
              /\ process (self w'') = None
              /\ promise_of (length (calls w')) w''
                 = Some (Rejected "Provider not ready: ERROR")
     end.
Proof.
  intros Hm Hj Hh He Hp Ht Ho w'.
  assert (Hlt : (turn p < length (turns w))%nat) by (by eapply lookup_lt_Some).
  destruct (on_exit_open h pr p tr w) as (E1 & E2 & E3 & E4 & E5); try done.
  rewrite Hj in E3. simpl in E3.
  set (w1 := on_exit h w) in *.
  assert (Hw' : w' = drain now w1) by done. clearbody w'. subst w'.
  assert (Ht1 : turns w1 !! turn p
                = Some {| owner := owner tr;
                          outcome := Rejected "Process exited unexpectedly" |}).
  { rewrite E2. by rewrite list_lookup_insert_eq. }
  destruct (owner tr) as [h0|c] eqn:Hown.
  - (* the warmup *)
    assert (R : run_jobs now w1 = react now (turn p) (set_jobs [] w1)).
    { unfold run_jobs. by rewrite E3. }
    destruct (react_warmup_catch_error now (turn p) h0
                "Process exited unexpectedly" (set_jobs [] w1))
      as (F1 & F2 & F3 & F4 & F5); [done | simpl; by rewrite E1 |].
    assert (D : drain now w1 = react now (turn p) (set_jobs [] w1)).
    { unfold drain. rewrite R. by apply run_jobs_idle. }
    rewrite D. set (w2 := react now (turn p) (set_jobs [] w1)) in *.
    simpl in F1, F2, F3. rewrite E1 in F1.
    assert (Hs2 : state (self w2) = ERROR) by (by rewrite F1).
    assert (Hm2 : mode (self w2) = persistent) by (by rewrite F1).
    unfold outcome_of. rewrite F2, Ht1. rewrite F1. simpl.
    split_and!; try done.
    intros prompt sys sp. unfold step. simpl.
    rewrite complete_rejects_not_ready by auto.
    rewrite drain_idle by done. simpl.
    rewrite F1. simpl. split_and!; try done.
    unfold promise_of. simpl. rewrite lookup_app_r by done.
    by rewrite Nat.sub_diag.
  - (* a turn of complete() *)
    rewrite (drain_caller_turn _ _ (turn p) c
               (Rejected "Process exited unexpectedly")) by done.
    unfold outcome_of. rewrite settle_call_turns, settle_call_self. simpl.
    rewrite Ht1, E1. simpl. split_and!; try done.
    intros prompt sys sp. unfold step.
    rewrite (fixed_children _ _ (drain_fixed _ _)),
      (fixed_process _ _ (drain_fixed _ _)).
    apply complete_stopped_spawns; rewrite settle_call_self; simpl;
      by rewrite E1.
Qed.

Lemma exit_rejects_open_turn_witness :
  let w' := step sample_parse 1300 (ProcessExit 0) busy in
  let w'' := step sample_parse 1400
               (CallComplete "again" None (spawned_ok 42)) w' in
  mode (self busy) = persistent /\ jobs busy = []
  /\ outcome_of 1 w' = Some (Rejected "Process exited unexpectedly")
  /\ pendingPromise (self w') = None
  /\ process (self w') = None
  /\ state (self w') = STOPPED
  /\ length (procs w'') = S (length (procs w'))
  /\ process (self w'') = Some (length (procs w')).
Proof.
  pose proof (exit_rejects_open_turn sample_parse 1300 1400 busy 0
                {| pid := Some 41%nat; stdinWritable := true;
                   exited := false; exitOnce := []; initCall := 0;
                   init := Resolved (Some (JBool true)) |}
                {| turn := 1; response := ""; startTime := 1000 |}
                {| owner := Caller 1; outcome := Pending |}
                eq_refl eq_refl eq_refl eq_refl eq_refl eq_refl eq_refl)
    as (H1 & H2 & H3 & H4 & H5).
  specialize (H5 "again" None (spawned_ok 42)).
  split_and!; [reflexivity | reflexivity | exact H1 | exact H2 | exact H3
              | exact H4 | exact (proj1 H5) | exact (proj2 H5)].
Defined.

(** [C4] The exit of the child while the warmup is the open turn.  The
    exit listener rejects the turn, drops the child and sets [STOPPED];
    the rejection then runs the [catch] of the warmup, which looks for the
    pid of the child just dropped, finds none and sets [ERROR].  The state
    is not [STOPPED], and the next [complete()] throws "Provider not ready:
    ERROR" where the claim has it spawn a new child. *)
Lemma exit_during_warmup_ends_in_error :
  let w' := step sample_parse 300 (ProcessExit 0) warming in
  let w'' := step sample_parse 400
               (CallComplete "hello" None (spawned_ok 42)) w' in
  pendingPromise (self warming)
  = Some {| turn := 0; response := ""; startTime := 0 |}
  /\ outcome_of 0 w' = Some (Rejected "Process exited unexpectedly")
  /\ state (self w') = ERROR
  /\ state (self w') <> STOPPED
  /\ procs w'' = procs w'
  /\ process (self w'') = None
  /\ promise_of 1 w'' = Some (Rejected "Provider not ready: ERROR").
Proof. vm_compute. split_and!; done. Qed.

(** ** One open turn at a time *)

Lemma same_turns_ok w w' :
  slot_turn w' = slot_turn w -> turns w' = turns w ->
  timers w' = timers w -> history w' = history w ->
  TurnsOk w -> TurnsOk w'.
Proof.
  intros Hp Ht Htm Hh [H1 H2 H3 H4].
  split; unfold open_turn, outcome_of in *; rewrite ?Hp, ?Ht, ?Htm, ?Hh; done.
Qed.

(** For a world that differs by fields the turns do not depend on. *)
Ltac turns_same H :=
  lazymatch goal with
  | |- TurnsOk ?w' =>
      lazymatch type of H with
      | TurnsOk ?w =>
          exact (same_turns_ok w w' eq_refl eq_refl eq_refl eq_refl H)
      end
  end.

Lemma view_TurnsOk w w' : view w' = view w -> TurnsOk w -> TurnsOk w'.
Proof. unfold view. intros [= Hp Hs Ht Htm Hh]. by apply same_turns_ok. Qed.

Lemma view_Idle w w' : view w' = view w -> Idle w -> Idle w'.
Proof. unfold view, Idle. intros [= Hp Hs Ht Htm Hh]. by rewrite Hp, Hs. Qed.

Lemma view_settle_call c r w : view (settle_call c r w) = view w.
Proof.
  unfold view, slot_turn.
  by rewrite settle_call_self, settle_call_turns, settle_call_timers,
    settle_call_history.
Qed.

Lemma view_settle_calls cs r w : view (settle_calls cs r w) = view w.
Proof.
  unfold settle_calls.
  apply (fold_left_invariant (fun w' => view w' = view w)); [|done].
  intros a b <-. apply view_settle_call.
Qed.

Lemma settle_calls_jobs cs r w : jobs (settle_calls cs r w) = jobs w.
Proof.
  unfold settle_calls.
  apply (fold_left_invariant (fun w' => jobs w' = jobs w)); [|done].
  intros a b <-. apply settle_call_jobs.
Qed.

Lemma slot_none w : slot_turn w = None <-> pendingPromise (self w) = None.
Proof. unfold slot_turn. by destruct (pendingPromise (self w)). Qed.

Lemma no_open w t :
  TurnsOk w -> pendingPromise (self w) = None -> ~ open_turn w t.
Proof.
  intros H Hp Ho. apply (ok_slot _ H) in Ho.
  apply slot_none in Hp. congruence.
Qed.

Lemma ok_observe o w : passive o -> TurnsOk w -> TurnsOk (observe o w).
Proof.
  intros Ho [H1 H2 H3 H4]. split; try done.
  - simpl. by destruct o.
  - simpl. intros h t c [->|Hin]; [done|].
    destruct (H4 _ _ _ Hin); auto.
Qed.

Lemma ok_clearTimeout tm w : TurnsOk w -> TurnsOk (clearTimeout tm w).
Proof.
  intros [H1 H2 H3 H4]. split; try done.
  simpl. intros tm' Hin. apply list_elem_of_filter in Hin as [_ Hin].
  by apply H2.
Qed.

Lemma ok_setTimeout tm w :
  match tm with WarmupTimer _ | PollTimer _ => True | _ => False end ->
  TurnsOk w -> TurnsOk (setTimeout tm w).
Proof.
  intros Htm [H1 H2 H3 H4]. split; try done.
  simpl. intros tm' Hin. apply elem_of_cons in Hin as [->|Hin].
  - by destruct tm.
  - by apply H2.
Qed.

Lemma open_turn_app w ts t :
  (t < length (turns w))%nat ->
  (outcome <$> (turns w ++ ts) !! t = Some Pending) <-> open_turn w t.
Proof. intros Hlt. unfold open_turn, outcome_of. by rewrite lookup_app_l. Qed.

(** [_sendMessage] when no turn is pending: it opens the one open turn, or
    queues a send born rejected. *)
Lemma sendMessage_ok now who content w :
  TurnsOk w -> pendingPromise (self w) = None ->
  let w' := _sendMessage now who content w in
  TurnsOk w' /\ Idle w'
  /\ (jobs w' = jobs w
      \/ jobs w' = jobs w ++ [length (turns w)]
         /\ pendingPromise (self w') = None
         /\ turns w' !! length (turns w)
            = Some {| owner := who; outcome := Rejected "Process not running" |}).
Proof.
  intros H Hp. pose proof (fun t => no_open w t H Hp) as Hno.
  assert (Hset : forall h t c, In (Wrote h t c) (history w) ->
                               In (Settled t) (history w)).
  { intros h t c Hin. destruct (ok_logged _ H _ _ _ Hin); [|done].
    by destruct (Hno t). }
  assert (Hold : forall ts t, outcome <$> (turns w ++ ts) !! t = Some Pending ->
                              (length (turns w) <= t)%nat).
  { intros ts t Ho. destruct (decide (t < length (turns w))%nat); [|lia].
    apply open_turn_app in Ho; [|done]. by destruct (Hno t). }
  unfold _sendMessage. destruct (writable_process w) as [h|].
  - split_and!; [split| |by left].
    + intros t. unfold open_turn, outcome_of, slot_turn. simpl. split.
      * intros Ho. pose proof (Hold _ _ Ho).
        destruct (decide (t = length (turns w))) as [->|]; [done|].
        rewrite lookup_ge_None_2 in Ho; [done|].
        rewrite length_app. simpl. lia.
      * intros [= <-]. rewrite lookup_app_r by done.
        by rewrite Nat.sub_diag.
    + simpl. intros tm Hin. apply elem_of_cons in Hin as [->|Hin].
      * unfold open_turn, outcome_of. simpl. rewrite lookup_app_r by done.
        by rewrite Nat.sub_diag.
      * pose proof (ok_timers _ H _ Hin) as Htm.
        destruct tm; try done. by destruct (Hno t).
    + simpl. split; [exact Hset | apply (ok_serial _ H)].
    + simpl. intros h' t c [[= <- <- <-]|Hin].
      * left. unfold open_turn, outcome_of. simpl.
        rewrite lookup_app_r by done. by rewrite Nat.sub_diag.
      * right. right. by eapply Hset.
    + unfold Idle. simpl. auto.
  - split_and!; [split| |right].
    + intros t. unfold open_turn, outcome_of, slot_turn. simpl. rewrite Hp.
      simpl. split; [|done]. intros Ho. pose proof (Hold _ _ Ho).
      destruct (decide (t = length (turns w))) as [->|].
      * rewrite lookup_app_r in Ho by done. by rewrite Nat.sub_diag in Ho.
      * rewrite lookup_ge_None_2 in Ho; [done|].
        rewrite length_app. simpl. lia.
    + simpl. intros tm Hin. pose proof (ok_timers _ H _ Hin) as Htm.
      destruct tm; try done. by destruct (Hno t).
    + apply (ok_serial _ H).
    + simpl. intros h t c Hin. right. by eapply Hset.
    + unfold Idle, slot_turn. simpl. by rewrite Hp.
    + simpl. split_and!; try done.
      rewrite lookup_app_r by done. by rewrite Nat.sub_diag.
Qed.

Lemma serialised_passive pre hist :
  Forall passive pre -> serialised hist -> serialised (pre ++ hist).
Proof.
  intros Hpre Hs. induction Hpre as [|o pre Ho _ IH]; [done|].
  simpl. by destruct o.
Qed.

Lemma wrote_passive pre hist h t c :
  Forall passive pre -> In (Wrote h t c) (pre ++ hist) ->
  In (Wrote h t c) hist.
Proof.
  intros Hpre Hin. apply in_app_or in Hin as [Hin|Hin]; [|done].
  rewrite Forall_forall in Hpre. apply list_elem_of_In in Hin.
  by destruct (Hpre _ Hin).
Qed.

(** Settling the pending turn and clearing it, in whatever order the
    handler does it, and whatever else it notes in the history. *)
Lemma close_ok w w' p tr r pre :
  TurnsOk w -> pendingPromise (self w) = Some p ->
  turns w !! turn p = Some tr ->
  is_settled r = true ->
  pendingPromise (self w') = None ->
  turns w' = <[turn p := {| owner := owner tr; outcome := r |}]> (turns w) ->
  (forall tm, tm ∈ timers w' -> tm ∈ timers w /\ tm <> TurnTimer (turn p)) ->
  history w' = Settled (turn p) :: pre ++ history w ->
  Forall passive pre ->
  TurnsOk w'.
Proof.
  intros H Hp Ht Hr Hp' Ht' Htm Hh Hpre.
  assert (Hone : forall t, open_turn w t -> t = turn p).
  { intros t Ho. apply (ok_slot _ H) in Ho. unfold slot_turn in Ho.
    rewrite Hp in Ho. by injection Ho. }
  assert (Hnone : forall t, ~ open_turn w' t).
  { intros t. unfold open_turn, outcome_of. rewrite Ht'.
    destruct (decide (t = turn p)) as [->|Hne].
    - rewrite list_lookup_insert_eq by (by eapply lookup_lt_Some). simpl.
      intros [= ->]. done.
    - rewrite list_lookup_insert_ne by done. intros Ho. by apply Hne, Hone. }
  split.
  - intros t. apply slot_none in Hp'. rewrite Hp'. split; [|done].
    intros Ho. by destruct (Hnone t).
  - intros tm Hin. apply Htm in Hin as [Hin Hne].
    pose proof (ok_timers _ H _ Hin) as Hok. destruct tm; try done.
    destruct Hne. by rewrite (Hone _ Hok).
  - rewrite Hh. simpl. apply serialised_passive; [done|apply (ok_serial _ H)].
  - rewrite Hh. intros h t c [Hin|Hin]; [done|]. right.
    apply wrote_passive in Hin; [|done].
    destruct (ok_logged _ H _ _ _ Hin) as [Ho|Hs].
    + left. by rewrite (Hone _ Ho).
    + right. apply in_or_app. by right.
Qed.

Lemma open_turn_lookup w t :
  open_turn w t ->
  exists tr, turns w !! t = Some tr /\ outcome tr = Pending.
Proof.
  unfold open_turn, outcome_of. destruct (turns w !! t) as [tr|]; [|done].
  simpl. intros [= Ho]. eauto.
Qed.

Lemma pending_is_open w p :
  TurnsOk w -> pendingPromise (self w) = Some p ->
  exists tr, turns w !! turn p = Some tr /\ outcome tr = Pending.
Proof.
  intros H Hp. apply open_turn_lookup, (ok_slot _ H).
  unfold slot_turn. by rewrite Hp.
Qed.

(** *** Continuations *)

Lemma idle_ready w :
  Idle w -> state (self w) <> BUSY -> state (self w) <> ERROR ->
  pendingPromise (self w) = None.
Proof.
  intros Hi H1 H2. apply slot_none.
  destruct (slot_turn w) eqn:E; [|done]. destruct Hi; congruence.
Qed.

Lemma post_same J w w' :
  view w' = view w -> jobs w' = J -> TurnsOk w -> Idle w -> Post J w'.
Proof.
  intros Hv Hj H Hi. split_and!.
  - by eapply view_TurnsOk.
  - by eapply view_Idle.
  - by left.
Qed.

Lemma persistentComplete_woken_post now c prompt w :
  TurnsOk w -> Idle w ->
  Post (jobs w) (_persistentComplete_woken now c prompt w).
Proof.
  intros H Hi. unfold _persistentComplete_woken.
  destruct (state (self w)) eqn:Hs;
    try (apply (post_same _ w);
         [apply view_settle_call | apply settle_call_jobs | done | done]).
  assert (Hp : pendingPromise (self w) = None)
    by (apply idle_ready; [done | by rewrite Hs..]).
  destruct (sendMessage_ok now (Caller c) prompt w H Hp) as (A & B & C).
  split_and!; [done..|].
  destruct C as [C|(C1 & C2 & C3)]; [by left|right]. eauto 10.
Qed.

Lemma persistentComplete_initialized_post now c prompt w :
  TurnsOk w -> Idle w ->
  Post (jobs w) (_persistentComplete_initialized now c prompt w).
Proof.
  intros H Hi. unfold _persistentComplete_initialized.
  destruct (state (self w)) eqn:Hs;
    try (by apply persistentComplete_woken_post).
  split_and!; [by apply ok_setTimeout | done | by left].
Qed.

Lemma resume_initialize_post now c r w :
  TurnsOk w -> Idle w -> Post (jobs w) (resume_initialize now c r w).
Proof.
  intros H Hi. unfold resume_initialize.
  destruct (kind <$> calls w !! c) as [[]|];
    try (apply (post_same _ w);
         [ first [apply view_settle_call | done]
         | first [apply settle_call_jobs | done] | done | done ]).
  destruct r;
    try (apply (post_same _ w);
         [apply view_settle_call | apply settle_call_jobs | done | done]);
    by apply persistentComplete_initialized_post.
Qed.

Lemma settle_init_post now h r w :
  TurnsOk w -> Idle w -> Post (jobs w) (settle_init now h r w).
Proof.
  intros H Hi. unfold settle_init.
  destruct (procs w !! h) as [pr|]; [|by apply (post_same _ w)].
  destruct (init pr); try by apply (post_same _ w).
  match goal with |- Post _ (resume_initialize _ _ _ ?w0) =>
    apply (resume_initialize_post now (initCall pr) r w0) end;
    [turns_same H | exact Hi].
Qed.

Lemma emit_ready_view w : view (emit_ready w) = view w.
Proof.
  unfold emit_ready. etrans; [|apply (view_settle_calls (readyOnce w))].
  done.
Qed.

Lemma emit_ready_jobs w : jobs (emit_ready w) = jobs w.
Proof. unfold emit_ready. simpl. apply settle_calls_jobs. Qed.

(** The warmup reported ready, from a world with no pending turn. *)
Lemma warmup_ready_post now h w :
  TurnsOk w -> pendingPromise (self w) = None ->
  Post (jobs w)
    (settle_init now h (Resolved (Some (JBool true)))
       (emit_ready (set_state READY w))).
Proof.
  intros H Hp.
  assert (Hv : view (emit_ready (set_state READY w))
               = view (set_state READY w)) by apply emit_ready_view.
  pose proof (settle_init_post now h (Resolved (Some (JBool true)))
                (emit_ready (set_state READY w))) as P.
  rewrite emit_ready_jobs in P. apply P.
  - eapply view_TurnsOk; [exact Hv|]. turns_same H.
  - eapply view_Idle; [exact Hv|]. unfold Idle, slot_turn. simpl.
    by rewrite Hp.
Qed.

Lemma react_post now t w :
  TurnsOk w -> pendingPromise (self w) = None ->
  Post (jobs w) (react now t w).
Proof.
  intros H Hp.
  assert (Hi : Idle w) by (unfold Idle, slot_turn; by rewrite Hp).
  unfold react. destruct (turns w !! t) as [tr|]; [|by apply (post_same _ w)].
  destruct (outcome tr) as [|v|e], (owner tr) as [h|c];
    try (by apply (post_same _ w));
    try (apply (post_same _ w);
         [apply view_settle_call | apply settle_call_jobs | done | done]).
  - unfold warmup_then.
    apply (warmup_ready_post now h (clearTimeout (WarmupTimer h) w));
      [by apply ok_clearTimeout | done].
  - unfold warmup_catch. destruct (pid_truthy _).
    + apply (warmup_ready_post now h (clearTimeout (WarmupTimer h) w));
        [by apply ok_clearTimeout | done].
    + pose proof (ok_clearTimeout (WarmupTimer h) w H) as H'.
      apply (settle_init_post now h (Rejected e)
               (set_state ERROR (clearTimeout (WarmupTimer h) w)));
        [turns_same H' |].
      unfold Idle. simpl. auto.
Qed.

(** *** The reactions of a task restore the invariant *)

Lemma drain_inv now w : Mid w -> Inv (drain now w).
Proof.
  intros (H & Hi & [Hj|(t & Hj & Hp)]).
  - rewrite drain_idle by done. by split_and!.
  - unfold drain.
    assert (R : run_jobs now w = react now t (set_jobs [] w)).
    { unfold run_jobs. by rewrite Hj. }
    rewrite R.
    destruct (react_post now t (set_jobs [] w)) as (A & B & C);
      [turns_same H | exact Hp |].
    simpl in C. destruct C as [C|(t' & c & e & C1 & C2 & C3)].
    + rewrite run_jobs_idle by done. by split_and!.
    + unfold run_jobs. rewrite C1. simpl.
      unfold react at 1. simpl. rewrite C3. simpl.
      split_and!.
      * eapply view_TurnsOk; [apply view_settle_call|]. turns_same A.
      * eapply view_Idle; [apply view_settle_call|]. unfold Idle, slot_turn.
        simpl. by rewrite C2.
      * by rewrite settle_call_jobs.
Qed.

Lemma post_mid w : Post [] w -> Mid w.
Proof.
  intros (H & Hi & [Hj|(t & c & e & Hj & Hp & _)]); split_and!; eauto.
Qed.

(** *** Handlers *)

Lemma append_response_view text w :
  view (append_response text w) = view w
  /\ jobs (append_response text w) = jobs w.
Proof.
  unfold append_response, view, slot_turn.
  destruct (pendingPromise (self w)) as [p|] eqn:E; simpl; by rewrite ?E.
Qed.

Lemma append_blocks_view blocks : forall w,
  view (world_of (append_blocks blocks w)) = view w
  /\ jobs (world_of (append_blocks blocks w)) = jobs w.
Proof.
  induction blocks as [|b bs IH]; intros w; [done|].
  simpl. destruct b; try done;
    repeat (case_match; try done);
    destruct (IH (append_response s w)) as [-> ->];
    apply append_response_view.
Qed.

Lemma mid_same_jobless w w' :
  view w' = view w -> jobs w' = jobs w -> jobs w = [] -> Mid w -> Mid w'.
Proof.
  intros Hv Hj Hn (H & Hi & _). split_and!.
  - by eapply view_TurnsOk.
  - by eapply view_Idle.
  - left. congruence.
Qed.

Lemma mid_pending_jobless w p :
  Mid w -> pendingPromise (self w) = Some p -> jobs w = [].
Proof. intros (_ & _ & [?|(t & _ & ?)]) Hp; congruence. Qed.

Lemma inv_mid w : Inv w -> Mid w.
Proof. intros (H & Hi & Hj). split_and!; auto. Qed.

Lemma filter_out (tm t0 : Timer) (l : list Timer) :
  tm ∈ filter (fun x => x <> t0) l -> tm ∈ l /\ tm <> t0.
Proof. intros Hin. apply list_elem_of_filter in Hin. tauto. Qed.

(** The pending turn is settled and cleared: one job, no pending turn. *)
Lemma close_mid w w' p r pre :
  Mid w -> pendingPromise (self w) = Some p -> is_settled r = true ->
  Forall passive pre ->
  (forall tr, turns w !! turn p = Some tr -> outcome tr = Pending ->
     pendingPromise (self w') = None
     /\ turns w' = <[turn p := {| owner := owner tr; outcome := r |}]> (turns w)
     /\ (forall tm, tm ∈ timers w' -> tm ∈ timers w /\ tm <> TurnTimer (turn p))
     /\ history w' = Settled (turn p) :: pre ++ history w
     /\ jobs w' = jobs w ++ [turn p]) ->
  Mid w'.
Proof.
  intros M Hp Hr Hpre Hw'. pose proof (mid_pending_jobless _ _ M Hp) as Hj.
  destruct M as (H & Hi & _).
  destruct (pending_is_open w p H Hp) as (tr & Ht & Ho).
  destruct (Hw' tr Ht Ho) as (A & B & C & D & E).
  split_and!.
  - by apply (close_ok w w' p tr r pre).
  - unfold Idle, slot_turn. by rewrite A.
  - right. exists (turn p). by rewrite E, Hj.
Qed.

(** *** Messages *)

Lemma handleMessage_mid now msg w :
  Mid w -> Mid (world_of (_handleMessage now msg w)).
Proof.
  intros M. unfold _handleMessage.
  destruct (pendingPromise (self w)) as [p|] eqn:Hp; [|exact M].
  pose proof (mid_pending_jobless _ _ M Hp) as Hj.
  assert (Hsame : forall w', view w' = view w -> jobs w' = jobs w -> Mid w').
  { intros w' Hv Hj'. by apply (mid_same_jobless w). }
  assert (Hclose : forall r st s,
    is_settled r = true ->
    Mid (set_state st
           (set_pendingPromise None
              (settle_turn (turn p) r
                 (clearTimeout (TurnTimer (turn p)) (set_stats s w)))))).
  { intros r st s Hr. apply (close_mid w _ p r []); try done.
    intros tr Ht Ho. rewrite (settle_turn_pending _ tr) by done.
    split_and!; try done. simpl. intros tm. apply filter_out. }
  destruct msg; try exact M;
    (destruct (is_type _ "assistant");
     [ destruct (opt_prop _ "content") as [content|]; [|exact M];
       destruct (truthy content); [|exact M];
       destruct content; try exact M;
       apply Hsame; apply append_blocks_view
     | destruct (is_type _ "result");
       [ by apply Hclose
       | destruct (is_type _ "error"); [|exact M];
         destruct (_ ≫= to_string) as [errorMsg|];
         [ by apply Hclose | by apply Hsame ] ] ]).
Qed.

Lemma handleStdout_mid parse now data w :
  Mid w -> Mid (_handleStdout parse now data w).
Proof.
  intros M. unfold _handleStdout.
  apply fold_left_invariant.
  - intros a line Ma. unfold handle_line.
    destruct (nonempty _); [|done]. destruct (parse _); [|done].
    by apply handleMessage_mid.
  - destruct M as (H & Hi & Hj). split_and!; [turns_same H | done | done].
Qed.

(** *** Exit and error of a child *)

Lemma shutdown_on_exit_mid w c :
  Mid w -> pendingPromise (self w) = None ->
  Mid (shutdown_on_exit w c)
  /\ pendingPromise (self (shutdown_on_exit w c)) = None.
Proof.
  intros (H & Hi & Hj) Hp. unfold shutdown_on_exit.
  pose proof (ok_clearTimeout (ForceKillTimer c) w H) as H'.
  split; [|by rewrite settle_call_self].
  split_and!.
  - eapply view_TurnsOk; [apply view_settle_call|]. turns_same H'.
  - unfold Idle, slot_turn. rewrite settle_call_self. simpl. by rewrite Hp.
  - rewrite settle_call_jobs. simpl.
    destruct Hj as [?|(t & ? & ?)]; [by left|right].
    exists t. by rewrite settle_call_self.
Qed.

Lemma on_exit_mid h w : Inv w -> Mid (on_exit h w).
Proof.
  intros I. pose proof (inv_mid _ I) as M. destruct I as (H & Hi & Hj).
  unfold on_exit. destruct (procs w !! h) as [pr|]; [|exact M].
  destruct (exited pr); [exact M|].
  match goal with |- Mid (fold_left _ _ ?w1) =>
    assert (M1 : Mid w1 /\ pendingPromise (self w1) = None) end.
  { simpl. destruct (pendingPromise (self w)) as [p|] eqn:Hp.
    - split; [|done].
      apply (close_mid w _ p (Rejected "Process exited unexpectedly")
               [ExitSeen h]); try done.
      + by repeat constructor.
      + intros tr Ht Ho. unfold pending_reject.
        rewrite (settle_turn_pending _ tr) by done.
        split_and!; try done. simpl. intros tm. apply filter_out.
    - split; [|done]. split_and!.
      + pose proof (ok_observe (ExitSeen h) w I H) as H'. turns_same H'.
      + unfold Idle, slot_turn. simpl. by rewrite Hp.
      + by left. }
  apply (fold_left_invariant
           (fun a => Mid a /\ pendingPromise (self a) = None)); [|done].
  intros a c [Ma Hpa]. by apply shutdown_on_exit_mid.
Qed.

Lemma on_error_mid now h message w : Inv w -> Mid (on_error now h message w).
Proof.
  intros I. pose proof (inv_mid _ I) as M. destruct I as (H & Hi & Hj).
  unfold on_error. destruct (procs w !! h) as [pr|]; [|exact M].
  assert (M1 : Mid (set_state ERROR w)).
  { split_and!; [turns_same H | | by left]. unfold Idle. simpl. auto. }
  assert (M2 : forall cs,
    Mid (settle_init now h (Rejected message)
           (set_errorOnce []
              (settle_calls cs (Resolved (Some (JBool false)))
                 (set_state ERROR w))))).
  { intros cs. apply post_mid.
    pose proof (view_settle_calls cs (Resolved (Some (JBool false)))
                  (set_state ERROR w)) as Hv.
    match goal with |- Post _ (settle_init _ _ _ ?w0) =>
      pose proof (settle_init_post now h (Rejected message) w0) as P end.
    simpl in P. rewrite settle_calls_jobs in P. simpl in P. rewrite Hj in P.
    apply P.
    - eapply (same_turns_ok (settle_calls cs _ (set_state ERROR w)));
        try reflexivity.
      eapply view_TurnsOk; [exact Hv|]. turns_same H.
    - eapply (view_Idle (set_state ERROR w)); [exact Hv|].
      unfold Idle. simpl. auto. }
  simpl. destruct (errorOnce w) as [|c0 cs];
    [ destruct (hostListensError w); [exact (M2 []) | exact M1]
    | exact (M2 (c0 :: cs)) ].
Qed.

(** *** Timers *)

Lemma fire_mid now tm w : Inv w -> Mid (fire now tm w).
Proof.
  intros I. pose proof (inv_mid _ I) as M. destruct I as (H & Hi & Hj).
  unfold fire. destruct (armed tm w) eqn:Ha; [|exact M].
  apply bool_decide_eq_true in Ha. pose proof (ok_timers _ H _ Ha) as Htm.
  destruct tm as [t|h|c|c|c]; try done.
  - (* the timeout of a turn *)
    apply (ok_slot _ H) in Htm. unfold slot_turn in Htm.
    destruct (pendingPromise (self w)) as [p|] eqn:Hp; [|done].
    injection Htm as <-.
    match goal with |- Mid (settle_turn _ ?r _) =>
      apply (close_mid w _ p r []) end; try done.
    intros tr Ht Ho. rewrite (settle_turn_pending _ tr) by done.
    split_and!; try done. simpl. intros tm. apply filter_out.
  - (* the warmup timer *)
    pose proof (ok_clearTimeout (WarmupTimer h) w H) as H'.
    destruct (state (self w)) eqn:Hs; simpl; rewrite ?Hs;
      try (split_and!; [exact H' | exact Hi | by left]).
    apply post_mid.
    assert (Hp : pendingPromise (self w) = None)
      by (apply idle_ready; [done | by rewrite Hs..]).
    pose proof (warmup_ready_post now h
                  (clearTimeout (WarmupTimer h) w) H' Hp) as P.
    simpl in P. by rewrite Hj in P.
  - (* the poll of a parked call *)
    destruct (state (self w)) eqn:Hs; simpl; rewrite ?Hs; try exact M.
    apply post_mid.
    pose proof (ok_clearTimeout (PollTimer c) w H) as H'.
    pose proof (persistentComplete_woken_post now c (prompt_of c w)
                  (clearTimeout (PollTimer c) w) H' Hi) as P.
    simpl in P. by rewrite Hj in P.
Qed.

(** *** Calls of [complete()] and [initialize()] *)

Lemma startPersistentProcess_mid now c sp w :
  TurnsOk w -> pendingPromise (self w) = None -> jobs w = [] ->
  Mid (_startPersistentProcess now c sp w).
Proof.
  intros H Hp Hj. unfold _startPersistentProcess.
  match goal with |- Mid (_sendMessage _ _ _ ?w0) =>
    destruct (sendMessage_ok now (Warmup (length (procs w))) "Hello" w0)
      as (A & B & C) end.
  - apply ok_setTimeout; [done|].
    match goal with |- TurnsOk (observe ?o ?w1) =>
      apply (ok_observe o w1) end; [done|]. turns_same H.
  - exact Hp.
  - split_and!; [exact A | exact B |]. simpl in C. rewrite Hj in C.
    destruct C as [C|(C1 & C2 & C3)]; [by left|right]. eauto.
Qed.

Lemma complete_mid now prompt sys sp w :
  Inv w -> Mid (complete now prompt sys sp w).
Proof.
  intros (H & Hi & Hj). unfold complete.
  destruct (mode (self w)) as [| |m] eqn:Hm.
  - (* persistent *)
    set (fp := full_prompt prompt sys).
    assert (Ha : TurnsOk (add_call (KComplete fp) w)) by turns_same H.
    unfold _persistentComplete. simpl.
    destruct (state (self w)) eqn:Hs;
      try (apply post_mid;
           pose proof (persistentComplete_initialized_post now
                         (length (calls w)) fp
                         (add_call (KComplete fp) w) Ha Hi) as P;
           simpl in P; by rewrite Hj in P).
    unfold initialize. simpl. rewrite Hm, Hs.
    assert (Hp : pendingPromise (self w) = None)
      by (apply idle_ready; [done | by rewrite Hs..]).
    apply startPersistentProcess_mid; [exact Ha | exact Hp | exact Hj].
  - (* api *)
    split_and!; [turns_same H | exact Hi | by left].
  - (* another mode *)
    apply (mid_same_jobless w).
    + etrans; [apply view_settle_call|]. done.
    + by rewrite settle_call_jobs.
    + done.
    + by split_and!; auto.
Qed.

Lemma call_initialize_mid now sp w :
  Inv w -> pendingPromise (self w) = None -> Mid (call_initialize now sp w).
Proof.
  intros (H & Hi & Hj) Hp. unfold call_initialize, initialize.
  assert (Ha : TurnsOk (add_call KInitialize w)) by turns_same H.
  assert (Hr : Mid (resume_initialize now (length (calls w))
                      (Resolved (Some (JBool true)))
                      (add_call KInitialize w))).
  { apply post_mid.
    pose proof (resume_initialize_post now (length (calls w))
                  (Resolved (Some (JBool true)))
                  (add_call KInitialize w) Ha Hi) as P.
    simpl in P. by rewrite Hj in P. }
  simpl. destruct (mode (self w)); try exact Hr.
  destruct (state (self w)); try exact Hr;
    try (by apply startPersistentProcess_mid).
  split_and!; [turns_same H | exact Hi | by left].
Qed.

Lemma anthropicAPI_mid now c r w : Inv w -> Mid (_anthropicAPI now c r w).
Proof.
  intros I. pose proof (inv_mid _ I) as M. destruct I as (H & Hi & Hj).
  unfold _anthropicAPI.
  repeat (case_match; try exact M);
    (apply (mid_same_jobless w);
     [ etrans; [apply view_settle_call|]; reflexivity
     | by rewrite settle_call_jobs | done | exact M ]).
Qed.

(** *** Tasks *)

Lemma handle_mid parse now ev w :
  allowed w ev -> Inv w -> Mid (handle parse now ev w).
Proof.
  intros Hev I. destruct ev; simpl.
  - by apply complete_mid.
  - by apply call_initialize_mid.
  - by destruct Hev.
  - destruct (procs w !! h); [|by apply inv_mid].
    by apply handleStdout_mid, inv_mid.
  - by apply on_exit_mid.
  - by apply on_error_mid.
  - pose proof (inv_mid _ I) as M. destruct I as (H & Hi & Hj).
    unfold on_stdin_closed. destruct (procs w !! h); [|exact M].
    split_and!; [turns_same H | exact Hi | by left].
  - by apply fire_mid.
  - by apply anthropicAPI_mid.
Qed.

Lemma step_inv parse now ev w :
  allowed w ev -> Inv w -> Inv (step parse now ev w).
Proof. intros Hev I. unfold step. by apply drain_inv, handle_mid. Qed.

Lemma new_world_inv config host_listens : Inv (new_world config host_listens).
Proof.
  split_and!; [split| |]; try done.
  - simpl. intros tm Hin. by apply elem_of_nil in Hin.
  - unfold Idle, slot_turn. simpl. by destruct config as [[m|] [t|]].
Qed.

Lemma run_inv parse tasks : forall w,
  host_keeps_off parse w tasks -> Inv w -> Inv (run parse w tasks).
Proof.
  induction tasks as [|[now ev] tasks IH]; intros w Hh I; [exact I|].
  destruct Hh as [Hev Hh]. simpl in *. apply IH; [done|].
  by apply step_inv.
Qed.

Lemma only_completes_keeps_off parse tasks : forall w,
  host_only_completes tasks -> host_keeps_off parse w tasks.
Proof.
  unfold host_only_completes.
  induction tasks as [|[now ev] tasks IH]; intros w Hh; [done|].
  apply Forall_cons in Hh as [Hev Hh]. simpl in *. split; [|by apply IH].
  by destruct ev.
Qed.

(** One open turn at a time, and serialised writes, also for a host that
    calls [initialize()] itself, as long as it does so when no turn is
    pending (at start-up, say). *)
Lemma serialised_with_initialize parse config host_listens tasks :
  host_keeps_off parse (new_world config host_listens) tasks ->
  let w := run parse (new_world config host_listens) tasks in
  (forall t, open_turn w t <-> slot_turn w = Some t)
  /\ serialised (history w).
Proof.
  intros Hh w.
  destruct (run_inv parse tasks (new_world config host_listens) Hh
              (new_world_inv config host_listens)) as (H & _ & _).
  split; [apply (ok_slot _ H) | apply (ok_serial _ H)].
Qed.

(** [C1] Whatever the children and the timers do, and however many
    callers call [complete()] and whenever: as long as the host calls
    nothing else on the provider, at most one turn is open at any time (the
    pending one), and every write to a child's input comes after the
    settling of every turn written before it.  In particular a caller that
    found the state [BUSY] writes only after the turn it waited for was
    resolved or rejected. *)
Theorem complete_callers_serialised
  (parse : string -> option JSON) (config : Config) (host_listens : bool)
  (tasks : list (Z * Event)) :
  host_only_completes tasks ->
  let w := run parse (new_world config host_listens) tasks in
  (forall t1 t2, open_turn w t1 -> open_turn w t2 -> t1 = t2)
  /\ (forall t, open_turn w t -> slot_turn w = Some t)
  /\ serialised (history w).
Proof.
  intros Hh w.
  destruct (run_inv parse tasks (new_world config host_listens)
              (only_completes_keeps_off parse tasks _ Hh)
              (new_world_inv config host_listens)) as (H & _ & _).
  fold w in H. split_and!.
  - intros t1 t2 H1 H2. apply (ok_slot _ H) in H1, H2. congruence.
  - intros t. apply (ok_slot _ H).
  - apply (ok_serial _ H).
Qed.

(** The run of two callers: the second finds the state [BUSY], polls, and
    writes after the first turn has its result. *)
Example second_caller_waits :
  let parked := run sample_parse fresh (firstn 4 two_callers) in
  let done := run sample_parse fresh two_callers in
  state (self parked) = BUSY
  /\ slot_turn parked = Some 1%nat
  /\ timers parked = [PollTimer 1; TurnTimer 1]
  /\ history parked
     = [Wrote 0 1 "first"; Settled 0; Wrote 0 0 "Hello"; Spawned 0]
  /\ history done
     = [Settled 2; Wrote 0 2 "second"; Settled 1; Wrote 0 1 "first";
        Settled 0; Wrote 0 0 "Hello"; Spawned 0]
  /\ promise_of 0 done = Some (Resolved (Some (JStr "one")))
  /\ promise_of 1 done = Some (Resolved (Some (JStr "two"))).
Proof. vm_compute. split_and!; done. Qed.

Lemma complete_callers_serialised_witness :
  host_only_completes two_callers
  /\ let w := run sample_parse (new_world default_config false) two_callers in
     (forall t1 t2, open_turn w t1 -> open_turn w t2 -> t1 = t2)
     /\ (forall t, open_turn w t -> slot_turn w = Some t)
     /\ serialised (history w).
Proof.
  assert (H : host_only_completes two_callers)
    by (unfold host_only_completes, two_callers; repeat constructor).
  split; [exact H|].
  exact (complete_callers_serialised sample_parse default_config false
           two_callers H).
Defined.

(** ** The state [STARTING] is never seen by a task *)

Lemma cont_same w w' :
  state (self w') = state (self w) -> turns w' = turns w ->
  jobs w' = jobs w -> Cont w w'.
Proof.
  intros Hs Ht Hj. split.
  - by rewrite Hs.
  - exists []. by rewrite app_nil_r.
  - exists []. by rewrite app_nil_r.
Qed.

Lemma cont_trans w1 w2 w3 : Cont w1 w2 -> Cont w2 w3 -> Cont w1 w3.
Proof.
  intros [S1 (ts1 & T1) (js1 & J1 & B1)] [S2 (ts2 & T2) (js2 & J2 & B2)].
  split.
  - auto.
  - exists (ts1 ++ ts2). by rewrite T2, T1, app_assoc.
  - exists (js1 ++ js2). split; [by rewrite J2, J1, app_assoc|].
    apply Forall_app. split; [|done].
    eapply Forall_impl; [exact B1|]. intros t (c & e & Ht).
    exists c, e. rewrite T2. by apply lookup_app_l_Some.
Qed.

Lemma cont_settle_call c r w : Cont w (settle_call c r w).
Proof.
  apply cont_same;
    by rewrite ?settle_call_self, ?settle_call_turns, ?settle_call_jobs.
Qed.

Lemma cont_sendMessage now c content w :
  Cont w (_sendMessage now (Caller c) content w).
Proof.
  unfold _sendMessage. destruct (writable_process w); split; simpl; eauto.
  - exists []. by rewrite app_nil_r.
  - exists [length (turns w)]. split; [done|].
    constructor; [|done]. exists c, "Process not running". simpl.
    rewrite lookup_app_r by done. by rewrite Nat.sub_diag.
Qed.

Lemma cont_woken now c prompt w :
  Cont w (_persistentComplete_woken now c prompt w).
Proof.
  unfold _persistentComplete_woken.
  destruct (state (self w));
    first [apply cont_settle_call | apply cont_sendMessage].
Qed.

Lemma cont_initialized now c prompt w :
  Cont w (_persistentComplete_initialized now c prompt w).
Proof.
  unfold _persistentComplete_initialized.
  destruct (state (self w)); try apply cont_woken. by apply cont_same.
Qed.

Lemma cont_resume now c r w : Cont w (resume_initialize now c r w).
Proof.
  unfold resume_initialize.
  destruct (kind <$> calls w !! c) as [[]|];
    try apply cont_settle_call; try (by apply cont_same).
  destruct r; first [apply cont_settle_call | apply cont_initialized].
Qed.

Lemma cont_settle_init now h r w : Cont w (settle_init now h r w).
Proof.
  unfold settle_init. destruct (procs w !! h) as [pr|]; [|by apply cont_same].
  destruct (init pr); try (by apply cont_same).
  eapply cont_trans; [|apply cont_resume]. by apply cont_same.
Qed.

Lemma over_cont w w' : Over w w' -> Cont w w'.
Proof. intros (S & T & J). by split. Qed.

Lemma over_from w0 w w' :
  state (self w0) <> STARTING -> turns w0 = turns w -> jobs w0 = jobs w ->
  Cont w0 w' -> Over w w'.
Proof.
  intros Hs Ht Hj [S T J]. rewrite Ht in T. rewrite Hj in J.
  split_and!; auto.
Qed.

Lemma emit_ready_turns w : turns (emit_ready w) = turns w.
Proof. pose proof (emit_ready_view w) as Hv. unfold view in Hv. congruence. Qed.

(** The reaction to a warmup that is over leaves [READY] or [ERROR], or
    what the resumed call makes of it. *)
Lemma react_warmup_over now t h r w :
  turns w !! t = Some {| owner := Warmup h; outcome := r |} ->
  is_settled r = true ->
  Over w (react now t w).
Proof.
  intros Ht Hr. unfold react. rewrite Ht. simpl.
  destruct r as [|v|e]; [done| |]; simpl.
  - unfold warmup_then.
    eapply over_from; [| | |apply cont_settle_init].
    + by rewrite emit_ready_self.
    + by rewrite emit_ready_turns.
    + by rewrite emit_ready_jobs.
  - unfold warmup_catch. destruct (pid_truthy _).
    + eapply over_from; [| | |apply cont_settle_init].
      * by rewrite emit_ready_self.
      * by rewrite emit_ready_turns.
      * by rewrite emit_ready_jobs.
    + eapply over_from; [| | |apply cont_settle_init]; done.
Qed.

Lemma react_cont now t w : Cont w (react now t w).
Proof.
  destruct (turns w !! t) as [[o r]|] eqn:Ht.
  2: { unfold react. rewrite Ht. by apply cont_same. }
  destruct o as [h|c].
  - destruct (is_settled r) eqn:Hr.
    + by eapply over_cont, react_warmup_over.
    + unfold react. rewrite Ht. destruct r; try done. by apply cont_same.
  - unfold react. rewrite Ht. simpl.
    destruct r; first [by apply cont_same | apply cont_settle_call].
Qed.

Lemma fold_left_forall {A B} (I : A -> Prop) (Q : B -> Prop)
  (f : A -> B -> A) l a :
  Forall Q l -> (forall a b, Q b -> I a -> I (f a b)) -> I a ->
  I (fold_left f l a).
Proof.
  intros Hl Hf. revert a. induction Hl as [|b l Hb _ IH]; simpl; auto.
Qed.

(** The reactions to sends born rejected queue nothing and keep the
    state. *)
Lemma run_jobs_born_rejected now w :
  Forall (born_rejected w) (jobs w) ->
  let w' := run_jobs now w in
  jobs w' = [] /\ state (self w') = state (self w).
Proof.
  intros Hb. unfold run_jobs.
  apply (fold_left_forall
           (fun a => (jobs a = [] /\ state (self a) = state (self w))
                     /\ turns a = turns w)
           (born_rejected w)); [exact Hb| |done].
  intros a t (c & e & Ht) ((Hj & Hs) & Hta).
  unfold react. rewrite Hta, Ht. simpl.
  by rewrite settle_call_jobs, settle_call_self, settle_call_turns.
Qed.

(** The reactions of a task: they empty the queue; and they leave a state
    other than [STARTING] if the handler left one, or left the rejected
    warmup of a failed send as the one job. *)
Lemma drain_over now w :
  let w' := drain now w in
  jobs w' = []
  /\ (state (self w) <> STARTING
      \/ (exists t h r,
            jobs w = [t]
            /\ turns w !! t = Some {| owner := Warmup h; outcome := r |}
            /\ is_settled r = true) ->
      state (self w') <> STARTING).
Proof.
  unfold drain.
  assert (C : Cont (set_jobs [] w) (run_jobs now w)).
  { unfold run_jobs.
    apply (fold_left_invariant (fun a => Cont (set_jobs [] w) a)).
    - intros a t Ca. eapply cont_trans; [exact Ca|apply react_cont].
    - by apply cont_same. }
  destruct C as [S T (js & J & B)]. simpl in J. rewrite <- J in B.
  destruct (run_jobs_born_rejected now (run_jobs now w) B) as [E1 E2].
  split; [exact E1|]. rewrite E2.
  intros [Hs|(t & h & r & Hj & Ht & Hr)]; [by apply S|].
  unfold run_jobs. rewrite Hj. simpl.
  by destruct (react_warmup_over now t h r (set_jobs [] w) Ht Hr).
Qed.

Lemma startPersistentProcess_started now c sp w :
  jobs w = [] -> Started (_startPersistentProcess now c sp w).
Proof.
  intros Hj. unfold _startPersistentProcess, _sendMessage.
  destruct (writable_process _); [by left|right].
  exists (length (turns w)), (length (procs w)),
    (Rejected "Process not running").
  simpl. rewrite Hj. split_and!; try done.
  rewrite lookup_app_r by done. by rewrite Nat.sub_diag.
Qed.

Lemma cont_started w w' :
  Cont w w' -> state (self w) <> STARTING -> Started w'.
Proof. intros [S _ _] Hs. left. auto. Qed.

Lemma complete_started now prompt sys sp w :
  state (self w) <> STARTING -> jobs w = [] ->
  Started (complete now prompt sys sp w).
Proof.
  intros Hs Hj. unfold complete. destruct (mode (self w)) eqn:Hm.
  - unfold _persistentComplete. simpl.
    destruct (state (self w)) eqn:Hs';
      try (eapply cont_started; [apply cont_initialized|]; simpl;
           by rewrite Hs').
    unfold initialize. simpl. rewrite Hm, Hs'.
    by apply startPersistentProcess_started.
  - by left.
  - left. by rewrite settle_call_self.
Qed.

Lemma call_initialize_started now sp w :
  state (self w) <> STARTING -> jobs w = [] ->
  Started (call_initialize now sp w).
Proof.
  intros Hs Hj. unfold call_initialize, initialize. simpl.
  destruct (mode (self w));
    try (eapply cont_started; [apply cont_resume|]; exact Hs).
  destruct (state (self w)) eqn:Hs'; try done;
    try (by apply startPersistentProcess_started).
  eapply cont_started; [apply cont_resume|]. simpl. by rewrite Hs'.
Qed.

Lemma handleMessage_state now msg w :
  state (self w) <> STARTING ->
  state (self (world_of (_handleMessage now msg w))) <> STARTING.
Proof.
  intros Hs. unfold _handleMessage.
  destruct (pendingPromise (self w)) as [p|]; [|done].
  assert (Hb : forall blocks,
    state (self (world_of (append_blocks blocks w))) <> STARTING).
  { intros blocks. destruct (append_blocks_view blocks w) as [Hv _].
    unfold view in Hv. congruence. }
  destruct msg; try done; repeat (case_match; try done); apply Hb.
Qed.

Lemma handleStdout_state parse now data w :
  state (self w) <> STARTING ->
  state (self (_handleStdout parse now data w)) <> STARTING.
Proof.
  intros Hs. unfold _handleStdout.
  apply (fold_left_invariant (fun a => state (self a) <> STARTING)); [|done].
  intros a line Ha. unfold handle_line.
  repeat (case_match; try done). by apply handleMessage_state.
Qed.

Lemma on_exit_state h w :
  state (self w) <> STARTING -> state (self (on_exit h w)) <> STARTING.
Proof.
  intros Hs. unfold on_exit. repeat (case_match; try done);
    (apply (fold_left_invariant (fun a => state (self a) <> STARTING));
     [ intros a c _; unfold shutdown_on_exit; by rewrite settle_call_self
     | by frame ]).
Qed.

Lemma on_error_state now h message w :
  state (self w) <> STARTING ->
  state (self (on_error now h message w)) <> STARTING.
Proof.
  intros Hs. unfold on_error. repeat (case_match; try done);
    match goal with |- context [settle_init ?n ?h0 (Rejected ?e) ?w0] =>
      destruct (settle_init_rejected n h0 e w0) as (-> & _) end;
    by frame.
Qed.

Lemma fire_started now tm w :
  state (self w) <> STARTING -> Started (fire now tm w).
Proof.
  intros Hs. unfold fire. destruct (armed tm w); [|by left].
  destruct tm as [t|h|c|c|c]; simpl.
  - left. by rewrite settle_turn_self.
  - destruct (state (self w)) eqn:Hs'; simpl; rewrite ?Hs';
      first [done | left; simpl; congruence].
  - destruct (state (self w)) eqn:Hs'; try (left; congruence).
    eapply cont_started; [apply cont_woken|]. simpl. congruence.
  - left. by rewrite settle_call_self.
  - left. destruct (process (self w)); [|done]. by rewrite kill_self.
Qed.

Lemma anthropicAPI_state now c r w :
  state (self (_anthropicAPI now c r w)) = state (self w).
Proof.
  unfold _anthropicAPI. repeat (case_match; try done);
    by rewrite settle_call_self.
Qed.

Lemma handle_started parse now ev w :
  state (self w) <> STARTING -> jobs w = [] ->
  Started (handle parse now ev w).
Proof.
  intros Hs Hj. destruct ev; simpl.
  - by apply complete_started.
  - by apply call_initialize_started.
  - left. by rewrite shutdown_self.
  - left. destruct (procs w !! h); [|done]. by apply handleStdout_state.
  - left. by apply on_exit_state.
  - left. by apply on_error_state.
  - left. by rewrite on_stdin_closed_self.
  - by apply fire_started.
  - left. by rewrite anthropicAPI_state.
Qed.

Lemma step_never_starting parse now ev w :
  state (self w) <> STARTING /\ jobs w = [] ->
  state (self (step parse now ev w)) <> STARTING
  /\ jobs (step parse now ev w) = [].
Proof.
  intros [Hs Hj]. unfold step.
  destruct (drain_over now (handle parse now ev w)) as [E S].
  split; [|exact E]. apply S. by apply handle_started.
Qed.

(** Between two tasks the state is never [STARTING], whatever the host,
    the children and the timers do: [_sendMessage] has made it [BUSY], or
    the [catch] of a failed send has made it [READY] or [ERROR], before the
    task that called [_startPersistentProcess] ends. *)
Lemma never_starting parse config host_listens tasks :
  state (self (run parse (new_world config host_listens) tasks)) <> STARTING.
Proof.
  assert (G : forall w,
    state (self w) <> STARTING /\ jobs w = [] ->
    state (self (run parse w tasks)) <> STARTING
    /\ jobs (run parse w tasks) = []).
  { induction tasks as [|[now ev] tasks IH]; intros w N; [exact N|].
    simpl. apply IH. by apply step_never_starting. }
  by apply G.
Qed.

(** So the callback of the warmup timer finds its guard false in every
    world a run can reach: when it fires it is spent, and that is all. *)
Lemma warmup_timer_does_nothing parse config host_listens tasks now h :
  let w := run parse (new_world config host_listens) tasks in
  fire now (WarmupTimer h) w
  = if armed (WarmupTimer h) w then clearTimeout (WarmupTimer h) w else w.
Proof.
  intros w. pose proof (never_starting parse config host_listens tasks) as N.
  fold w in N. unfold fire. destruct (armed _ w); [|done]. simpl.
  by destruct (state (self w)).
Qed.

(** Had the state still been [STARTING], the callback would have done what
    its log line says: the provider is made [READY] and [initialize()]
    resolves true. *)
Lemma warmup_timer_in_starting now h w pr :
  armed (WarmupTimer h) w = true ->
  state (self w) = STARTING ->
  procs w !! h = Some pr -> init pr = Pending ->
  calls w !! initCall pr = Some {| kind := KInitialize; promise := Pending |} ->
  readyOnce w = [] ->
  let w' := fire now (WarmupTimer h) w in
  state (self w') = READY
  /\ promise_of (initCall pr) w' = Some (Resolved (Some (JBool true))).
Proof.
  intros Ha Hs Hh Hi Hc Hr. unfold fire. rewrite Ha. simpl. rewrite Hs.
  unfold emit_ready. simpl. rewrite Hr. simpl.
  unfold settle_init. simpl. rewrite Hh, Hi. simpl.
  unfold resume_initialize. simpl. rewrite Hc. simpl.
  rewrite (settle_call_pending _ {| kind := KInitialize; promise := Pending |})
    by done.
  unfold promise_of. simpl.
  rewrite list_lookup_insert_eq by (by eapply lookup_lt_Some). done.
Qed.

(** The warmup that answers: the provider is [READY] and [initialize()]
    has resolved true. *)
Example warmup_answer_makes_ready :
  state (self ready) = READY
  /\ promise_of 0 ready = Some (Resolved (Some (JBool true)))
  /\ timers ready = [].
Proof. vm_compute. split_and!; done. Qed.

(** [C8]: what the code does when the warmup grace period elapses.  The
    warmup was sent by [_sendMessage], which set the state to [BUSY]; five
    seconds later the callback of the warmup timer looks for [STARTING],
    does not find it, and does nothing: the state is still [BUSY] and
    [initialize()] is still pending. *)
Theorem warmup_grace_expiry_leaves_busy :
  state (self warming) = BUSY
  /\ armed (WarmupTimer 0) warming = true
  /\ let w := run sample_parse fresh silent_warmup in
     state (self w) = BUSY
     /\ promise_of 0 w = Some Pending
     /\ pendingPromise (self w)
        = Some {| turn := 0; response := ""; startTime := 0 |}
     /\ timers w = [TurnTimer 0].
Proof. vm_compute. split_and!; done. Qed.

(** ** Shutdown *)

(** [C7]: what the code does after the exit event of a shutdown.  The
    [once('exit')] listener clears the force-kill timer only; the one-second
    timer stays armed, and when it fires it signals whatever child is
    current then: here the child a [complete()] respawned after the exit. *)
Theorem sigterm_timer_survives_exit :
  let exited := run sample_parse ready (firstn 2 shutdown_then_respawn) in
  let w := run sample_parse ready shutdown_then_respawn in
  armed (ForceKillTimer 1) exited = false
  /\ armed (SigtermTimer 1) exited = true
  /\ promise_of 1 exited = Some (Resolved None)
  /\ history w
     = [Killed 1 SIGTERM; Wrote 1 1 "Hello"; Spawned 1; ExitSeen 0; Ended 0;
        Settled 0; Wrote 0 0 "Hello"; Spawned 0].
Proof. vm_compute. split_and!; done. Qed.

(** * Further properties of the provider *)

(** ** The stream buffer, chunk after chunk *)

Lemma append_blocks_set_buffer x blocks : forall w,
  world_of (append_blocks blocks (set_stdoutBuffer x w))
  = set_stdoutBuffer x (world_of (append_blocks blocks w)).
Proof.
  induction blocks as [|b bs IH]; intros w; [done|].
  simpl. destruct b; try done;
    repeat (case_match; try done);
    unfold append_response; simpl;
    destruct (pendingPromise (self w)) as [p|];
    first [ apply IH
          | exact (IH (set_pendingPromise
                         (Some {| turn := turn p;
                                  response := response p +:+ _;
                                  startTime := startTime p |}) w)) ].
Qed.

Lemma handleMessage_set_buffer now msg x w :
  world_of (_handleMessage now msg (set_stdoutBuffer x w))
  = set_stdoutBuffer x (world_of (_handleMessage now msg w)).
Proof.
  unfold _handleMessage. simpl.
  destruct (pendingPromise (self w)) as [p|]; [|done].
  destruct msg; try done;
    repeat (case_match; try done);
    try apply append_blocks_set_buffer;
    unfold pending_resolve, pending_reject, settle_turn; simpl;
    by repeat case_match.
Qed.

Lemma deliver_set_buffer now x msgs : forall w,
  deliver now msgs (set_stdoutBuffer x w)
  = set_stdoutBuffer x (deliver now msgs w).
Proof.
  induction msgs as [|m ms IH]; intros w; [done|].
  simpl. fold (deliver now ms). by rewrite handleMessage_set_buffer, IH.
Qed.

Lemma handleStdout_unlines parse now data w lines rest :
  forallb no_newline lines = true -> no_newline rest = true ->
  stdoutBuffer (self w) +:+ data = unlines lines rest ->
  _handleStdout parse now data w
  = set_stdoutBuffer rest (deliver now (omap (decode_line parse) lines) w).
Proof.
  intros Hl Hr Heq. unfold _handleStdout.
  rewrite Heq, split_unlines by done.
  rewrite last_snoc, removelast_snoc, handle_lines_deliver.
  apply deliver_set_buffer.
Qed.

Lemma no_newline_app a b :
  no_newline a = true -> no_newline b = true -> no_newline (a +:+ b) = true.
Proof.
  induction a as [|c a IH]; [done|].
  change (no_newline (String c a +:+ b))
    with (negb (Ascii.eqb c newline) && no_newline (a +:+ b)).
  simpl. intros [-> Ha]%andb_prop Hb. by rewrite IH.
Qed.

Lemma unlines_app ls1 ls2 rest :
  unlines (ls1 ++ ls2) rest = unlines ls1 (unlines ls2 rest).
Proof. induction ls1 as [|l ls IH]; [done|]. simpl. by rewrite IH. Qed.

(** A text that ends in a partial line, followed by more text. *)
Lemma unlines_more lines rest ls r :
  unlines lines rest +:+ unlines ls r
  = match ls with
    | [] => unlines lines (rest +:+ r)
    | l :: ls' => unlines (lines ++ (rest +:+ l) :: ls') r
    end.
Proof.
  induction lines as [|x xs IH].
  - destruct ls as [|l ls']; [done|]. simpl. by rewrite string_app_assoc.
  - simpl. rewrite !string_app_assoc, IH. by destruct ls.
Qed.

(** Within one call, [_handleStdout] reads [a] followed by [b] as it reads
    [a] and then [b]. *)
Lemma handleStdout_app
  (parse : string -> option JSON) (now : Z) (a b : string) (w : World) :
  _handleStdout parse now (a +:+ b) w
  = _handleStdout parse now b (_handleStdout parse now a w).
Proof.
  destruct (every_text_has_lines (stdoutBuffer (self w) +:+ a))
    as (la & ra & Ea & Hla & Hra).
  destruct (every_text_has_lines b) as (lb & rb & Eb & Hlb & Hrb).
  rewrite (handleStdout_unlines parse now a w la ra) by done.
  assert (E : stdoutBuffer (self w) +:+ (a +:+ b)
              = unlines la ra +:+ unlines lb rb).
  { by rewrite <- string_app_assoc, Ea, Eb. }
  rewrite unlines_more in E.
  pose proof (no_newline_app ra) as Happ.
  destruct lb as [|l lb'].
  - simpl in Eb.
    rewrite (handleStdout_unlines parse now _ w la (ra +:+ rb) Hla
               (Happ rb Hra Hrb) E).
    rewrite (handleStdout_unlines parse now b _ [] (ra +:+ rb) eq_refl
               (Happ rb Hra Hrb)); [done|].
    simpl. by rewrite Eb.
  - simpl in Hlb. apply andb_prop in Hlb as [Hl Hlb'].
    assert (H1 : forallb no_newline (la ++ (ra +:+ l) :: lb') = true).
    { rewrite forallb_app. simpl. by rewrite Hla, Hlb', Happ. }
    assert (H2 : forallb no_newline ((ra +:+ l) :: lb') = true).
    { simpl. by rewrite Hlb', Happ. }
    rewrite (handleStdout_unlines parse now _ w _ rb H1 Hrb E).
    rewrite (handleStdout_unlines parse now b _ _ rb H2 Hrb).
    + rewrite omap_app, deliver_app. by rewrite deliver_set_buffer.
    + simpl. rewrite Eb. simpl. by rewrite !string_app_assoc.
Qed.

(** ** Output of the child outside a turn *)

Lemma deliver_no_turn now msgs : forall w,
  pendingPromise (self w) = None -> deliver now msgs w = w.
Proof.
  induction msgs as [|m ms IH]; intros w Hp; [done|].
  simpl. fold (deliver now ms).
  assert (E : world_of (_handleMessage now m w) = w).
  { unfold _handleMessage. by rewrite Hp. }
  rewrite E. by apply IH.
Qed.

(** [X2] Output that arrives while no turn is open is dropped: whatever the
    lines decode to, results and errors included, the chunk changes the
    stream buffer and nothing else (no statistics, no state, no promise). *)
Theorem stdout_without_turn_only_buffers
  (parse : string -> option JSON) (now : Z) (data : string) (w : World) :
  pendingPromise (self w) = None ->
  _handleStdout parse now data w
  = set_stdoutBuffer
      (List.last (split (stdoutBuffer (self w) +:+ data)) "") w.
Proof.
  intros Hp. unfold _handleStdout.
  rewrite handle_lines_deliver. by apply deliver_no_turn.
Qed.

Lemma stdout_without_turn_only_buffers_witness :
  let data := result_line "late" +:+ json_text "{'type':'err" in
  pendingPromise (self ready) = None
  /\ _handleStdout sample_parse 950 data ready
     = set_stdoutBuffer (json_text "{'type':'err") ready.
Proof.
  split; [reflexivity|].
  exact (stdout_without_turn_only_buffers sample_parse 950
           (result_line "late" +:+ json_text "{'type':'err") ready eq_refl).
Defined.

Lemma handleMessage_result now msg w p :
  pendingPromise (self w) = Some p -> turn_result msg = true ->
  world_of (_handleMessage now msg w)
  = set_state READY
      (set_pendingPromise None
         (pending_resolve p (final_response p msg)
            (set_stats (record_completion (now - startTime p)
                          (stats (self w))) w))).
Proof.
  intros Hp Hr. unfold _handleMessage, turn_result in *. rewrite Hp.
  assert (Ha : is_type (prop msg "type") "assistant" = false).
  { unfold is_type in *. destruct (prop msg "type") as [[]|]; try done.
    apply String.eqb_eq in Hr as ->. done. }
  destruct msg; try done; by rewrite Ha, Hr.
Qed.

(** [X3] The [result] message that closes a turn is the last message of the
    child that counts: whatever the child writes after it, in the same chunk
    or before the next prompt, changes nothing.  A result repeated by the
    child is not counted twice. *)
Theorem output_after_result_is_dropped
  (now : Z) (msg : JSON) (later : list JSON) (w : World) (p : PendingPromise) :
  pendingPromise (self w) = Some p ->
  turn_result msg = true ->
  deliver now (msg :: later) w = world_of (_handleMessage now msg w)
  /\ completions (stats (self (deliver now (msg :: later) w)))
     = completions (stats (self w)) + 1.
Proof.
  intros Hp Hr. simpl. fold (deliver now later).
  rewrite (handleMessage_result now msg w p Hp Hr).
  set (w1 := pending_resolve _ _ _).
  assert (E : self w1
              = with_stats (record_completion (now - startTime p)
                              (stats (self w))) (self w)).
  { unfold w1. by rewrite pending_resolve_self. }
  assert (Hn : pendingPromise (self (set_state READY
                                       (set_pendingPromise None w1))) = None)
    by done.
  rewrite (deliver_no_turn now later _ Hn). split; [done|].
  simpl. by rewrite E.
Qed.

Lemma output_after_result_is_dropped_witness :
  let p := {| turn := 1; response := ""; startTime := 1000 |} in
  let later := [result_msg "again"; error_msg "late"; fragment_msg "x"] in
  pendingPromise (self busy) = Some p
  /\ turn_result (result_msg "done") = true
  /\ deliver 1400 (result_msg "done" :: later) busy
     = world_of (_handleMessage 1400 (result_msg "done") busy)
  /\ completions (stats (self (deliver 1400 (result_msg "done" :: later) busy)))
     = completions (stats (self busy)) + 1.
Proof.
  do 2 (split; [reflexivity|]).
  exact (output_after_result_is_dropped 1400 (result_msg "done")
           [result_msg "again"; error_msg "late"; fragment_msg "x"] busy
           {| turn := 1; response := ""; startTime := 1000 |}
           eq_refl eq_refl).
Defined.

(** ** The input of a child is made of lines *)






(** The prompt with a system prompt, as the child reads it. *)
Example stdin_of_system_prompt :
  let w := run sample_parse ready
             [(1000, CallComplete "2+2?" (Some "Be brief.") (spawned_ok 0))] in
  stdin_of 0 (history w)
  = user_message "Hello" +:+ line_break
    +:+ json_text "{'type':'user','message':{'role':'user','content':"
    +:+ json_text "'Be brief.\n\n---\n\n2+2?'}}" +:+ line_break.
Proof. reflexivity. Qed.

(** ** The statistics over a run *)

Lemma record_completion_consistent elapsed st :
  stats_consistent st -> stats_consistent (record_completion elapsed st).
Proof.
  intros (Hc & He & Hs & Ha & Ht). unfold stats_consistent. simpl.
  split_and!; try lia.
  destruct (Z.eqb_spec (completions st + 1) 0); [lia|done].
Qed.

Lemma record_error_consistent st :
  stats_consistent st -> stats_consistent (record_error st).
Proof.
  intros (Hc & He & Hs & Ha & Ht). unfold stats_consistent. simpl.
  split_and!; try done; lia.
Qed.

Lemma counted_fixed w w' : fixed w' = fixed w -> counted w -> counted w'.
Proof.
  intros Hf. unfold counted.
  by rewrite (fixed_stats _ _ Hf), (fixed_children _ _ Hf).
Qed.

(** For a world that differs by fields the statistics and the number of
    children do not depend on. *)
Lemma counted_same w w' :
  stats (self w') = stats (self w) -> length (procs w') = length (procs w) ->
  counted w -> counted w'.
Proof. intros Hs Hl. unfold counted. by rewrite Hs, Hl. Qed.

Lemma startPersistentProcess_counted now c sp w :
  counted w -> counted (_startPersistentProcess now c sp w).
Proof.
  intros ((Hc & He & Hs & Ha & Ht) & Hn). unfold _startPersistentProcess.
  eapply counted_fixed; [apply sendMessage_fixed|].
  unfold counted, stats_consistent. simpl.
  rewrite length_app. simpl. split_and!; try done; lia.
Qed.

Lemma initialize_counted now c sp w :
  counted w -> counted (initialize now c sp w).
Proof.
  intros H. unfold initialize.
  repeat case_match;
    first [ by apply startPersistentProcess_counted
          | by eapply counted_fixed; [apply resume_initialize_fixed|]
          | done ].
Qed.

Lemma complete_counted now prompt sys sp w :
  counted w -> counted (complete now prompt sys sp w).
Proof.
  intros H. unfold complete, _persistentComplete.
  repeat case_match;
    first [ by apply initialize_counted
          | by eapply counted_fixed;
              [apply persistentComplete_initialized_fixed|]
          | by eapply counted_fixed; [apply settle_call_fixed|]
          | done ].
Qed.

Lemma shutdown_procs_length w : length (procs (shutdown w)) = length (procs w).
Proof.
  unfold shutdown, on_stdin_closed. simpl.
  repeat (case_match; simpl);
    rewrite ?settle_call_procs, ?length_insert; simpl;
    rewrite ?length_insert; done.
Qed.

Lemma append_blocks_procs blocks : forall w,
  procs (world_of (append_blocks blocks w)) = procs w.
Proof.
  induction blocks as [|b bs IH]; intros w; [done|].
  simpl. destruct b; try done; repeat (case_match; try done);
    rewrite IH; unfold append_response; by destruct (pendingPromise (self w)).
Qed.

Lemma settle_turn_procs t r w : procs (settle_turn t r w) = procs w.
Proof. unfold settle_turn. by repeat case_match. Qed.

Lemma handleMessage_counted now msg w :
  counted w -> counted (world_of (_handleMessage now msg w)).
Proof.
  intros [Hs Hn]. unfold _handleMessage.
  destruct (pendingPromise (self w)) as [p|]; [|done].
  assert (Hr : counted (set_stats (record_completion (now - startTime p)
                                     (stats (self w))) w)).
  { split; [by apply record_completion_consistent|done]. }
  assert (He : counted (set_stats (record_error (stats (self w))) w)).
  { split; [by apply record_error_consistent|done]. }
  destruct msg; try done;
    repeat (case_match; try done); simpl;
    try (eapply counted_same; [| |exact Hr]; simpl;
         unfold pending_resolve;
         by rewrite ?settle_turn_self, ?settle_turn_procs);
    try (eapply counted_same; [| |exact He]; simpl;
         unfold pending_reject;
         by rewrite ?settle_turn_self, ?settle_turn_procs);
    try (eapply counted_same; [| |exact (conj Hs Hn)];
         by rewrite ?append_blocks_stats, ?append_blocks_procs).
Qed.

Lemma handleStdout_counted parse now data w :
  counted w -> counted (_handleStdout parse now data w).
Proof.
  intros H. unfold _handleStdout.
  apply (fold_left_invariant counted); [|done].
  intros a line Ha. unfold handle_line.
  repeat case_match; try done. by apply handleMessage_counted.
Qed.

Lemma on_exit_procs_length h w :
  length (procs (on_exit h w)) = length (procs w).
Proof.
  unfold on_exit. repeat case_match; try done;
    match goal with |- context [fold_left shutdown_on_exit ?cs ?w0] =>
      destruct (shutdown_on_exit_fold cs w0) as (_ & _ & -> & _)
    end;
    unfold pending_reject; simpl;
    rewrite ?settle_turn_procs; simpl; by rewrite length_insert.
Qed.

Lemma fire_stats now tm w : stats (self (fire now tm w)) = stats (self w).
Proof.
  unfold fire. destruct (armed tm w); [|done].
  destruct tm; simpl; repeat case_match;
    rewrite ?(fixed_stats _ _ (settle_init_fixed _ _ _ _)),
      ?(fixed_stats _ _ (persistentComplete_woken_fixed _ _ _ _)); by frame.
Qed.

Lemma kill_procs h sig w : procs (kill h sig w) = procs w.
Proof. unfold kill. by repeat case_match. Qed.

Lemma fire_procs_length now tm w :
  length (procs (fire now tm w)) = length (procs w).
Proof.
  unfold fire. destruct (armed tm w); [|done].
  destruct tm; simpl; repeat case_match;
    rewrite ?(fixed_children _ _ (settle_init_fixed _ _ _ _)),
      ?(fixed_children _ _ (persistentComplete_woken_fixed _ _ _ _)),
      ?settle_turn_procs, ?settle_call_procs, ?kill_procs,
      ?settle_calls_procs; simpl;
    rewrite ?settle_calls_procs, ?kill_procs; done.
Qed.

Lemma anthropicAPI_counted now c r w :
  counted w -> counted (_anthropicAPI now c r w).
Proof.
  intros [Hs Hn]. unfold _anthropicAPI.
  repeat (case_match; try done);
    (eapply counted_same;
     [rewrite settle_call_self; reflexivity
     |rewrite settle_call_procs; reflexivity|]);
    split; simpl; try done;
    auto using record_completion_consistent, record_error_consistent.
Qed.

Lemma handle_counted parse now ev w :
  counted w -> counted (handle parse now ev w).
Proof.
  intros H. destruct ev; simpl.
  - by apply complete_counted.
  - unfold call_initialize. by apply initialize_counted.
  - eapply counted_same; [|apply shutdown_procs_length|done].
    by rewrite shutdown_self.
  - case_match; [|done]. by apply handleStdout_counted.
  - eapply counted_same; [apply on_exit_stats|apply on_exit_procs_length|done].
  - eapply counted_same; [apply on_error_stats| |done].
    unfold on_error. repeat case_match; try done;
      rewrite (fixed_children _ _ (settle_init_fixed _ _ _ _)); simpl;
      by rewrite ?settle_calls_procs, ?settle_call_procs.
  - eapply counted_same; [|  |done].
    + by rewrite on_stdin_closed_self.
    + unfold on_stdin_closed. case_match; [|done]. simpl.
      by rewrite length_insert.
  - eapply counted_same; [apply fire_stats|apply fire_procs_length|done].
  - by apply anthropicAPI_counted.
Qed.

Lemma step_counted parse now ev w :
  counted w -> counted (step parse now ev w).
Proof.
  intros H. unfold step.
  eapply counted_fixed; [apply drain_fixed|]. by apply handle_counted.
Qed.

Lemma run_counted parse tasks : forall w,
  counted w -> counted (run parse w tasks).
Proof.
  induction tasks as [|[now ev] tasks IH]; intros w H; [done|].
  simpl. by apply IH, step_counted.
Qed.

Lemma new_world_counted config host_listens :
  counted (new_world config host_listens).
Proof. unfold counted, stats_consistent. simpl. split_and!; done. Qed.

(** [X5] Whatever the host, the children and the timers do, the statistics
    of a provider stay coherent: no counter is negative, and [avgTimeMs] is
    [Math.round(totalTimeMs / completions)] (0, like the total, while
    nothing has completed).  This holds in both modes and also when the
    clock steps back. *)
Theorem statistics_stay_consistent
  (parse : string -> option JSON) (config : Config) (host_listens : bool)
  (tasks : list (Z * Event)) :
  stats_consistent
    (stats (self (run parse (new_world config host_listens) tasks))).
Proof. apply run_counted, new_world_counted. Qed.

(** [X6] [stats.coldStarts] is the number of children spawned so far: every
    [spawn] is counted, also one that fails, and nothing else is. *)
Theorem cold_starts_count_children
  (parse : string -> option JSON) (config : Config) (host_listens : bool)
  (tasks : list (Z * Event)) :
  let w := run parse (new_world config host_listens) tasks in
  coldStarts (stats (self w)) = Z.of_nat (length (procs w)).
Proof. apply run_counted, new_world_counted. Qed.

(** ** [complete()] on a provider that is [READY] without a usable child *)

(** [X7] [READY] does not mean that the child can be written to.  When the
    state is [READY] and there is no child whose input is writable (its
    input was closed, by [shutdown()] or by the child, or the handle is
    gone), [complete()] is rejected with "Process not running", and that is
    all: nothing is spawned, the state stays [READY], so the next call fails
    in the same way. *)
Theorem complete_without_stdin_is_rejected
  (parse : string -> option JSON) (now : Z) (prompt : string)
  (systemPrompt : option string) (sp : SpawnResult) (w : World) :
  mode (self w) = persistent ->
  state (self w) = READY ->
  writable_process w = None ->
  jobs w = [] ->
  let c := length (calls w) in
  let w' := step parse now (CallComplete prompt systemPrompt sp) w in
  calls w'
  = calls w ++ [{| kind := KComplete (full_prompt prompt systemPrompt);
                   promise := Rejected "Process not running" |}]
  /\ turns w'
     = turns w ++ [{| owner := Caller c;
                      outcome := Rejected "Process not running" |}]
  /\ self w' = self w /\ procs w' = procs w /\ timers w' = timers w
  /\ history w' = history w /\ jobs w' = []
  /\ isReady w' = true.
Proof.
  intros Hm Hs Hw Hj c w'. subst w'. unfold step. simpl.
  unfold complete. rewrite Hm. simpl.
  unfold _persistentComplete, _persistentComplete_initialized,
    _persistentComplete_woken. simpl. rewrite Hs.
  unfold _sendMessage.
  change (writable_process (add_call _ w)) with (writable_process w).
  rewrite Hw. simpl.
  rewrite (drain_caller_turn now _ (length (turns w)) c
             (Rejected "Process not running")); simpl.
  - fold c. rewrite (settle_call_pending c
      {| kind := KComplete (full_prompt prompt systemPrompt);
         promise := Pending |}); simpl.
    + rewrite insert_app_r_alt by done. unfold c. rewrite Nat.sub_diag.
      unfold isReady. simpl. by rewrite Hm, Hs.
    + rewrite lookup_app_r by done. unfold c. by rewrite Nat.sub_diag.
    + done.
  - by rewrite Hj.
  - rewrite lookup_app_r by done. by rewrite Nat.sub_diag.
  - done.
Qed.

(** After [shutdown()] has closed the input of the child, and until the
    child exits. *)
Lemma complete_without_stdin_is_rejected_witness :
  let w := run sample_parse ready [(2000, CallShutdown)] in
  let w' := step sample_parse 2100 (CallComplete "hello" None (spawned_ok 42))
              w in
  mode (self w) = persistent /\ state (self w) = READY
  /\ writable_process w = None /\ jobs w = []
  /\ promise_of 2 w' = Some (Rejected "Process not running")
  /\ procs w' = procs w /\ isReady w' = true.
Proof.
  do 4 (split; [reflexivity|]).
  pose proof (complete_without_stdin_is_rejected sample_parse 2100 "hello"
                None (spawned_ok 42)
                (run sample_parse ready [(2000, CallShutdown)])
                eq_refl eq_refl eq_refl eq_refl)
    as (Hc & _ & _ & Hp & _ & _ & _ & Hr).
  split; [|by split].
  unfold promise_of. by rewrite Hc.
Defined.

(** ** A caller parked on the poll interval *)


Lemma settle_call_other c c' r w :
  c' <> c -> promise_of c' (settle_call c r w) = promise_of c' w.
Proof.
  intros Hne. unfold promise_of, settle_call.
  destruct (calls w !! c) as [cl|]; [|done].
  destruct (promise cl); try done. simpl.
  by rewrite list_lookup_insert_ne.
Qed.



(** ** [initialize()] outside [STOPPED] and [READY] *)

(** [X9] [initialize()] spawns a child in every state but [READY] and
    [STARTING]; it does not look at the child it has.  Called while a turn
    is open ([BUSY]), it replaces the child and the pending turn by a new
    child and its warmup: the child it had is neither signalled nor closed,
    and the turn that was open stays open, no longer the pending one, so
    that nothing but its timeout can settle it.  Two turns are then open. *)
Theorem initialize_while_busy_opens_second_turn
  (now : Z) (sp : SpawnResult) (w : World) (p : PendingPromise) :
  mode (self w) = persistent ->
  state (self w) = BUSY ->
  pendingPromise (self w) = Some p ->
  open_turn w (turn p) ->
  spawn_writable sp = true ->
  let h := length (procs w) in
  let t := length (turns w) in
  let w' := call_initialize now sp w in
  process (self w') = Some h
  /\ history w' = Wrote h t "Hello" :: Spawned h :: history w
  /\ slot_turn w' = Some t
  /\ open_turn w' t /\ open_turn w' (turn p) /\ turn p <> t
  /\ coldStarts (stats (self w')) = coldStarts (stats (self w)) + 1.
Proof.
  intros Hm Hs Hp Ho Hsp h t w'. subst w'.
  assert (Hlt : (turn p < t)%nat).
  { apply open_turn_lookup in Ho as (tr & Ht & _). by eapply lookup_lt_Some. }
  unfold call_initialize, initialize. simpl. rewrite Hm, Hs.
  unfold _startPersistentProcess, _sendMessage, writable_process. simpl.
  rewrite lookup_app_r by done. rewrite Nat.sub_diag. simpl. rewrite Hsp.
  simpl. fold h t. unfold open_turn, outcome_of, slot_turn in *. simpl.
  split_and!; try done.
  - rewrite lookup_app_r by done. unfold t. by rewrite Nat.sub_diag.
  - by rewrite lookup_app_l.
  - lia.
Qed.

Lemma initialize_while_busy_opens_second_turn_witness :
  let p := {| turn := 1; response := ""; startTime := 1000 |} in
  let w' := call_initialize 1200 (spawned_ok 42) busy in
  mode (self busy) = persistent /\ state (self busy) = BUSY
  /\ pendingPromise (self busy) = Some p
  /\ process (self w') = Some 1%nat
  /\ history w' = Wrote 1 2 "Hello" :: Spawned 1 :: history busy
  /\ open_turn w' 2 /\ open_turn w' 1.
Proof.
  do 3 (split; [reflexivity|]).
  pose proof (initialize_while_busy_opens_second_turn 1200 (spawned_ok 42)
                busy {| turn := 1; response := ""; startTime := 1000 |}
                eq_refl eq_refl eq_refl eq_refl eq_refl)
    as (H1 & H2 & _ & H4 & H5 & _).
  by split_and!.
Defined.

(** ** The cold start of a [complete()] call *)

(** [X10] A [complete()] call that found the provider [STOPPED] has spawned
    the child and waits for its warmup.  In the task that brings the result
    of the warmup, the warmup is counted as a completion, the provider is
    made [READY], and the call, resumed, sends its own prompt at once: when
    the task ends the state is [BUSY] again, the pending turn is the turn of
    the call, and the call is still pending. *)
Theorem warmup_result_sends_the_prompt
  (now : Z) (msg : JSON) (w : World) (p : PendingPromise) (h : nat)
  (pr : Proc) (fullPrompt : string) :
  jobs w = [] -> readyOnce w = [] ->
  pendingPromise (self w) = Some p ->
  turns w !! turn p = Some {| owner := Warmup h; outcome := Pending |} ->
  process (self w) = Some h ->
  procs w !! h = Some pr -> stdinWritable pr = true -> init pr = Pending ->
  calls w !! initCall pr
  = Some {| kind := KComplete fullPrompt; promise := Pending |} ->
  turn_result msg = true ->
  let t := length (turns w) in
  let w' := drain now (world_of (_handleMessage now msg w)) in
  history w' = Wrote h t fullPrompt :: Settled (turn p) :: history w
  /\ state (self w') = BUSY
  /\ pendingPromise (self w')
     = Some {| turn := t; response := ""; startTime := now |}
  /\ outcome_of t w' = Some Pending
  /\ promise_of (initCall pr) w' = Some Pending
  /\ completions (stats (self w')) = completions (stats (self w)) + 1
  /\ armed (WarmupTimer h) w' = false
  /\ jobs w' = [].
Proof.
  intros Hj Hr Hp Ht Hproc Hh Hw Hi Hc Hm t w'. subst w'.
  assert (Hlt : (turn p < length (turns w))%nat) by (by eapply lookup_lt_Some).
  assert (Hh' : (h < length (procs w))%nat) by (by eapply lookup_lt_Some).
  eassert (E : drain now (world_of (_handleMessage now msg w)) = _).
  { rewrite (handleMessage_result now msg w p Hp Hm).
    unfold pending_resolve.
    rewrite (settle_turn_pending _ {| owner := Warmup h; outcome := Pending |})
      by done.
    unfold drain, run_jobs at 2. simpl. rewrite Hj. simpl.
    unfold react. simpl.
    rewrite list_lookup_insert_eq by done. simpl.
    unfold warmup_then, emit_ready. simpl. rewrite Hr. simpl.
    unfold settle_init. simpl. rewrite Hh, Hi. simpl.
    unfold resume_initialize. simpl. rewrite Hc. simpl.
    unfold _persistentComplete_initialized, _persistentComplete_woken. simpl.
    unfold _sendMessage, writable_process. simpl. rewrite Hproc.
    rewrite list_lookup_insert_eq by done. simpl. rewrite Hw. simpl.
    rewrite length_insert. fold t.
    rewrite run_jobs_idle by done. reflexivity. }
  rewrite E. clear E.
  unfold outcome_of, promise_of, armed. simpl. rewrite Hc. simpl.
  split_and!; try done.
  - rewrite lookup_app_r by (by rewrite length_insert).
    rewrite length_insert. unfold t. by rewrite Nat.sub_diag.
  - apply bool_decide_eq_false. rewrite elem_of_cons.
    intros [?|Hin]; [done|].
    apply list_elem_of_filter in Hin as [Hne _]. done.
Qed.

Lemma warmup_result_sends_the_prompt_witness :
  let w := run sample_parse fresh (firstn 1 two_callers) in
  let w' := drain 900 (world_of (_handleMessage 900 (result_msg "Hello!") w)) in
  state (self w) = BUSY
  /\ promise_of 0 w = Some Pending
  /\ history w' = Wrote 0 1 "first" :: Settled 0 :: history w
  /\ state (self w') = BUSY
  /\ promise_of 0 w' = Some Pending
  /\ completions (stats (self w')) = 1.
Proof.
  do 2 (split; [reflexivity|]).
  pose proof (warmup_result_sends_the_prompt 900 (result_msg "Hello!")
                (run sample_parse fresh (firstn 1 two_callers))
                {| turn := 0; response := ""; startTime := 0 |} 0%nat
                {| pid := Some 41%nat; stdinWritable := true; exited := false;
                   exitOnce := []; initCall := 0%nat; init := Pending |}
                "first"
                eq_refl eq_refl eq_refl eq_refl eq_refl eq_refl eq_refl
                eq_refl eq_refl eq_refl)
    as (H1 & H2 & _ & _ & H5 & H6 & _).
  by split_and!.
Defined.

(** ** Deadlines and signals *)

(** Strips an update of a field the predicate at hand does not read. *)
Ltac peel :=
  match goal with
  | |- ?P (on_self _ ?w) => change (P w)
  | |- ?P (set_state _ ?w) => change (P w)
  | |- ?P (set_process _ ?w) => change (P w)
  | |- ?P (set_stdoutBuffer _ ?w) => change (P w)
  | |- ?P (set_pendingPromise _ ?w) => change (P w)
  | |- ?P (set_stats _ ?w) => change (P w)
  | |- ?P (set_procs _ ?w) => change (P w)
  | |- ?P (set_turns _ ?w) => change (P w)
  | |- ?P (set_calls _ ?w) => change (P w)
  | |- ?P (set_timers _ ?w) => change (P w)
  | |- ?P (set_readyOnce _ ?w) => change (P w)
  | |- ?P (set_errorOnce _ ?w) => change (P w)
  | |- ?P (set_jobs _ ?w) => change (P w)
  | |- ?P (observe _ ?w) => change (P w)
  | |- ?P (setTimeout _ ?w) => change (P w)
  | |- ?P (clearTimeout _ ?w) => change (P w)
  | |- ?P (add_call _ ?w) => change (P w)
  end.

Lemma settle_call_kind c r w c' :
  kind <$> calls (settle_call c r w) !! c' = kind <$> calls w !! c'.
Proof.
  unfold settle_call. destruct (calls w !! c) as [cl|] eqn:E; [|done].
  destruct (promise cl); try done. simpl.
  destruct (decide (c' = c)) as [->|Hne].
  - rewrite list_lookup_insert_eq by (by eapply lookup_lt_Some).
    by rewrite E.
  - by rewrite list_lookup_insert_ne.
Qed.

Lemma settle_call_still_pending c r w c' :
  promise_of c' (settle_call c r w) = Some Pending ->
  promise_of c' w = Some Pending.
Proof.
  destruct (decide (c' = c)) as [->|Hne].
  - unfold promise_of, settle_call.
    destruct (calls w !! c) as [cl|] eqn:E; [|by rewrite E].
    destruct (promise cl) eqn:Ep; rewrite ?E; simpl; rewrite ?Ep; try done.
    intros _. f_equal. exact Ep.
  - by rewrite settle_call_other.
Qed.

Lemma orderly_settle_call c r w : Orderly w -> Orderly (settle_call c r w).
Proof.
  intros (H1 & H2 & H3 & H4).
  unfold Orderly, shutdown_call, open_turn, outcome_of.
  rewrite settle_call_turns, settle_call_timers, settle_call_history.
  split_and!; try done.
  - intros c' Hk Hp. rewrite settle_call_kind in Hk.
    apply settle_call_still_pending in Hp. by apply H2.
  - intros c' Htm. rewrite settle_call_kind. by apply H3.
  - intros o Hin. specialize (H4 o Hin). destruct o; try done;
      destruct H4 as [c' Hc']; exists c'; by rewrite settle_call_kind.
Qed.

Lemma orderly_settle_calls cs r w : Orderly w -> Orderly (settle_calls cs r w).
Proof.
  intros H. unfold settle_calls.
  apply (fold_left_invariant Orderly); [|done].
  intros a b Ha. by apply orderly_settle_call.
Qed.

Lemma orderly_emit_ready w : Orderly w -> Orderly (emit_ready w).
Proof. intros H. unfold emit_ready. peel. by apply orderly_settle_calls. Qed.

Lemma orderly_observe o w : harmless o -> Orderly w -> Orderly (observe o w).
Proof.
  intros Ho (H1 & H2 & H3 & H4). split_and!; try done.
  intros o' [<-|Hin]; [by destruct o|]. by apply H4.
Qed.

Lemma orderly_setTimeout tm w :
  plain_timer tm -> Orderly w -> Orderly (setTimeout tm w).
Proof.
  intros Htm (H1 & H2 & H3 & H4). split_and!; try done.
  - intros t Ho. apply elem_of_cons. right. by apply H1.
  - intros c Hk Hp. apply elem_of_cons. right. by apply H2.
  - intros c. simpl. rewrite !elem_of_cons.
    intros [[E|Hin]|[E|Hin]]; try (subst tm; by destruct Htm); apply H3; auto.
Qed.

Lemma orderly_clearTimeout tm w :
  plain_timer tm -> Orderly w -> Orderly (clearTimeout tm w).
Proof.
  intros Htm (H1 & H2 & H3 & H4). split_and!; try done.
  - intros t Ho. apply list_elem_of_filter. split; [by destruct tm|].
    by apply H1.
  - intros c Hk Hp. apply list_elem_of_filter. split; [by destruct tm|].
    by apply H2.
  - intros c. simpl. rewrite !list_elem_of_filter.
    intros [[_ Hin]|[_ Hin]]; apply H3; auto.
Qed.

Lemma lookup_outcome (l : list Turn) t tr :
  l !! t = Some tr -> outcome <$> l !! t = Some Pending ->
  outcome tr = Pending.
Proof. intros ->. simpl. intros [= H]. exact H. Qed.

Lemma lookup_no_outcome (l : list Turn) t :
  l !! t = None -> outcome <$> l !! t = Some Pending -> False.
Proof. by intros ->. Qed.

(** Settling a turn and clearing its timeout. *)
Lemma orderly_close t r w :
  is_settled r = true -> Orderly w ->
  Orderly (settle_turn t r (clearTimeout (TurnTimer t) w)).
Proof.
  intros Hr (H1 & H2 & H3 & H4).
  assert (Hkeep : forall tm,
            tm ∈ timers w -> tm <> TurnTimer t ->
            tm ∈ filter (fun x => x <> TurnTimer t) (timers w)).
  { intros tm Hin Hne. by apply list_elem_of_filter. }
  assert (Hopen : forall t', open_turn (settle_turn t r (clearTimeout
                                                           (TurnTimer t) w)) t'
                             -> open_turn w t' /\ t' <> t).
  { intros t'. unfold open_turn, outcome_of, settle_turn. simpl.
    destruct (turns w !! t) as [tr|] eqn:E.
    - destruct (outcome tr) eqn:Eo; simpl.
      + destruct (decide (t' = t)) as [->|Hne].
        * rewrite list_lookup_insert_eq by (by eapply lookup_lt_Some).
          simpl. intros [= ->]. done.
        * by rewrite list_lookup_insert_ne.
      + intros Ho. split; [done|]. intros ->.
        pose proof (lookup_outcome _ _ _ E Ho) as X.
        pose proof (eq_trans (eq_sym X) Eo). done.
      + intros Ho. split; [done|]. intros ->.
        pose proof (lookup_outcome _ _ _ E Ho) as X.
        pose proof (eq_trans (eq_sym X) Eo). done.
    - intros Ho. split; [done|]. intros ->.
      pose proof (lookup_no_outcome _ _ E Ho). done. }
  assert (Hsame : forall w0, calls (settle_turn t r w0) = calls w0
                             /\ timers (settle_turn t r w0) = timers w0).
  { intros w0. unfold settle_turn. by repeat case_match. }
  assert (Hhist : forall o, In o (history (settle_turn t r (clearTimeout
                                                              (TurnTimer t) w)))
                            -> In o (history w) \/ harmless o).
  { intros o. unfold settle_turn. simpl. repeat case_match; simpl; auto.
    intros [<-|Hin]; [by right|by left]. }
  unfold Orderly, shutdown_call, promise_of.
  destruct (Hsame (clearTimeout (TurnTimer t) w)) as [-> ->]. simpl.
  split_and!.
  - intros t' Ho. apply Hopen in Ho as [Ho Hne].
    apply Hkeep; [by apply H1|congruence].
  - intros c Hk Hp. apply Hkeep; [by apply H2|done].
  - intros c. rewrite !list_elem_of_filter.
    intros [[_ Hin]|[_ Hin]]; apply H3; auto.
  - intros o Hin. apply Hhist in Hin as [Hin|Ho]; [by apply H4|].
    by destruct o.
Qed.

Lemma orderly_pending_resolve p v w :
  Orderly w -> Orderly (pending_resolve p v w).
Proof. intros H. by apply orderly_close. Qed.

Lemma orderly_pending_reject p e w :
  Orderly w -> Orderly (pending_reject p e w).
Proof. intros H. by apply orderly_close. Qed.

Lemma lookup_promise (l : list Call) c cl :
  l !! c = Some cl -> promise <$> l !! c = Some Pending ->
  promise cl = Pending.
Proof. intros ->. simpl. intros [= H]. exact H. Qed.

Lemma lookup_no_promise (l : list Call) c :
  l !! c = None -> promise <$> l !! c = Some Pending -> False.
Proof. by intros ->. Qed.

Lemma settle_call_not_pending c r w :
  is_settled r = true -> promise_of c (settle_call c r w) = Some Pending ->
  False.
Proof.
  intros Hr. unfold promise_of, settle_call.
  destruct (calls w !! c) as [cl|] eqn:E.
  - destruct (promise cl) eqn:Ep.
    + simpl. rewrite list_lookup_insert_eq by (by eapply lookup_lt_Some).
      simpl. intros [= ->]. done.
    + intros Hp. pose proof (lookup_promise _ _ _ E Hp) as X.
      pose proof (eq_trans (eq_sym X) Ep). done.
    + intros Hp. pose proof (lookup_promise _ _ _ E Hp) as X.
      pose proof (eq_trans (eq_sym X) Ep). done.
  - intros Hp. by apply (lookup_no_promise _ _ E) in Hp.
Qed.

(** Resolving a [shutdown()] call and clearing its force-kill timer. *)
Lemma orderly_finish c w :
  Orderly w ->
  Orderly (settle_call c (Resolved None) (clearTimeout (ForceKillTimer c) w)).
Proof.
  intros (H1 & H2 & H3 & H4).
  unfold Orderly, shutdown_call, open_turn, outcome_of.
  rewrite settle_call_turns, settle_call_timers, settle_call_history. simpl.
  split_and!.
  - intros t Ho. apply list_elem_of_filter. split; [done|]. by apply H1.
  - intros c' Hk Hp. rewrite settle_call_kind in Hk.
    assert (c' <> c).
    { intros ->. by apply (settle_call_not_pending c (Resolved None)) in Hp. }
    apply settle_call_still_pending in Hp.
    apply list_elem_of_filter. split; [congruence|]. by apply H2.
  - intros c'. rewrite settle_call_kind, !list_elem_of_filter.
    intros [[_ Hin]|[_ Hin]]; apply H3; auto.
  - intros o Hin. specialize (H4 o Hin). destruct o; try done;
      destruct H4 as [c' Hc']; exists c'; by rewrite settle_call_kind.
Qed.

Lemma orderly_kill h sig w :
  (exists c, shutdown_call w c) -> Orderly w -> Orderly (kill h sig w).
Proof.
  intros Hc (H1 & H2 & H3 & H4). unfold kill.
  repeat case_match; try done.
  split_and!; try done. intros o [<-|Hin]; [done|]. by apply H4.
Qed.

Lemma orderly_sendMessage now who content w :
  Orderly w -> Orderly (_sendMessage now who content w).
Proof.
  intros (H1 & H2 & H3 & H4). unfold _sendMessage.
  assert (Hold : forall ts t, outcome <$> (turns w ++ ts) !! t = Some Pending ->
                   (t < length (turns w))%nat -> TurnTimer t ∈ timers w).
  { intros ts t Ho Hlt. rewrite lookup_app_l in Ho by done. by apply H1. }
  destruct (writable_process w) as [h|].
  - unfold Orderly, shutdown_call, promise_of, open_turn, outcome_of. simpl.
    split_and!.
    + intros t Ho. apply elem_of_cons.
      destruct (decide (t < length (turns w))%nat); [right; by eapply Hold|].
      left. destruct (decide (t = length (turns w))) as [->|]; [done|].
      rewrite lookup_ge_None_2 in Ho; [done|]. rewrite length_app. simpl. lia.
    + intros c Hk Hp. apply elem_of_cons. right. by apply H2.
    + intros c. rewrite !elem_of_cons.
      intros [[?|Hin]|[?|Hin]]; try done; apply H3; auto.
    + intros o [<-|Hin]; [done|]. by apply H4.
  - unfold Orderly, shutdown_call, promise_of, open_turn, outcome_of. simpl.
    split_and!; try done.
    intros t Ho.
    destruct (decide (t < length (turns w))%nat); [by eapply Hold|].
    destruct (decide (t = length (turns w))) as [->|].
    + rewrite lookup_app_r in Ho by done. by rewrite Nat.sub_diag in Ho.
    + rewrite lookup_ge_None_2 in Ho; [done|]. rewrite length_app. simpl. lia.
Qed.

(** The pieces above, tried in turn. *)
Ltac orderly :=
  repeat first
    [ assumption
    | progress peel
    | apply orderly_settle_call
    | apply orderly_settle_calls
    | apply orderly_emit_ready
    | apply orderly_pending_resolve
    | apply orderly_pending_reject
    | apply orderly_sendMessage
    | apply orderly_observe; [exact I|]
    | apply orderly_setTimeout; [exact I|]
    | apply orderly_clearTimeout; [exact I|] ].

Lemma orderly_woken now c prompt w :
  Orderly w -> Orderly (_persistentComplete_woken now c prompt w).
Proof. intros H. unfold _persistentComplete_woken. case_match; orderly. Qed.

Lemma orderly_initialized now c prompt w :
  Orderly w -> Orderly (_persistentComplete_initialized now c prompt w).
Proof.
  intros H. unfold _persistentComplete_initialized.
  case_match; try (by apply orderly_woken). orderly.
Qed.

Lemma orderly_resume now c r w :
  Orderly w -> Orderly (resume_initialize now c r w).
Proof.
  intros H. unfold resume_initialize.
  repeat case_match; try (by apply orderly_initialized); orderly.
Qed.

Lemma orderly_settle_init now h r w :
  Orderly w -> Orderly (settle_init now h r w).
Proof.
  intros H. unfold settle_init.
  repeat case_match; try done; apply orderly_resume; orderly.
Qed.

Lemma orderly_start now c sp w :
  Orderly w -> Orderly (_startPersistentProcess now c sp w).
Proof. intros H. unfold _startPersistentProcess. orderly. Qed.

Lemma orderly_react now t w : Orderly w -> Orderly (react now t w).
Proof.
  intros H. unfold react, warmup_then, warmup_catch.
  repeat case_match; try done;
    first [ apply orderly_settle_init; orderly | orderly ].
Qed.

Lemma orderly_run_jobs now w : Orderly w -> Orderly (run_jobs now w).
Proof.
  intros H. unfold run_jobs.
  apply (fold_left_invariant Orderly); [|by peel].
  intros a b Ha. by apply orderly_react.
Qed.

Lemma orderly_drain now w : Orderly w -> Orderly (drain now w).
Proof. intros H. unfold drain. by do 2 apply orderly_run_jobs. Qed.

Lemma orderly_append_blocks blocks : forall w,
  Orderly w -> Orderly (world_of (append_blocks blocks w)).
Proof.
  induction blocks as [|b bs IH]; intros w H; [done|].
  simpl. destruct b; try done; repeat (case_match; try done);
    apply IH; unfold append_response; try case_match; orderly.
Qed.

Lemma orderly_handleMessage now msg w :
  Orderly w -> Orderly (world_of (_handleMessage now msg w)).
Proof.
  intros H. unfold _handleMessage.
  destruct (pendingPromise (self w)) as [p|]; [|done].
  destruct msg; try done; repeat (case_match; try done); simpl;
    first [ by apply orderly_append_blocks | orderly ].
Qed.

Lemma orderly_handleStdout parse now data w :
  Orderly w -> Orderly (_handleStdout parse now data w).
Proof.
  intros H. unfold _handleStdout.
  apply (fold_left_invariant Orderly); [|by peel].
  intros a line Ha. unfold handle_line.
  repeat case_match; try done. by apply orderly_handleMessage.
Qed.

Lemma orderly_shutdown_on_exit w c :
  Orderly w -> Orderly (shutdown_on_exit w c).
Proof.
  intros H. unfold shutdown_on_exit.
  change (Orderly (settle_call c (Resolved None)
                     (clearTimeout (ForceKillTimer c)
                        (set_state STOPPED (set_process None w))))).
  apply orderly_finish. orderly.
Qed.

Lemma orderly_on_exit h w : Orderly w -> Orderly (on_exit h w).
Proof.
  intros H. unfold on_exit. repeat case_match; try done;
    (apply (fold_left_invariant Orderly);
     [ intros a c Ha; by apply orderly_shutdown_on_exit | orderly ]).
Qed.

Lemma orderly_on_error now h message w :
  Orderly w -> Orderly (on_error now h message w).
Proof.
  intros H. unfold on_error.
  repeat case_match; try done;
    first [ apply orderly_settle_init; orderly | orderly ].
Qed.

Lemma orderly_on_stdin_closed h w : Orderly w -> Orderly (on_stdin_closed h w).
Proof. intros H. unfold on_stdin_closed. case_match; orderly. Qed.

Lemma orderly_fire now tm w : Orderly w -> Orderly (fire now tm w).
Proof.
  intros H. unfold fire. destruct (armed tm w) eqn:Ha; [|done].
  apply bool_decide_eq_true in Ha.
  destruct tm as [t|h|c|c|c].
  - change (Orderly (settle_turn t
                       (Rejected ("Timeout after "
                                  +:+ pretty (timeout (self w)) +:+ "ms"))
                       (clearTimeout (TurnTimer t)
                          (set_state READY (set_pendingPromise None w))))).
    apply orderly_close; [done|]. orderly.
  - simpl. case_match; orderly. apply orderly_settle_init. orderly.
  - simpl. case_match; orderly. apply orderly_woken. orderly.
  - assert (Hc : exists c', shutdown_call w c').
    { exists c. apply H. auto. }
    assert (Hk : forall h, Orderly (kill h SIGKILL
                                      (set_state STOPPED
                                         (set_process None w)))).
    { intros h. apply orderly_kill; [done|]. orderly. }
    simpl. destruct (process (self w)) as [h|].
    + specialize (Hk h). unfold kill in *. simpl in *.
      destruct (procs w !! h) as [pr|]; [destruct (exited pr)|];
        first [ exact (orderly_finish c _ Hk) ].
    + apply (orderly_finish c (set_state STOPPED (set_process None w))).
      orderly.
  - assert (Hc : exists c', shutdown_call w c').
    { exists c. apply H. auto. }
    assert (Hclear : Orderly (clearTimeout (SigtermTimer c) w)).
    { destruct H as (H1 & H2 & H3 & H4). split_and!; try done.
      - intros t Ho. apply list_elem_of_filter. split; [done|]. by apply H1.
      - intros c' Hk Hp. apply list_elem_of_filter. split; [done|].
        by apply H2.
      - intros c'. simpl. rewrite !list_elem_of_filter.
        intros [[_ Hin]|[_ Hin]]; apply H3; auto. }
    simpl. destruct (process (self w)) as [h|]; [|done].
    by apply orderly_kill.
Qed.

Lemma orderly_add_call k w :
  k <> KShutdown -> Orderly w -> Orderly (add_call k w).
Proof.
  intros Hk (H1 & H2 & H3 & H4).
  assert (Hold : forall c,
            shutdown_call (add_call k w) c <-> shutdown_call w c).
  { intros c. unfold shutdown_call, add_call. simpl.
    destruct (decide (c < length (calls w))%nat).
    - by rewrite lookup_app_l.
    - destruct (decide (c = length (calls w))) as [->|].
      + rewrite lookup_app_r, Nat.sub_diag by lia.
        rewrite (lookup_ge_None_2 (calls w)) by lia. simpl.
        split; [by intros [= ?]|done].
      + rewrite !lookup_ge_None_2; [done|lia|rewrite length_app; simpl; lia]. }
  split_and!; try done.
  - intros c Hc Hp. apply Hold in Hc. apply H2; [done|].
    unfold promise_of, shutdown_call, add_call in *. simpl in Hp.
    rewrite lookup_app_l in Hp; [done|].
    apply lookup_lt_is_Some. by destruct (calls w !! c).
  - intros c Htm. apply Hold. by apply H3.
  - intros o Hin. specialize (H4 o Hin).
    destruct o; try done; destruct H4 as [c Hc]; exists c; by apply Hold.
Qed.

Lemma orderly_initialize now c sp w :
  Orderly w -> Orderly (initialize now c sp w).
Proof.
  intros H. unfold initialize.
  repeat case_match;
    first [ by apply orderly_resume | by apply orderly_start | orderly ].
Qed.

Lemma orderly_complete now prompt sys sp w :
  Orderly w -> Orderly (complete now prompt sys sp w).
Proof.
  intros H. unfold complete, _persistentComplete.
  repeat case_match;
    first [ apply orderly_initialize | apply orderly_initialized
          | apply orderly_settle_call | idtac ];
    by apply orderly_add_call.
Qed.

Lemma orderly_call_initialize now sp w :
  Orderly w -> Orderly (call_initialize now sp w).
Proof.
  intros H. unfold call_initialize.
  by apply orderly_initialize, orderly_add_call.
Qed.

Lemma orderly_anthropicAPI now c r w :
  Orderly w -> Orderly (_anthropicAPI now c r w).
Proof. intros H. unfold _anthropicAPI. repeat case_match; orderly. Qed.

(** [shutdown()]: the new call is resolved at once, or has its two timers
    armed. *)
Lemma orderly_shutdown w : Orderly w -> Orderly (shutdown w).
Proof.
  intros (H1 & H2 & H3 & H4). set (c := length (calls w)).
  assert (Hnew : shutdown_call (add_call KShutdown w) c).
  { unfold shutdown_call, c. by rewrite add_call_lookup. }
  assert (Hold : forall c', shutdown_call w c' ->
                            shutdown_call (add_call KShutdown w) c').
  { intros c'. unfold shutdown_call, add_call. simpl. intros Hc.
    rewrite lookup_app_l; [done|].
    apply lookup_lt_is_Some. by destruct (calls w !! c'). }
  assert (Hpend : forall c', promise_of c' (add_call KShutdown w) = Some Pending
                             -> c' = c \/ promise_of c' w = Some Pending).
  { intros c'. unfold promise_of, add_call. simpl.
    destruct (decide (c' < length (calls w))%nat).
    - rewrite lookup_app_l by done. auto.
    - destruct (decide (c' = length (calls w))) as [->|]; [auto|].
      rewrite lookup_ge_None_2; [done|]. rewrite length_app. simpl. lia. }
  assert (Hkind : forall c', shutdown_call (add_call KShutdown w) c' ->
                             c' = c \/ shutdown_call w c').
  { intros c'. unfold shutdown_call, add_call. simpl.
    destruct (decide (c' < length (calls w))%nat).
    - rewrite lookup_app_l by done. auto.
    - destruct (decide (c' = length (calls w))) as [->|]; [auto|].
      rewrite lookup_ge_None_2; [done|]. rewrite length_app. simpl. lia. }
  assert (Hadded : Orderly (settle_call c (Resolved None)
                              (add_call KShutdown w))).
  { unfold Orderly, shutdown_call, open_turn, outcome_of.
    rewrite settle_call_turns, settle_call_timers, settle_call_history.
    split_and!; try done.
    - intros c' Hk Hp. rewrite settle_call_kind in Hk.
      destruct (decide (c' = c)) as [->|Hne].
      + by apply settle_call_not_pending in Hp.
      + rewrite settle_call_other in Hp by done.
        apply Hpend in Hp as [?|Hp]; [done|].
        apply Hkind in Hk as [?|Hk]; [done|]. by apply H2.
    - intros c' Htm. rewrite settle_call_kind. by apply Hold, H3.
    - intros o Hin. specialize (H4 o Hin). destruct o; try done;
        destruct H4 as [c' Hc']; exists c';
        rewrite settle_call_kind; by apply Hold. }
  unfold shutdown. fold c.
  destruct (mode (self (add_call KShutdown w))); try exact Hadded.
  destruct (process (self (add_call KShutdown w))) as [h|]; [|exact Hadded].
  set (w1 := setTimeout (ForceKillTimer c) (add_call KShutdown w)).
  assert (Hw1 : forall w2,
    calls w2 = calls (add_call KShutdown w) -> turns w2 = turns w ->
    timers w2 = SigtermTimer c :: ForceKillTimer c :: timers w ->
    (forall o, In o (history w2) -> In o (history w) \/ o = Ended h) ->
    Orderly w2).
  { intros w2 Ec Et Etm Eh.
    unfold Orderly, shutdown_call, promise_of, open_turn, outcome_of.
    rewrite Ec, Et, Etm. split_and!.
    - intros t Ho. rewrite !elem_of_cons. right. right. by apply H1.
    - intros c' Hk Hp. rewrite !elem_of_cons.
      apply Hpend in Hp as [->|Hp]; [auto|].
      apply Hkind in Hk as [->|Hk]; [auto|]. right. right. by apply H2.
    - intros c'. rewrite !elem_of_cons.
      intros [[E|[E|Hin]]|[E|[E|Hin]]]; try discriminate E;
        try (injection E as ->; exact Hnew); apply Hold, H3; auto.
    - intros o Hin. apply Eh in Hin as [Hin| ->].
      + specialize (H4 o Hin). destruct o; try done;
          destruct H4 as [c' Hc']; exists c'; by apply Hold.
      + by exists c. }
  apply Hw1.
  - simpl. unfold on_stdin_closed.
    repeat (case_match; simpl); done.
  - simpl. unfold on_stdin_closed.
    repeat (case_match; simpl); done.
  - simpl. unfold on_stdin_closed.
    repeat (case_match; simpl); done.
  - intros o. simpl. unfold on_stdin_closed.
    repeat (case_match; simpl); intuition.
Qed.

Lemma orderly_handle parse now ev w :
  Orderly w -> Orderly (handle parse now ev w).
Proof.
  intros H. destruct ev; simpl.
  - by apply orderly_complete.
  - by apply orderly_call_initialize.
  - by apply orderly_shutdown.
  - case_match; [|done]. by apply orderly_handleStdout.
  - by apply orderly_on_exit.
  - by apply orderly_on_error.
  - by apply orderly_on_stdin_closed.
  - by apply orderly_fire.
  - by apply orderly_anthropicAPI.
Qed.

Lemma orderly_step parse now ev w :
  Orderly w -> Orderly (step parse now ev w).
Proof. intros H. unfold step. by apply orderly_drain, orderly_handle. Qed.

Lemma orderly_run parse tasks : forall w,
  Orderly w -> Orderly (run parse w tasks).
Proof.
  induction tasks as [|[now ev] tasks IH]; intros w H; [done|].
  simpl. by apply IH, orderly_step.
Qed.

Lemma orderly_new_world config host_listens :
  Orderly (new_world config host_listens).
Proof.
  unfold Orderly, shutdown_call, promise_of, open_turn, outcome_of. simpl.
  split_and!; try done.
  - intros c. rewrite !elem_of_nil. tauto.
Qed.

(** ** The calls the host has made *)

Lemma kinds_settle_call ks c r w : Kinds ks w -> Kinds ks (settle_call c r w).
Proof.
  unfold Kinds. intros <-. apply list_eq. intros i.
  rewrite !list_lookup_fmap. apply settle_call_kind.
Qed.

Lemma kinds_settle_calls ks cs r w :
  Kinds ks w -> Kinds ks (settle_calls cs r w).
Proof.
  intros H. unfold settle_calls.
  apply (fold_left_invariant (Kinds ks)); [|done].
  intros a b Ha. by apply kinds_settle_call.
Qed.

Lemma kinds_settle_turn ks t r w : Kinds ks w -> Kinds ks (settle_turn t r w).
Proof. intros H. unfold settle_turn. by repeat case_match. Qed.

Lemma kinds_kill ks h sig w : Kinds ks w -> Kinds ks (kill h sig w).
Proof. intros H. unfold kill. by repeat case_match. Qed.

Ltac kinds :=
  repeat first
    [ assumption
    | progress peel
    | apply kinds_settle_call
    | apply kinds_settle_calls
    | apply kinds_settle_turn
    | apply kinds_kill ].

Lemma kinds_sendMessage ks now who content w :
  Kinds ks w -> Kinds ks (_sendMessage now who content w).
Proof. intros H. unfold _sendMessage. case_match; kinds. Qed.

Lemma kinds_woken ks now c prompt w :
  Kinds ks w -> Kinds ks (_persistentComplete_woken now c prompt w).
Proof.
  intros H. unfold _persistentComplete_woken.
  case_match; first [by apply kinds_sendMessage | kinds].
Qed.

Lemma kinds_initialized ks now c prompt w :
  Kinds ks w -> Kinds ks (_persistentComplete_initialized now c prompt w).
Proof.
  intros H. unfold _persistentComplete_initialized.
  case_match; first [by apply kinds_woken | kinds].
Qed.

Lemma kinds_resume ks now c r w :
  Kinds ks w -> Kinds ks (resume_initialize now c r w).
Proof.
  intros H. unfold resume_initialize.
  repeat case_match; first [by apply kinds_initialized | kinds].
Qed.

Lemma kinds_settle_init ks now h r w :
  Kinds ks w -> Kinds ks (settle_init now h r w).
Proof.
  intros H. unfold settle_init.
  repeat case_match; try done; apply kinds_resume; kinds.
Qed.

Lemma kinds_start ks now c sp w :
  Kinds ks w -> Kinds ks (_startPersistentProcess now c sp w).
Proof.
  intros H. unfold _startPersistentProcess. apply kinds_sendMessage. kinds.
Qed.

Lemma kinds_react ks now t w : Kinds ks w -> Kinds ks (react now t w).
Proof.
  intros H. unfold react, warmup_then, warmup_catch, emit_ready.
  repeat case_match; try done;
    first [ apply kinds_settle_init; kinds | kinds ].
Qed.

Lemma kinds_run_jobs ks now w : Kinds ks w -> Kinds ks (run_jobs now w).
Proof.
  intros H. unfold run_jobs.
  apply (fold_left_invariant (Kinds ks)); [|by peel].
  intros a b Ha. by apply kinds_react.
Qed.

Lemma kinds_drain ks now w : Kinds ks w -> Kinds ks (drain now w).
Proof. intros H. unfold drain. by do 2 apply kinds_run_jobs. Qed.

Lemma kinds_append_blocks ks blocks : forall w,
  Kinds ks w -> Kinds ks (world_of (append_blocks blocks w)).
Proof.
  induction blocks as [|b bs IH]; intros w H; [done|].
  simpl. destruct b; try done; repeat (case_match; try done);
    apply IH; unfold append_response; try case_match; kinds.
Qed.

Lemma kinds_handleMessage ks now msg w :
  Kinds ks w -> Kinds ks (world_of (_handleMessage now msg w)).
Proof.
  intros H. unfold _handleMessage, pending_resolve, pending_reject.
  destruct (pendingPromise (self w)) as [p|]; [|done].
  destruct msg; try done; repeat (case_match; try done); simpl;
    first [ by apply kinds_append_blocks | kinds ].
Qed.

Lemma kinds_handleStdout ks parse now data w :
  Kinds ks w -> Kinds ks (_handleStdout parse now data w).
Proof.
  intros H. unfold _handleStdout.
  apply (fold_left_invariant (Kinds ks)); [|by peel].
  intros a line Ha. unfold handle_line.
  repeat case_match; try done. by apply kinds_handleMessage.
Qed.

Lemma kinds_on_exit ks h w : Kinds ks w -> Kinds ks (on_exit h w).
Proof.
  intros H. unfold on_exit, pending_reject. repeat case_match; try done;
    (apply (fold_left_invariant (Kinds ks));
     [ intros a c Ha; unfold shutdown_on_exit; kinds | kinds ]).
Qed.

Lemma kinds_on_error ks now h message w :
  Kinds ks w -> Kinds ks (on_error now h message w).
Proof.
  intros H. unfold on_error.
  repeat case_match; try done;
    first [ apply kinds_settle_init; kinds | kinds ].
Qed.

Lemma kinds_on_stdin_closed ks h w :
  Kinds ks w -> Kinds ks (on_stdin_closed h w).
Proof. intros H. unfold on_stdin_closed. case_match; kinds. Qed.

Lemma kinds_fire ks now tm w : Kinds ks w -> Kinds ks (fire now tm w).
Proof.
  intros H. unfold fire, emit_ready. destruct (armed tm w); [|done].
  destruct tm; simpl; repeat case_match;
    first [ apply kinds_settle_init; kinds | apply kinds_woken; kinds
          | kinds ].
Qed.

Lemma kinds_anthropicAPI ks now c r w :
  Kinds ks w -> Kinds ks (_anthropicAPI now c r w).
Proof. intros H. unfold _anthropicAPI. repeat case_match; kinds. Qed.

Lemma kinds_add_call ks k w : Kinds ks w -> Kinds (ks ++ [k]) (add_call k w).
Proof. unfold Kinds, add_call. simpl. intros <-. by rewrite fmap_app. Qed.

Lemma kinds_initialize ks now c sp w :
  Kinds ks w -> Kinds ks (initialize now c sp w).
Proof.
  intros H. unfold initialize.
  repeat case_match;
    first [ by apply kinds_resume | by apply kinds_start | kinds ].
Qed.

(** A task adds the call it makes, if it makes one. *)
Lemma kinds_handle ks parse now ev w :
  Kinds ks w ->
  exists added,
    Kinds (ks ++ added) (handle parse now ev w)
    /\ (ev <> CallShutdown -> Forall (fun k => k <> KShutdown) added).
Proof.
  intros H. destruct ev; simpl.
  - unfold complete, _persistentComplete.
    destruct (mode (self w)).
    + exists [KComplete (full_prompt prompt systemPrompt)].
      split; [|by repeat constructor].
      repeat case_match;
        first [ apply kinds_initialize | apply kinds_initialized ];
        by apply kinds_add_call.
    + exists [KApi now]. split; [by apply kinds_add_call|by repeat constructor].
    + exists [KComplete (full_prompt prompt systemPrompt)].
      split; [|by repeat constructor].
      by apply kinds_settle_call, kinds_add_call.
  - exists [KInitialize]. split; [|by repeat constructor].
    unfold call_initialize. by apply kinds_initialize, kinds_add_call.
  - exists [KShutdown]. split; [|done].
    unfold shutdown, on_stdin_closed.
    repeat (case_match; simpl);
      first [ apply kinds_settle_call | idtac ];
      (kinds; by apply kinds_add_call).
  - exists []. rewrite app_nil_r. split; [|done].
    case_match; [|done]. by apply kinds_handleStdout.
  - exists []. rewrite app_nil_r. split; [|done]. by apply kinds_on_exit.
  - exists []. rewrite app_nil_r. split; [|done]. by apply kinds_on_error.
  - exists []. rewrite app_nil_r. split; [|done].
    by apply kinds_on_stdin_closed.
  - exists []. rewrite app_nil_r. split; [|done]. by apply kinds_fire.
  - exists []. rewrite app_nil_r. split; [|done]. by apply kinds_anthropicAPI.
Qed.

Lemma no_shutdown_call_run parse tasks : forall w,
  host_never_shuts_down tasks ->
  Forall (fun k => k <> KShutdown) (kind <$> calls w) ->
  Forall (fun k => k <> KShutdown) (kind <$> calls (run parse w tasks)).
Proof.
  induction tasks as [|[now ev] tasks IH]; intros w Hh Hw; [done|].
  apply Forall_cons in Hh as [Hev Hh]. simpl in *. apply IH; [done|].
  destruct (kinds_handle _ parse now ev w eq_refl) as (added & Hk & Ha).
  apply (kinds_drain _ now) in Hk. unfold step. rewrite Hk.
  apply Forall_app. split; [done|]. by apply Ha.
Qed.

(** ** What the deadlines guarantee *)

Lemma run_quiescent parse tasks : forall w,
  jobs w = [] -> jobs (run parse w tasks) = [].
Proof.
  induction tasks as [|[now ev] tasks IH]; intros w Hj; [done|].
  simpl. apply IH. unfold step. apply drain_over.
Qed.

Lemma run_jobs_cont now w : Cont (set_jobs [] w) (run_jobs now w).
Proof.
  unfold run_jobs.
  apply (fold_left_invariant (fun a => Cont (set_jobs [] w) a)).
  - intros a t Ca. eapply cont_trans; [exact Ca|apply react_cont].
  - by apply cont_same.
Qed.

Lemma drain_turns now w : exists ts, turns (drain now w) = turns w ++ ts.
Proof.
  unfold drain.
  destruct (run_jobs_cont now w) as [_ (ts1 & T1) _].
  destruct (run_jobs_cont now (run_jobs now w)) as [_ (ts2 & T2) _].
  simpl in *. exists (ts1 ++ ts2). by rewrite T2, T1, app_assoc.
Qed.

(** [X11] No turn waits for ever.  In every world a run can reach, and
    whatever the host has called, the timeout of every open turn is armed;
    and when it fires the turn is rejected with the timeout error.  So the
    promise of [_sendMessage] is settled [timeout] milliseconds after the
    send at the latest. *)
Theorem open_turn_has_deadline
  (parse : string -> option JSON) (config : Config) (host_listens : bool)
  (tasks : list (Z * Event)) (t : nat) (now : Z) :
  let w := run parse (new_world config host_listens) tasks in
  open_turn w t ->
  armed (TurnTimer t) w = true
  /\ outcome_of t (step parse now (TimerFires (TurnTimer t)) w)
     = Some (Rejected (timeout_message w)).
Proof.
  intros w Ho.
  destruct (orderly_run parse tasks _
              (orderly_new_world config host_listens)) as (H1 & _).
  fold w in H1. specialize (H1 t Ho).
  assert (Ha : armed (TurnTimer t) w = true) by (by apply bool_decide_eq_true).
  split; [exact Ha|].
  apply open_turn_lookup in Ho as (tr & Ht & Hp).
  unfold step. simpl. unfold fire. rewrite Ha.
  destruct (drain_turns now
              (settle_turn t (Rejected (timeout_message w))
                 (set_state READY
                    (set_pendingPromise None (clearTimeout (TurnTimer t) w)))))
    as (ts & E).
  unfold outcome_of, timeout_message in *. simpl in *. rewrite E.
  rewrite (settle_turn_pending _ tr) by done. simpl.
  rewrite lookup_app_l.
  - by rewrite list_lookup_insert_eq by (by eapply lookup_lt_Some).
  - rewrite length_insert. by eapply lookup_lt_Some.
Qed.

Lemma open_turn_has_deadline_witness :
  let w := run sample_parse (new_world default_config false)
             (firstn 3 two_callers) in
  open_turn w 1
  /\ armed (TurnTimer 1) w = true
  /\ outcome_of 1 (step sample_parse 120900 (TimerFires (TurnTimer 1)) w)
     = Some (Rejected "Timeout after 120000ms").
Proof.
  split; [reflexivity|].
  exact (open_turn_has_deadline sample_parse default_config false
           (firstn 3 two_callers) 1 120900 eq_refl).
Defined.

(** [X12] [shutdown()] never hangs.  In every world a run can reach, a
    [shutdown()] call that is still pending has its force-kill timer armed;
    and when that timer fires the call is resolved, the handle of the child
    is dropped and the state is [STOPPED], whether or not the child has
    exited. *)
Theorem shutdown_resolves_by_deadline
  (parse : string -> option JSON) (config : Config) (host_listens : bool)
  (tasks : list (Z * Event)) (c : nat) (now : Z) :
  let w := run parse (new_world config host_listens) tasks in
  shutdown_call w c ->
  promise_of c w = Some Pending ->
  armed (ForceKillTimer c) w = true
  /\ let w' := step parse now (TimerFires (ForceKillTimer c)) w in
     promise_of c w' = Some (Resolved None)
     /\ process (self w') = None
     /\ state (self w') = STOPPED.
Proof.
  intros w Hc Hp.
  destruct (orderly_run parse tasks _
              (orderly_new_world config host_listens)) as (_ & H2 & _).
  fold w in H2. specialize (H2 c Hc Hp).
  assert (Ha : armed (ForceKillTimer c) w = true)
    by (by apply bool_decide_eq_true).
  split; [exact Ha|].
  assert (Hj : jobs w = []) by (by apply run_quiescent).
  unfold step. simpl. unfold fire. rewrite Ha.
  rewrite drain_idle.
  2: { rewrite settle_call_jobs. simpl.
       destruct (process (self w)); [|done].
       unfold kill. by repeat case_match. }
  rewrite settle_call_self. simpl. split; [|done].
  unfold promise_of in *.
  destruct (calls w !! c) as [cl|] eqn:E; [|done].
  simpl in Hp. injection Hp as Hp.
  set (w1 := set_state STOPPED _).
  assert (E1 : calls w1 !! c = Some cl).
  { unfold w1. simpl. destruct (process (self w)); [|done].
    unfold kill. by repeat case_match. }
  rewrite (settle_call_pending c cl) by done. simpl.
  by rewrite list_lookup_insert_eq by (by eapply lookup_lt_Some).
Qed.

(** [shutdown()] of a child that does not exit. *)
Lemma shutdown_resolves_by_deadline_witness :
  let tasks := [(0, CallInitialize (spawned_ok 41));
                (900, StdoutData 0 (result_line "Hello!"));
                (2000, CallShutdown);
                (3000, TimerFires (SigtermTimer 1))] in
  let w := run sample_parse (new_world default_config false) tasks in
  let w' := step sample_parse 7000 (TimerFires (ForceKillTimer 1)) w in
  shutdown_call w 1 /\ promise_of 1 w = Some Pending
  /\ armed (ForceKillTimer 1) w = true
  /\ promise_of 1 w' = Some (Resolved None)
  /\ process (self w') = None /\ state (self w') = STOPPED
  /\ history w' = [Killed 0 SIGKILL; Killed 0 SIGTERM; Ended 0; Settled 0;
                   Wrote 0 0 "Hello"; Spawned 0].
Proof.
  do 2 (split; [reflexivity|]).
  pose proof (shutdown_resolves_by_deadline sample_parse default_config false
                [(0, CallInitialize (spawned_ok 41));
                 (900, StdoutData 0 (result_line "Hello!"));
                 (2000, CallShutdown);
                 (3000, TimerFires (SigtermTimer 1))] 1 7000
                eq_refl eq_refl) as (H1 & H2 & H3 & H4).
  by split_and!.
Defined.

(** [X13] Nothing but [shutdown()] ever signals a child or ends its input.
    As long as the host has not called [shutdown()], whatever else happens
    (timeouts, errors of a turn, errors and exits of children, respawns), no
    signal is sent, no input is ended, and none of the two timers that send
    signals is armed: a child the provider has given up on is left
    running. *)
Theorem no_signal_without_shutdown
  (parse : string -> option JSON) (config : Config) (host_listens : bool)
  (tasks : list (Z * Event)) :
  host_never_shuts_down tasks ->
  let w := run parse (new_world config host_listens) tasks in
  Forall harmless (history w)
  /\ (forall c, (ForceKillTimer c ∉ timers w)
                /\ (SigtermTimer c ∉ timers w)).
Proof.
  intros Hh w.
  destruct (orderly_run parse tasks _
              (orderly_new_world config host_listens)) as (_ & _ & H3 & H4).
  fold w in H3, H4.
  assert (Hk : Forall (fun k => k <> KShutdown) (kind <$> calls w)).
  { by apply no_shutdown_call_run. }
  assert (Hno : forall c, ~ shutdown_call w c).
  { intros c Hc. unfold shutdown_call in Hc.
    rewrite <- list_lookup_fmap in Hc.
    rewrite Forall_lookup in Hk. by apply (Hk _ _ Hc). }
  split.
  - apply Forall_forall. intros o Hin. apply list_elem_of_In in Hin.
    specialize (H4 o Hin). destruct o; try done;
      destruct H4 as [c Hc]; by destruct (Hno c).
  - intros c. split; intros Hin; apply (Hno c), H3; auto.
Qed.

Lemma no_signal_without_shutdown_witness :
  let tasks := firstn 3 two_callers
               ++ [(121000, TimerFires (TurnTimer 1));
                   (121100, ProcessError 0 "EPIPE");
                   (121200, ProcessExit 0)] in
  let w := run sample_parse (new_world default_config false) tasks in
  host_never_shuts_down tasks
  /\ Forall harmless (history w)
  /\ (forall c, (ForceKillTimer c ∉ timers w)
                /\ (SigtermTimer c ∉ timers w)).
Proof.
  assert (H : host_never_shuts_down
                (firstn 3 two_callers
                 ++ [(121000, TimerFires (TurnTimer 1));
                     (121100, ProcessError 0 "EPIPE");
                     (121200, ProcessExit 0)]))
    by (repeat constructor; discriminate).
  split; [exact H|].
  exact (no_signal_without_shutdown sample_parse default_config false _ H).
Defined.

(** ** The branch of [initialize()] for the state [STARTING] *)

Lemma unheard_settle_call c r w : Unheard w -> Unheard (settle_call c r w).
Proof. intros H. unfold settle_call. by repeat case_match. Qed.

Lemma unheard_settle_calls cs r w : Unheard w -> Unheard (settle_calls cs r w).
Proof.
  intros H. unfold settle_calls.
  apply (fold_left_invariant Unheard); [|done].
  intros a b Ha. by apply unheard_settle_call.
Qed.

Lemma unheard_settle_turn t r w : Unheard w -> Unheard (settle_turn t r w).
Proof. intros H. unfold settle_turn. by repeat case_match. Qed.

Lemma unheard_kill h sig w : Unheard w -> Unheard (kill h sig w).
Proof. intros H. unfold kill. by repeat case_match. Qed.

Lemma unheard_emit_ready w : Unheard w -> Unheard (emit_ready w).
Proof.
  intros H. unfold emit_ready.
  destruct (unheard_settle_calls (readyOnce w) (Resolved (Some (JBool true)))
              w H) as [_ He].
  by split.
Qed.

Ltac unheard :=
  repeat first
    [ assumption
    | progress peel
    | apply unheard_settle_call
    | apply unheard_settle_calls
    | apply unheard_settle_turn
    | apply unheard_kill
    | apply unheard_emit_ready ].






















(** ** The modes without a child *)

Lemma inert_settle_call c r w : Inert w -> Inert (settle_call c r w).
Proof. intros H. unfold settle_call. by repeat case_match. Qed.

Lemma inert_initialize now sp w :
  Inert w -> Inert (call_initialize now sp w).
Proof.
  intros H. pose proof H as (Hm & _).
  unfold call_initialize, initialize.
  change (mode (self (add_call KInitialize w))) with (mode (self w)).
  destruct (mode (self w)) eqn:Em; [done| |];
    unfold resume_initialize; rewrite add_call_lookup; simpl;
    by apply inert_settle_call.
Qed.

Lemma inert_handle parse now ev w : Inert w -> Inert (handle parse now ev w).
Proof.
  intros H. pose proof H as (Hm & Hp & Ht & Htm & Hh & Hj & Hs & Hpr & Hpp).
  destruct ev; simpl.
  - unfold complete. destruct (mode (self w)) eqn:Em; [done|done|].
    by apply inert_settle_call.
  - by apply inert_initialize.
  - unfold shutdown.
    change (mode (self (add_call KShutdown w))) with (mode (self w)).
    destruct (mode (self w)) eqn:Em; [done| |]; by apply inert_settle_call.
  - by rewrite Hp.
  - unfold on_exit. by rewrite Hp.
  - unfold on_error. by rewrite Hp.
  - unfold on_stdin_closed. by rewrite Hp.
  - unfold fire, armed. rewrite Htm.
    rewrite bool_decide_eq_false_2; [done|]. apply not_elem_of_nil.
  - unfold _anthropicAPI. repeat case_match; try done;
      by apply inert_settle_call.
Qed.

Lemma inert_step parse now ev w : Inert w -> Inert (step parse now ev w).
Proof.
  intros H. unfold step. rewrite drain_idle; [by apply inert_handle|].
  by apply (inert_handle parse now ev) in H as (_ & _ & _ & _ & _ & Hj & _).
Qed.

Lemma inert_run parse tasks : forall w, Inert w -> Inert (run parse w tasks).
Proof.
  induction tasks as [|[now ev] tasks IH]; intros w H; [done|].
  simpl. by apply IH, inert_step.
Qed.

(** [X15] A provider constructed in a mode other than [persistent] never
    touches the machinery of the persistent mode: whatever is called on it
    and whatever events reach it, no child is spawned, no turn is sent, no
    timer is armed, the state stays [STOPPED], and [isReady()] is true
    throughout. *)
Theorem other_modes_never_spawn
  (parse : string -> option JSON) (config : Config) (host_listens : bool)
  (tasks : list (Z * Event)) :
  mode (new_provider config) <> persistent ->
  let w := run parse (new_world config host_listens) tasks in
  procs w = [] /\ turns w = [] /\ timers w = [] /\ history w = []
  /\ state (self w) = STOPPED /\ process (self w) = None
  /\ isReady w = true.
Proof.
  intros Hm w.
  assert (H : Inert w).
  { apply inert_run. unfold Inert. simpl. by split_and!. }
  destruct H as (Hm' & Hp & Ht & Htm & Hh & Hj & Hs & Hpr & Hpp).
  split_and!; try done.
  unfold isReady. by destruct (mode (self w)).
Qed.

Lemma other_modes_never_spawn_witness :
  let tasks := [(0, CallInitialize (spawned_ok 41));
                (10, CallComplete "hello" None (spawned_ok 42));
                (20, TimerFires (TurnTimer 0));
                (30, ApiReply 1 (ApiMessage [JObj [("type", JStr "text");
                                                   ("text", JStr "hi")]]));
                (40, CallShutdown)] in
  let w := run sample_parse (new_world (config_of_mode "api") false) tasks in
  mode (new_provider (config_of_mode "api")) <> persistent
  /\ procs w = [] /\ history w = [] /\ isReady w = true
  /\ promise_of 1 w = Some (Resolved (Some (JStr "hi"))).
Proof.
  assert (H : mode (new_provider (config_of_mode "api")) <> persistent)
    by discriminate.
  split; [exact H|].
  pose proof (other_modes_never_spawn sample_parse (config_of_mode "api")
                false
                [(0, CallInitialize (spawned_ok 41));
                 (10, CallComplete "hello" None (spawned_ok 42));
                 (20, TimerFires (TurnTimer 0));
                 (30, ApiReply 1 (ApiMessage [JObj [("type", JStr "text");
                                                    ("text", JStr "hi")]]));
                 (40, CallShutdown)] H)
    as (H1 & _ & _ & H4 & _ & _ & H7).
  by split_and!.
Defined.

Lemma inert_event_idle parse now ev w :
  Inert w ->
  match ev with
  | CallComplete _ _ _ | CallInitialize _ | CallShutdown | ApiReply _ _ => False
  | _ => True
  end ->
  handle parse now ev w = w.
Proof.
  intros (Hm & Hp & Ht & Htm & Hh & Hj & Hs & Hpr & Hpp) Hev.
  destruct ev; try done; simpl.
  - by rewrite Hp.
  - unfold on_exit. by rewrite Hp.
  - unfold on_error. by rewrite Hp.
  - unfold on_stdin_closed. by rewrite Hp.
  - unfold fire, armed. rewrite Htm.
    rewrite bool_decide_eq_false_2; [done|]. apply not_elem_of_nil.
Qed.

Lemma unknown_mode_handle parse m now ev w :
  mode (self w) = other_mode m -> Inert w -> Forall (answered_in m) (calls w) ->
  let w' := handle parse now ev w in
  mode (self w') = other_mode m /\ Forall (answered_in m) (calls w').
Proof.
  intros Hm H Hc.
  assert (Hnew : forall k r,
    answered_in m {| kind := k; promise := r |} ->
    let w' := settle_call (length (calls w)) r (add_call k w) in
    mode (self w') = other_mode m /\ Forall (answered_in m) (calls w')).
  { intros k r Ha. simpl. rewrite settle_new_call. simpl.
    split; [done|]. apply Forall_app. split; [done|]. by constructor. }
  destruct ev as [prompt sys sp|sp| |h data|h|h e|h|tm|c r];
    try (match goal with |- context [handle parse now ?e w] =>
           rewrite (inert_event_idle parse now e w H I)
         end; by split).
  - simpl. unfold complete. rewrite Hm. by apply Hnew.
  - simpl. unfold call_initialize, initialize.
    change (mode (self (add_call KInitialize w))) with (mode (self w)).
    rewrite Hm. unfold resume_initialize. rewrite add_call_lookup. simpl.
    by apply Hnew.
  - simpl. unfold shutdown.
    change (mode (self (add_call KShutdown w))) with (mode (self w)).
    rewrite Hm. by apply Hnew.
  - simpl. unfold _anthropicAPI.
    destruct (calls w !! c) as [[k pc]|] eqn:E; [|by split].
    destruct k; try (by split). destruct pc; try (by split).
    rewrite Forall_lookup in Hc. by destruct (Hc _ _ E).
Qed.

(** [X16] In a mode the provider does not know (['cli'], say), every call
    ends at once: [initialize()] resolves true, [shutdown()] resolves, and
    every [complete()] is rejected with "Unknown mode", while [isReady()]
    is true throughout. *)
Theorem unknown_mode_answers_at_once
  (parse : string -> option JSON) (m : string) (host_listens : bool)
  (tasks : list (Z * Event)) :
  mode (new_provider (config_of_mode m)) = other_mode m ->
  let w := run parse (new_world (config_of_mode m) host_listens) tasks in
  Forall (answered_in m) (calls w) /\ isReady w = true.
Proof.
  intros Hm.
  assert (G : forall w,
    mode (self w) = other_mode m /\ Inert w /\ Forall (answered_in m) (calls w)
    -> let w' := run parse w tasks in
       mode (self w') = other_mode m /\ Forall (answered_in m) (calls w')).
  { induction tasks as [|[now ev] tasks IH]; intros w (H1 & H2 & H3);
      [by split|].
    simpl. apply IH.
    destruct (unknown_mode_handle parse m now ev w H1 H2 H3) as [E1 E2].
    pose proof (inert_handle parse now ev w H2) as Hi.
    assert (Hj : jobs (handle parse now ev w) = [])
      by (by destruct Hi as (_ & _ & _ & _ & _ & Hj & _)).
    unfold step. rewrite (drain_idle _ _ Hj). by split_and!. }
  intros w. destruct (G (new_world (config_of_mode m) host_listens))
    as [E1 E2].
  { split_and!; [exact Hm| |by constructor].
    unfold Inert. simpl. split_and!; try done.
    unfold new_provider in Hm. simpl in *. by rewrite Hm. }
  split; [exact E2|]. unfold isReady.
  change (mode (self w)) with
    (mode (self (run parse (new_world (config_of_mode m) host_listens) tasks))).
  by rewrite E1.
Qed.

Lemma unknown_mode_answers_at_once_witness :
  let tasks := [(0, CallInitialize (spawned_ok 41));
                (10, CallComplete "hello" (Some "sys") (spawned_ok 42));
                (20, StdoutData 0 (result_line "x"));
                (30, CallShutdown)] in
  let w := run sample_parse (new_world (config_of_mode "cli") false) tasks in
  mode (new_provider (config_of_mode "cli")) = other_mode "cli"
  /\ Forall (answered_in "cli") (calls w) /\ isReady w = true
  /\ promise_of 1 w
     = Some (Rejected "Unknown mode: cli. Supported modes: persistent, api").
Proof.
  split; [reflexivity|].
  pose proof (unknown_mode_answers_at_once sample_parse "cli" false
                [(0, CallInitialize (spawned_ok 41));
                 (10, CallComplete "hello" (Some "sys") (spawned_ok 42));
                 (20, StdoutData 0 (result_line "x"));
                 (30, CallShutdown)] eq_refl) as [H1 H2].
  by split_and!.
Defined.

(** ** The timeout of a turn and the pending turn *)

(** [X17] As long as the host keeps to [complete()] (and to [initialize()]
    while no turn is pending), the timeouts of turns that are armed are
    exactly the timeout of the pending turn: a timeout that fires never
    finds another turn pending than its own, which matters because its
    callback clears [this.pendingPromise] and sets [READY] without
    looking. *)
Theorem turn_timeout_is_of_pending_turn
  (parse : string -> option JSON) (config : Config) (host_listens : bool)
  (tasks : list (Z * Event)) (t : nat) :
  host_keeps_off parse (new_world config host_listens) tasks ->
  let w := run parse (new_world config host_listens) tasks in
  armed (TurnTimer t) w = true <-> slot_turn w = Some t.
Proof.
  intros Hh w.
  destruct (run_inv parse tasks (new_world config host_listens) Hh
              (new_world_inv config host_listens)) as (H & _ & _).
  destruct (orderly_run parse tasks _
              (orderly_new_world config host_listens)) as (H1 & _).
  fold w in H, H1. unfold armed. rewrite bool_decide_eq_true. split.
  - intros Hin. apply (ok_slot _ H). apply (ok_timers _ H _ Hin).
  - intros Hs. apply H1. by apply (ok_slot _ H).
Qed.

Lemma turn_timeout_is_of_pending_turn_witness :
  let tasks := firstn 4 two_callers in
  let w := run sample_parse (new_world default_config false) tasks in
  host_keeps_off sample_parse (new_world default_config false) tasks
  /\ slot_turn w = Some 1%nat
  /\ (armed (TurnTimer 1) w = true <-> slot_turn w = Some 1%nat)
  /\ (armed (TurnTimer 0) w = true <-> slot_turn w = Some 0%nat).
Proof.
  assert (H : host_keeps_off sample_parse (new_world default_config false)
                (firstn 4 two_callers)).
  { apply only_completes_keeps_off. repeat constructor. }
  split; [exact H|]. split; [reflexivity|].
  split; exact (turn_timeout_is_of_pending_turn sample_parse default_config
                  false (firstn 4 two_callers) _ H).
Defined.

(** ** The exit of a child that has been replaced *)

(** [X18] The [exit] listener of a child does not look whether that child
    is still the current one.  When a child that has been replaced exits
    (after a force-kill followed by a respawn, say), the listener drops the
    handle of the current child and rejects the turn sent to it with
    "Process exited unexpectedly", although the current child has not
    exited and goes on running, unsignalled; the state is [STOPPED], so the
    next [complete()] spawns one more. *)
Theorem exit_of_replaced_child_drops_current
  (parse : string -> option JSON) (now : Z) (w : World) (h h' : nat)
  (pr pr' : Proc) (p : PendingPromise) (c : nat) (k : CallKind) :
  jobs w = [] ->
  procs w !! h = Some pr -> exited pr = false -> exitOnce pr = [] ->
  process (self w) = Some h' -> h' <> h ->
  procs w !! h' = Some pr' ->
  pendingPromise (self w) = Some p ->
  turns w !! turn p = Some {| owner := Caller c; outcome := Pending |} ->
  calls w !! c = Some {| kind := k; promise := Pending |} ->
  let w' := step parse now (ProcessExit h) w in
  process (self w') = None
  /\ state (self w') = STOPPED
  /\ pendingPromise (self w') = None
  /\ promise_of c w' = Some (Rejected "Process exited unexpectedly")
  /\ procs w' !! h' = Some pr'
  /\ history w' = Settled (turn p) :: ExitSeen h :: history w.
Proof.
  intros Hj Hh He Hx Hproc Hne Hh' Hp Ht Hc w'. subst w'.
  assert (Hlt : (turn p < length (turns w))%nat) by (by eapply lookup_lt_Some).
  eassert (E : step parse now (ProcessExit h) w = _).
  { unfold step. simpl. unfold on_exit. rewrite Hh, He, Hx. simpl.
    rewrite Hp. unfold pending_reject.
    rewrite (settle_turn_pending _ {| owner := Caller c; outcome := Pending |})
      by done.
    simpl. rewrite Hj. simpl.
    rewrite (drain_caller_turn now _ (turn p) c
               (Rejected "Process exited unexpectedly"));
      [ | done | simpl; by apply list_lookup_insert_eq | done ].
    rewrite (settle_call_pending c {| kind := k; promise := Pending |})
      by done.
    reflexivity. }
  rewrite E. clear E. unfold promise_of. simpl.
  split_and!; try done.
  - by rewrite list_lookup_insert_eq by (by eapply lookup_lt_Some).
  - by rewrite list_lookup_insert_ne.
Qed.

(** [initialize()] during the turn of a [complete()] call replaces the
    child (pid 41) by another (pid 42), whose warmup answers and lets a
    second [complete()] send its turn; then the first child exits. *)
Lemma exit_of_replaced_child_drops_current_witness :
  let w := run sample_parse busy
             [(1200, CallInitialize (spawned_ok 42));
              (1300, StdoutData 1 (result_line "Hello!"));
              (1400, CallComplete "again" None (spawned_ok 0))] in
  let w' := step sample_parse 1500 (ProcessExit 0) w in
  process (self w) = Some 1%nat
  /\ slot_turn w = Some 3%nat
  /\ process (self w') = None
  /\ state (self w') = STOPPED
  /\ promise_of 3 w' = Some (Rejected "Process exited unexpectedly")
  /\ (exited <$> procs w' !! 1%nat) = Some false
  /\ history w' = Settled 3 :: ExitSeen 0 :: history w.
Proof.
  do 2 (split; [reflexivity|]).
  pose proof (exit_of_replaced_child_drops_current sample_parse 1500
                (run sample_parse busy
                   [(1200, CallInitialize (spawned_ok 42));
                    (1300, StdoutData 1 (result_line "Hello!"));
                    (1400, CallComplete "again" None (spawned_ok 0))])
                0%nat 1%nat
                {| pid := Some 41%nat; stdinWritable := true; exited := false;
                   exitOnce := []; initCall := 0%nat;
                   init := Resolved (Some (JBool true)) |}
                {| pid := Some 42%nat; stdinWritable := true; exited := false;
                   exitOnce := []; initCall := 2%nat;
                   init := Resolved (Some (JBool true)) |}
                {| turn := 3; response := ""; startTime := 1400 |}
                3%nat (KComplete "again")
                eq_refl eq_refl eq_refl eq_refl eq_refl ltac:(discriminate)
                eq_refl eq_refl eq_refl eq_refl)
    as (H1 & H2 & _ & H4 & H5 & H6).
  split_and!; try done; by rewrite H5.
Defined.

(** ** The reply of the remote API *)

Lemma find_text_find content :
  forallb not_null content = true ->
  find_text content = Some (List.find is_text_block content).
Proof.
  induction content as [|b bs IH]; [done|]. simpl.
  intros [Hb Hbs]%andb_prop. unfold is_text_block at 1.
  destruct b; try done; by destruct (is_type _ "text"); [|apply IH].
Qed.

(** [X19] In [api] mode a reply is answered with the text of its first
    block of type [text] and of no other block (the persistent mode
    concatenates them all): with that block's [text], be it empty or absent
    ([undefined]), and with the empty string when the reply has no such
    block.  The call is counted as one completion, with the time since it
    was made, and as no error. *)
Theorem api_reply_resolves_with_first_text_block
  (parse : string -> option JSON) (now started : Z) (c : nat)
  (content : list JSON) (w : World) :
  jobs w = [] ->
  calls w !! c = Some {| kind := KApi started; promise := Pending |} ->
  forallb not_null content = true ->
  let w' := step parse now (ApiReply c (ApiMessage content)) w in
  promise_of c w'
  = Some (Resolved (match List.find is_text_block content with
                    | Some block => prop block "text"
                    | None => Some (JStr "")
                    end))
  /\ stats (self w') = record_completion (now - started) (stats (self w))
  /\ (forall c', c' <> c -> promise_of c' w' = promise_of c' w).
Proof.
  intros Hj Hc Hn w'. subst w'. unfold step. simpl.
  unfold _anthropicAPI. rewrite Hc, (find_text_find _ Hn).
  assert (Hlt : (c < length (calls w))%nat) by (by eapply lookup_lt_Some).
  destruct (List.find is_text_block content) as [block|];
    (rewrite drain_idle by (by rewrite settle_call_jobs));
    rewrite (settle_call_pending c {| kind := KApi started;
                                      promise := Pending |}) by done;
    unfold promise_of; simpl;
    (split_and!; [by rewrite list_lookup_insert_eq|done|];
     intros c' Hne; by rewrite list_lookup_insert_ne).
Qed.

Lemma api_reply_resolves_with_first_text_block_witness :
  let w := run sample_parse (new_world (config_of_mode "api") false)
             [(100, CallComplete "hello" None (spawned_ok 0))] in
  let content := [JObj [("type", JStr "tool_use")];
                  JObj [("type", JStr "text"); ("text", JStr "one")];
                  JObj [("type", JStr "text"); ("text", JStr "two")]] in
  let w' := step sample_parse 350 (ApiReply 0 (ApiMessage content)) w in
  promise_of 0 w = Some Pending
  /\ promise_of 0 w' = Some (Resolved (Some (JStr "one")))
  /\ stats (self w')
     = {| completions := 1; totalTimeMs := 250; avgTimeMs := 250;
          errors := 0; coldStarts := 0 |}.
Proof.
  split; [reflexivity|].
  pose proof (api_reply_resolves_with_first_text_block sample_parse 350 100
                0%nat
                [JObj [("type", JStr "tool_use")];
                 JObj [("type", JStr "text"); ("text", JStr "one")];
                 JObj [("type", JStr "text"); ("text", JStr "two")]]
                (run sample_parse (new_world (config_of_mode "api") false)
                   [(100, CallComplete "hello" None (spawned_ok 0))])
                eq_refl eq_refl eq_refl) as (H1 & H2 & _).
  by split.
Defined.

(** ** A parked caller and the tick that finds the provider [READY] *)

(** [X21] The first tick of a poll interval that finds the provider [READY]
    ends the wait of its caller: the interval is cleared and the prompt of
    the call is sent in that same task, which makes the provider [BUSY]
    again.  The ticks of the other parked callers then find [BUSY] and do
    nothing: callers that wait are served one at a time, in the order of
    their ticks and not of their calls. *)
Theorem parked_caller_sends_when_ready
  (parse : string -> option JSON) (now : Z) (w : World) (c h : nat)
  (fullPrompt : string) :
  jobs w = [] ->
  state (self w) = READY ->
  armed (PollTimer c) w = true ->
  calls w !! c = Some {| kind := KComplete fullPrompt; promise := Pending |} ->
  writable_process w = Some h ->
  let t := length (turns w) in
  let w' := step parse now (TimerFires (PollTimer c)) w in
  history w' = Wrote h t fullPrompt :: history w
  /\ turns w' = turns w ++ [{| owner := Caller c; outcome := Pending |}]
  /\ slot_turn w' = Some t
  /\ state (self w') = BUSY
  /\ armed (PollTimer c) w' = false
  /\ promise_of c w' = Some Pending
  /\ (forall c' now', step parse now' (TimerFires (PollTimer c')) w' = w').
Proof.
  intros Hj Hs Ha Hc Hw t w'.
  assert (E : w' = _sendMessage now (Caller c) fullPrompt
                     (clearTimeout (PollTimer c) w)).
  { unfold w', step. simpl. unfold fire. rewrite Ha, Hs.
    unfold _persistentComplete_woken, prompt_of. simpl. rewrite Hs, Hc. simpl.
    apply drain_idle. unfold _sendMessage.
    change (writable_process (clearTimeout (PollTimer c) w))
      with (writable_process w). by rewrite Hw. }
  unfold _sendMessage in E.
  change (writable_process (clearTimeout (PollTimer c) w))
    with (writable_process w) in E. rewrite Hw in E.
  rewrite E. unfold slot_turn, promise_of, armed. simpl. rewrite Hc.
  split_and!; try done.
  - apply bool_decide_eq_false. rewrite elem_of_cons.
    intros [?|Hin]; [done|]. by apply list_elem_of_filter in Hin as [? _].
  - intros c' now'. unfold step. simpl. unfold fire.
    destruct (armed (PollTimer c') _); simpl; by rewrite drain_idle.
Qed.

Lemma parked_caller_sends_when_ready_witness :
  let w := run sample_parse fresh (firstn 6 two_callers) in
  let w' := step sample_parse 1700 (TimerFires (PollTimer 1)) w in
  state (self w) = READY
  /\ armed (PollTimer 1) w = true
  /\ history w' = Wrote 0 2 "second" :: history w
  /\ state (self w') = BUSY
  /\ armed (PollTimer 1) w' = false.
Proof.
  do 2 (split; [reflexivity|]).
  pose proof (parked_caller_sends_when_ready sample_parse 1700
                (run sample_parse fresh (firstn 6 two_callers)) 1%nat 0%nat
                "second" eq_refl eq_refl eq_refl eq_refl eq_refl)
    as (H1 & _ & _ & H4 & H5 & _).
  by split_and!.
Defined.

(** ** The first line a child reads *)

Lemma greeted_observe o w : silent o -> Greeted w -> Greeted (observe o w).
Proof. intros Ho H. unfold Greeted. simpl. by destruct o. Qed.

Lemma greeted_settle_call c r w : Greeted w -> Greeted (settle_call c r w).
Proof. intros H. unfold settle_call. by repeat case_match. Qed.

Lemma greeted_settle_calls cs r w : Greeted w -> Greeted (settle_calls cs r w).
Proof.
  intros H. unfold settle_calls.
  apply (fold_left_invariant Greeted); [|done].
  intros a b Ha. by apply greeted_settle_call.
Qed.

Lemma greeted_settle_turn t r w : Greeted w -> Greeted (settle_turn t r w).
Proof.
  intros H. unfold settle_turn.
  repeat case_match; try done; by apply greeted_observe.
Qed.

Lemma greeted_kill h sig w : Greeted w -> Greeted (kill h sig w).
Proof.
  intros H. unfold kill.
  repeat case_match; try done; by apply greeted_observe.
Qed.

(** A child of the list is updated, and its input is not made writable. *)
Lemma greeted_update h pr pr' w :
  procs w !! h = Some pr ->
  (stdinWritable pr' = true -> stdinWritable pr = true) ->
  Greeted w -> Greeted (set_procs (<[h := pr']> (procs w)) w).
Proof.
  intros Hh Hw (H1 & H2 & H3). unfold Greeted. simpl.
  rewrite length_insert. split_and!; try done.
  intros h0 pr0. destruct (decide (h0 = h)) as [->|Hne].
  - rewrite list_lookup_insert_eq by (by eapply lookup_lt_Some).
    intros [= <-] Hw'. apply (H2 h pr); auto.
  - rewrite list_lookup_insert_ne by done. apply H2.
Qed.

Lemma writable_process_lookup w h :
  writable_process w = Some h ->
  exists pr, procs w !! h = Some pr /\ stdinWritable pr = true.
Proof.
  unfold writable_process. destruct (process (self w)) as [h'|]; [|done].
  destruct (procs w !! h') as [pr|] eqn:E; [|done].
  destruct (stdinWritable pr) eqn:Ew; [|done]. intros [= <-]. eauto.
Qed.

Lemma head_snoc {A} (l : list A) x :
  l <> [] -> head (l ++ [x]) = head l.
Proof. by destruct l. Qed.

Lemma greeted_sendMessage now who content w :
  Greeted w -> Greeted (_sendMessage now who content w).
Proof.
  intros (H1 & H2 & H3). unfold _sendMessage.
  destruct (writable_process w) as [h|] eqn:Ew; [|done].
  apply writable_process_lookup in Ew as (pr & Hh & Hw).
  pose proof (H2 h pr Hh Hw) as Hne.
  unfold Greeted. simpl. split_and!.
  - intros h0 Hge. destruct (Nat.eqb_spec h h0) as [<-|_]; [|by apply H1].
    apply lookup_lt_Some in Hh. lia.
  - intros h0 pr0 Hh0 Hw0. destruct (Nat.eqb_spec h h0) as [<-|_].
    + by destruct (prompts_of h (history w)).
    + by apply (H2 h0 pr0).
  - intros h0 c. destruct (Nat.eqb_spec h h0) as [<-|_]; [|apply H3].
    rewrite head_snoc by done. apply H3.
Qed.

Ltac greeted :=
  repeat first
    [ assumption
    | progress peel
    | apply greeted_settle_call
    | apply greeted_settle_calls
    | apply greeted_settle_turn
    | apply greeted_kill
    | apply greeted_sendMessage
    | apply greeted_observe; [exact I|] ].

Lemma greeted_emit_ready w : Greeted w -> Greeted (emit_ready w).
Proof. intros H. unfold emit_ready. greeted. Qed.

Lemma greeted_woken now c prompt w :
  Greeted w -> Greeted (_persistentComplete_woken now c prompt w).
Proof. intros H. unfold _persistentComplete_woken. case_match; greeted. Qed.

Lemma greeted_initialized now c prompt w :
  Greeted w -> Greeted (_persistentComplete_initialized now c prompt w).
Proof.
  intros H. unfold _persistentComplete_initialized.
  case_match; first [by apply greeted_woken | greeted].
Qed.

Lemma greeted_resume now c r w :
  Greeted w -> Greeted (resume_initialize now c r w).
Proof.
  intros H. unfold resume_initialize.
  repeat case_match; first [by apply greeted_initialized | greeted].
Qed.

Lemma greeted_settle_init now h r w :
  Greeted w -> Greeted (settle_init now h r w).
Proof.
  intros H. unfold settle_init.
  destruct (procs w !! h) as [pr|] eqn:E; [|done].
  destruct (init pr); try done;
    apply greeted_resume; by apply (greeted_update h pr).
Qed.

(** [_startPersistentProcess]: the new child is greeted, or cannot be
    written to. *)
Lemma greeted_start now c sp w :
  Greeted w -> Greeted (_startPersistentProcess now c sp w).
Proof.
  intros (H1 & H2 & H3). unfold _startPersistentProcess, _sendMessage.
  unfold writable_process. simpl.
  rewrite lookup_app_r, Nat.sub_diag by done. simpl.
  set (h := length (procs w)).
  assert (Hnone : prompts_of h (history w) = []) by (by apply H1).
  destruct (spawn_writable sp) eqn:Ew; unfold Greeted; simpl;
    rewrite ?length_app; simpl; fold h; split_and!.
  - intros h0 Hge. destruct (Nat.eqb_spec h h0) as [<-|_]; [lia|].
    apply H1. fold h. lia.
  - intros h0 pr0 Hh0 Hw0. destruct (Nat.eqb_spec h h0) as [<-|Hne].
    + by destruct (prompts_of h (history w)).
    + apply (H2 h0 pr0); [|done].
      rewrite lookup_app_l in Hh0; [done|].
      apply lookup_lt_Some in Hh0. rewrite length_app in Hh0. simpl in Hh0.
      fold h in Hh0. lia.
  - intros h0 c0. destruct (Nat.eqb_spec h h0) as [<-|_]; [|apply H3].
    rewrite Hnone. simpl. by intros [= <-].
  - intros h0 Hge. apply H1. fold h. lia.
  - intros h0 pr0 Hh0 Hw0.
    destruct (decide (h0 = h)) as [->|Hne].
    + rewrite lookup_app_r, Nat.sub_diag in Hh0 by done. simpl in Hh0.
      injection Hh0 as <-. simpl in Hw0. congruence.
    + apply (H2 h0 pr0); [|done].
      rewrite lookup_app_l in Hh0; [done|].
      apply lookup_lt_Some in Hh0. rewrite length_app in Hh0. simpl in Hh0.
      fold h in Hh0. lia.
  - apply H3.
Qed.

Lemma greeted_react now t w : Greeted w -> Greeted (react now t w).
Proof.
  intros H. unfold react, warmup_then, warmup_catch.
  repeat case_match; try done;
    first [ apply greeted_settle_init; repeat first [apply greeted_emit_ready
                                                    | progress peel
                                                    | assumption]
          | greeted ].
Qed.

Lemma greeted_run_jobs now w : Greeted w -> Greeted (run_jobs now w).
Proof.
  intros H. unfold run_jobs.
  apply (fold_left_invariant Greeted); [|by peel].
  intros a b Ha. by apply greeted_react.
Qed.

Lemma greeted_drain now w : Greeted w -> Greeted (drain now w).
Proof. intros H. unfold drain. by do 2 apply greeted_run_jobs. Qed.

Lemma greeted_append_blocks blocks : forall w,
  Greeted w -> Greeted (world_of (append_blocks blocks w)).
Proof.
  induction blocks as [|b bs IH]; intros w H; [done|].
  simpl. destruct b; try done; repeat (case_match; try done);
    apply IH; unfold append_response; try case_match; greeted.
Qed.

Lemma greeted_handleMessage now msg w :
  Greeted w -> Greeted (world_of (_handleMessage now msg w)).
Proof.
  intros H. unfold _handleMessage, pending_resolve, pending_reject.
  destruct (pendingPromise (self w)) as [p|]; [|done].
  destruct msg; try done; repeat (case_match; try done); simpl;
    first [ by apply greeted_append_blocks | greeted ].
Qed.

Lemma greeted_handleStdout parse now data w :
  Greeted w -> Greeted (_handleStdout parse now data w).
Proof.
  intros H. unfold _handleStdout.
  apply (fold_left_invariant Greeted); [|by peel].
  intros a line Ha. unfold handle_line.
  repeat case_match; try done. by apply greeted_handleMessage.
Qed.

Lemma greeted_on_exit h w : Greeted w -> Greeted (on_exit h w).
Proof.
  intros H. unfold on_exit, pending_reject.
  destruct (procs w !! h) as [pr|] eqn:E; [|done].
  destruct (exited pr); [done|].
  apply (fold_left_invariant Greeted);
    [ intros a c Ha; unfold shutdown_on_exit; greeted |].
  pose proof (greeted_update h pr
                {| pid := pid pr; stdinWritable := stdinWritable pr;
                   exited := true; exitOnce := []; initCall := initCall pr;
                   init := init pr |} w E (fun x => x) H) as Hu.
  simpl. case_match; greeted.
Qed.

Lemma greeted_on_error now h message w :
  Greeted w -> Greeted (on_error now h message w).
Proof.
  intros H. unfold on_error.
  repeat case_match; try done;
    first [ apply greeted_settle_init; greeted | greeted ].
Qed.

Lemma greeted_on_stdin_closed h w : Greeted w -> Greeted (on_stdin_closed h w).
Proof.
  intros H. unfold on_stdin_closed.
  destruct (procs w !! h) as [pr|] eqn:E; [|done].
  by apply (greeted_update h pr).
Qed.

Lemma greeted_fire now tm w : Greeted w -> Greeted (fire now tm w).
Proof.
  intros H. unfold fire. destruct (armed tm w); [|done].
  destruct tm; simpl; repeat case_match;
    first [ apply greeted_settle_init; repeat first [apply greeted_emit_ready
                                                    | progress peel
                                                    | assumption]
          | apply greeted_woken; greeted
          | greeted ].
Qed.

Lemma greeted_anthropicAPI now c r w :
  Greeted w -> Greeted (_anthropicAPI now c r w).
Proof. intros H. unfold _anthropicAPI. repeat case_match; greeted. Qed.

Lemma greeted_initialize now c sp w :
  Greeted w -> Greeted (initialize now c sp w).
Proof.
  intros H. unfold initialize.
  repeat case_match;
    first [ by apply greeted_resume | by apply greeted_start | greeted ].
Qed.

Lemma greeted_shutdown w : Greeted w -> Greeted (shutdown w).
Proof.
  intros H. unfold shutdown.
  change (mode (self (add_call KShutdown w))) with (mode (self w)).
  change (process (self (add_call KShutdown w))) with (process (self w)).
  destruct (mode (self w)); try (by greeted).
  destruct (process (self w)) as [h|]; [|by greeted].
  set (w1 := setTimeout (ForceKillTimer _) _).
  assert (G1 : Greeted w1) by (unfold w1; greeted).
  set (w2 := match writable_process w1 with
             | Some _ => observe (Ended h) (on_stdin_closed h w1)
             | None => w1
             end).
  assert (G2 : Greeted w2).
  { unfold w2. case_match; [|done].
    apply greeted_observe; [done|]. by apply greeted_on_stdin_closed. }
  peel. destruct (procs w2 !! h) as [pr|] eqn:E; [|done].
  by apply (greeted_update h pr).
Qed.

Lemma greeted_handle parse now ev w :
  Greeted w -> Greeted (handle parse now ev w).
Proof.
  intros H. destruct ev; simpl.
  - unfold complete, _persistentComplete.
    repeat case_match;
      first [ apply greeted_initialize | apply greeted_initialized | idtac ];
      greeted.
  - unfold call_initialize. apply greeted_initialize. greeted.
  - by apply greeted_shutdown.
  - case_match; [|done]. by apply greeted_handleStdout.
  - by apply greeted_on_exit.
  - by apply greeted_on_error.
  - by apply greeted_on_stdin_closed.
  - by apply greeted_fire.
  - by apply greeted_anthropicAPI.
Qed.

Lemma greeted_run parse tasks : forall w,
  Greeted w -> Greeted (run parse w tasks).
Proof.
  induction tasks as [|[now ev] tasks IH]; intros w H; [done|].
  simpl. apply IH. unfold step. by apply greeted_drain, greeted_handle.
Qed.

(** [X22] The first thing a child reads is the warmup.  In every run, the
    first prompt written to a child, if any was, is "Hello", written by the
    [_startPersistentProcess] that spawned it; and a child whose input can
    be written to has read it.  No prompt of a caller reaches a child
    before, and none is written to a child that was not spawned. *)
Theorem first_prompt_is_the_warmup
  (parse : string -> option JSON) (config : Config) (host_listens : bool)
  (tasks : list (Z * Event)) (h : nat) :
  let w := run parse (new_world config host_listens) tasks in
  (prompts_of h (history w) = []
   \/ exists later, prompts_of h (history w) = "Hello" :: later)
  /\ (forall pr, procs w !! h = Some pr -> stdinWritable pr = true ->
                 exists later, prompts_of h (history w) = "Hello" :: later)
  /\ ((length (procs w) <= h)%nat -> prompts_of h (history w) = []).
Proof.
  intros w.
  assert (G : Greeted w).
  { apply greeted_run. unfold Greeted. simpl. by split_and!. }
  destruct G as (H1 & H2 & H3).
  assert (Hhead : forall l, prompts_of h (history w) = l -> l <> [] ->
                            exists later, l = "Hello" :: later).
  { intros [|c later] El Hne; [done|]. exists later.
    rewrite (H3 h c); [done|]. by rewrite El. }
  split_and!.
  - destruct (prompts_of h (history w)) as [|c later] eqn:E; [by left|].
    right. by apply Hhead.
  - intros pr Hh Hw. apply Hhead; [done|]. by apply (H2 h pr).
  - apply H1.
Qed.

(** The run of the two callers: the child has read the warmup, then the two
    prompts; no second child was spawned and none was written to. *)
Lemma first_prompt_is_the_warmup_witness :
  let w := run sample_parse (new_world default_config false) two_callers in
  prompts_of 0 (history w) = ["Hello"; "first"; "second"]
  /\ (length (procs w) <= 1)%nat
  /\ (forall pr, procs w !! 0%nat = Some pr -> stdinWritable pr = true ->
                 exists later, prompts_of 0 (history w) = "Hello" :: later)
  /\ prompts_of 1 (history w) = [].
Proof.
  intros w.
  assert (Hl : (length (procs w) <= 1)%nat) by (vm_compute; lia).
  pose proof (first_prompt_is_the_warmup sample_parse default_config false
                two_callers) as H.
  split; [vm_compute; reflexivity|]. split; [exact Hl|].
  split; [exact (proj1 (proj2 (H 0%nat)))|].
  exact (proj2 (proj2 (H 1%nat)) Hl).
Defined.

(** ** [BUSY] and the pending turn *)

Lemma engaged_self w w' : self w' = self w -> Engaged w -> Engaged w'.
Proof. unfold Engaged. by intros ->. Qed.

Lemma engaged_state s w : s <> BUSY -> Engaged (set_state s w).
Proof. unfold Engaged. simpl. congruence. Qed.

Lemma engaged_settle_call c r w : Engaged w -> Engaged (settle_call c r w).
Proof. apply engaged_self, settle_call_self. Qed.

Lemma engaged_settle_calls cs r w : Engaged w -> Engaged (settle_calls cs r w).
Proof. apply engaged_self, settle_calls_self. Qed.

Lemma engaged_settle_turn t r w : Engaged w -> Engaged (settle_turn t r w).
Proof. apply engaged_self, settle_turn_self. Qed.

Lemma engaged_kill h sig w : Engaged w -> Engaged (kill h sig w).
Proof. apply engaged_self, kill_self. Qed.

Lemma engaged_emit_ready w : Engaged w -> Engaged (emit_ready w).
Proof. apply engaged_self, emit_ready_self. Qed.

Lemma engaged_sendMessage now who content w :
  Engaged w -> Engaged (_sendMessage now who content w).
Proof. intros H. unfold _sendMessage. by case_match. Qed.

Ltac engaged :=
  repeat first
    [ assumption
    | progress peel
    | apply engaged_state; discriminate
    | apply engaged_settle_call
    | apply engaged_settle_calls
    | apply engaged_settle_turn
    | apply engaged_kill
    | apply engaged_emit_ready
    | apply engaged_sendMessage ].

Lemma engaged_woken now c prompt w :
  Engaged w -> Engaged (_persistentComplete_woken now c prompt w).
Proof. intros H. unfold _persistentComplete_woken. case_match; engaged. Qed.

Lemma engaged_initialized now c prompt w :
  Engaged w -> Engaged (_persistentComplete_initialized now c prompt w).
Proof.
  intros H. unfold _persistentComplete_initialized.
  case_match; first [by apply engaged_woken | engaged].
Qed.

Lemma engaged_resume now c r w :
  Engaged w -> Engaged (resume_initialize now c r w).
Proof.
  intros H. unfold resume_initialize.
  repeat case_match; first [by apply engaged_initialized | engaged].
Qed.

Lemma engaged_settle_init now h r w :
  Engaged w -> Engaged (settle_init now h r w).
Proof.
  intros H. unfold settle_init.
  repeat case_match; try done; apply engaged_resume; engaged.
Qed.

Lemma engaged_start now c sp w :
  Engaged (_startPersistentProcess now c sp w).
Proof.
  unfold _startPersistentProcess. apply engaged_sendMessage. engaged.
Qed.

Lemma engaged_react now t w : Engaged w -> Engaged (react now t w).
Proof.
  intros H. unfold react, warmup_then, warmup_catch.
  repeat case_match; try done;
    first [ apply engaged_settle_init; engaged | engaged ].
Qed.

Lemma engaged_run_jobs now w : Engaged w -> Engaged (run_jobs now w).
Proof.
  intros H. unfold run_jobs.
  apply (fold_left_invariant Engaged); [|by peel].
  intros a b Ha. by apply engaged_react.
Qed.

Lemma engaged_drain now w : Engaged w -> Engaged (drain now w).
Proof. intros H. unfold drain. by do 2 apply engaged_run_jobs. Qed.

(** Accumulating text keeps the turn pending. *)
Lemma engaged_append_blocks blocks : forall w,
  Engaged w -> Engaged (world_of (append_blocks blocks w)).
Proof.
  induction blocks as [|b bs IH]; intros w H; [done|].
  simpl. destruct b; try done; repeat (case_match; try done);
    apply IH; try done; unfold append_response;
    destruct (pendingPromise (self w)) eqn:Ep; try done;
    intros _; discriminate.
Qed.

Lemma engaged_handleMessage now msg w :
  Engaged w -> Engaged (world_of (_handleMessage now msg w)).
Proof.
  intros H. unfold _handleMessage.
  destruct (pendingPromise (self w)) as [p|] eqn:Ep; [|done].
  destruct msg; try done; repeat (case_match; try done); simpl;
    first [ by apply engaged_append_blocks | engaged ].
Qed.

Lemma engaged_handleStdout parse now data w :
  Engaged w -> Engaged (_handleStdout parse now data w).
Proof.
  intros H. unfold _handleStdout.
  apply (fold_left_invariant Engaged); [|by peel].
  intros a line Ha. unfold handle_line.
  repeat case_match; try done. by apply engaged_handleMessage.
Qed.

Lemma engaged_on_exit h w : Engaged w -> Engaged (on_exit h w).
Proof.
  intros H. unfold on_exit. repeat case_match; try done;
    (apply (fold_left_invariant Engaged);
     [ intros a c Ha; unfold shutdown_on_exit; engaged |]);
    unfold Engaged; simpl; rewrite ?pending_reject_self; done.
Qed.

Lemma engaged_on_error now h message w :
  Engaged w -> Engaged (on_error now h message w).
Proof.
  intros H. unfold on_error.
  repeat case_match; try done;
    first [ apply engaged_settle_init; engaged | engaged ].
Qed.

Lemma engaged_on_stdin_closed h w : Engaged w -> Engaged (on_stdin_closed h w).
Proof. intros H. unfold on_stdin_closed. case_match; engaged. Qed.

Lemma engaged_fire now tm w : Engaged w -> Engaged (fire now tm w).
Proof.
  intros H. unfold fire. destruct (armed tm w); [|done].
  destruct tm; simpl; repeat case_match;
    first [ apply engaged_settle_init; engaged | apply engaged_woken; engaged
          | engaged ].
Qed.

Lemma engaged_anthropicAPI now c r w :
  Engaged w -> Engaged (_anthropicAPI now c r w).
Proof. intros H. unfold _anthropicAPI. repeat case_match; engaged. Qed.

Lemma engaged_initialize now c sp w :
  Engaged w -> Engaged (initialize now c sp w).
Proof.
  intros H. unfold initialize.
  repeat case_match;
    first [ by apply engaged_resume | by apply engaged_start | engaged ].
Qed.

Lemma engaged_shutdown w : Engaged w -> Engaged (shutdown w).
Proof. apply engaged_self, shutdown_self. Qed.

Lemma engaged_handle parse now ev w :
  Engaged w -> Engaged (handle parse now ev w).
Proof.
  intros H. destruct ev; simpl.
  - unfold complete, _persistentComplete.
    repeat case_match;
      first [ apply engaged_initialize | apply engaged_initialized | idtac ];
      engaged.
  - unfold call_initialize. apply engaged_initialize. engaged.
  - by apply engaged_shutdown.
  - case_match; [|done]. by apply engaged_handleStdout.
  - by apply engaged_on_exit.
  - by apply engaged_on_error.
  - by apply engaged_on_stdin_closed.
  - by apply engaged_fire.
  - by apply engaged_anthropicAPI.
Qed.

Lemma engaged_run parse tasks : forall w,
  Engaged w -> Engaged (run parse w tasks).
Proof.
  induction tasks as [|[now ev] tasks IH]; intros w H; [done|].
  simpl. apply IH. unfold step. by apply engaged_drain, engaged_handle.
Qed.

(** [X23] What the state says about turns, for a host that keeps to
    [complete()] (and to [initialize()] while no turn is pending).  When the
    provider is [READY], no turn is pending and none is open.  When it is
    [BUSY], a turn is pending, that turn is open and its timeout is armed:
    [BUSY] ends when the turn is answered, or [timeout] milliseconds after
    the turn was sent at the latest, so that the callers that wait for
    [READY] are not kept waiting by a turn for ever. *)
Theorem busy_means_a_turn_is_pending
  (parse : string -> option JSON) (config : Config) (host_listens : bool)
  (tasks : list (Z * Event)) :
  host_keeps_off parse (new_world config host_listens) tasks ->
  let w := run parse (new_world config host_listens) tasks in
  (state (self w) = READY ->
   pendingPromise (self w) = None /\ forall t, ~ open_turn w t)
  /\ (state (self w) = BUSY ->
      exists t, slot_turn w = Some t /\ open_turn w t
                /\ armed (TurnTimer t) w = true).
Proof.
  intros Hh w.
  destruct (run_inv parse tasks (new_world config host_listens) Hh
              (new_world_inv config host_listens)) as (H & Hi & _).
  destruct (orderly_run parse tasks _
              (orderly_new_world config host_listens)) as (H1 & _).
  assert (He : Engaged w) by (by apply engaged_run).
  fold w in H, Hi, H1. split.
  - intros Hs.
    assert (Hn : pendingPromise (self w) = None).
    { apply slot_none. destruct (slot_turn w) eqn:E; [|done].
      destruct Hi as [Hb|Hb]; [by rewrite E|congruence..]. }
    split; [exact Hn|]. intros t. by apply no_open.
  - intros Hs. specialize (He Hs).
    destruct (slot_turn w) as [t|] eqn:E.
    + exists t. assert (Ho : open_turn w t) by (by apply (ok_slot _ H)).
      split_and!; try done. apply bool_decide_eq_true. by apply H1.
    + by apply slot_none in E.
Qed.

Lemma busy_means_a_turn_is_pending_witness :
  let tasks := firstn 4 two_callers in
  let w := run sample_parse (new_world default_config false) tasks in
  host_keeps_off sample_parse (new_world default_config false) tasks
  /\ state (self w) = BUSY
  /\ exists t, slot_turn w = Some t /\ open_turn w t
               /\ armed (TurnTimer t) w = true.
Proof.
  assert (H : host_keeps_off sample_parse (new_world default_config false)
                (firstn 4 two_callers)).
  { apply only_completes_keeps_off. repeat constructor. }
  split; [exact H|]. split; [reflexivity|].
  exact (proj2 (busy_means_a_turn_is_pending sample_parse default_config false
                  (firstn 4 two_callers) H) eq_refl).
Defined.

(** ** The [error] event of a child *)

(** [X24] The [error] listener of a child sets the state to [ERROR] and
    emits [error] on the provider before it rejects the promise of
    [_startPersistentProcess].  When the host listens for [error], the call
    that spawned the child and still waits for it ([initialize()], or the
    [complete()] that auto-initialised) is rejected with the error; the
    pending turn is not touched.  When nobody listens, [emit] throws and the
    listener ends there: the state is [ERROR] and that is all, the promise
    is not rejected. *)
Theorem process_error_rejects_initialization
  (parse : string -> option JSON) (now : Z) (h : nat) (message : string)
  (w : World) (pr : Proc) (k : CallKind) :
  jobs w = [] -> errorOnce w = [] ->
  procs w !! h = Some pr -> init pr = Pending ->
  calls w !! initCall pr = Some {| kind := k; promise := Pending |} ->
  let w' := step parse now (ProcessError h message) w in
  state (self w') = ERROR
  /\ pendingPromise (self w') = pendingPromise (self w)
  /\ turns w' = turns w /\ timers w' = timers w /\ history w' = history w
  /\ promise_of (initCall pr) w'
     = Some (if hostListensError w then Rejected message else Pending).
Proof.
  intros Hj He Hh Hi Hc w'. subst w'. unfold step. simpl.
  unfold on_error. rewrite Hh. simpl. rewrite He.
  destruct (hostListensError w) eqn:El.
  - unfold settle_calls. simpl. unfold settle_init. simpl. rewrite Hh, Hi.
    simpl. unfold resume_initialize. simpl. rewrite Hc. simpl.
    assert (E : forall w0, calls w0 = calls w ->
      settle_call (initCall pr) (Rejected message) w0
      = set_calls (<[initCall pr := {| kind := k;
                                       promise := Rejected message |}]>
                     (calls w)) w0).
    { intros w0 E0. unfold settle_call. by rewrite E0, Hc. }
    assert (Hlt : (initCall pr < length (calls w))%nat)
      by (by eapply lookup_lt_Some).
    destruct k; try done; rewrite E by done;
      (rewrite drain_idle by done); unfold promise_of; simpl;
      rewrite list_lookup_insert_eq by done; done.
  - rewrite drain_idle by done. unfold promise_of. simpl. by rewrite Hc.
Qed.

(** An error of the child during its warmup, with a host that listens for
    [error] and with one that does not. *)
Lemma process_error_rejects_initialization_witness :
  let start := [(0, CallComplete "hello" None (spawned_ok 41))] in
  let heard := run sample_parse (new_world default_config true) start in
  let unheard := run sample_parse (new_world default_config false) start in
  let error := ProcessError 0 "write EPIPE" in
  promise_of 0 (step sample_parse 5 error heard)
  = Some (Rejected "write EPIPE")
  /\ state (self (step sample_parse 5 error heard)) = ERROR
  /\ promise_of 0 (step sample_parse 5 error unheard) = Some Pending
  /\ state (self (step sample_parse 5 error unheard)) = ERROR.
Proof.
  pose proof (process_error_rejects_initialization sample_parse 5 0
                "write EPIPE"
                (run sample_parse (new_world default_config true)
                   [(0, CallComplete "hello" None (spawned_ok 41))])
                {| pid := Some 41%nat; stdinWritable := true; exited := false;
                   exitOnce := []; initCall := 0%nat; init := Pending |}
                (KComplete "hello")
                eq_refl eq_refl eq_refl eq_refl eq_refl)
    as (H1 & _ & _ & _ & _ & H2).
  pose proof (process_error_rejects_initialization sample_parse 5 0
                "write EPIPE"
                (run sample_parse (new_world default_config false)
                   [(0, CallComplete "hello" None (spawned_ok 41))])
                {| pid := Some 41%nat; stdinWritable := true; exited := false;
                   exitOnce := []; initCall := 0%nat; init := Pending |}
                (KComplete "hello")
                eq_refl eq_refl eq_refl eq_refl eq_refl)
    as (H3 & _ & _ & _ & _ & H4).
  by split_and!.
Defined.

(** ** The exit of a child after [shutdown()] *)

Lemma settle_call_settled c r w v :
  promise_of c w = Some v -> v <> Pending ->
  promise_of c (settle_call c r w) = Some v.
Proof.
  unfold promise_of, settle_call. intros Hp Hv.
  destruct (calls w !! c) as [cl|] eqn:E; [|done].
  simpl in Hp. injection Hp as Hp.
  destruct (promise cl) eqn:Ep.
  - destruct Hv.
    first [exact (eq_trans (eq_sym Hp) Ep) | by symmetry | congruence].
  - rewrite E. simpl. f_equal.
    first [exact Hp | exact (eq_trans (eq_sym Ep) Hp) | congruence].
  - rewrite E. simpl. f_equal.
    first [exact Hp | exact (eq_trans (eq_sym Ep) Hp) | congruence].
Qed.

Lemma settle_call_resolves c r w :
  promise_of c w = Some Pending -> promise_of c (settle_call c r w) = Some r.
Proof.
  unfold promise_of. intros Hp.
  destruct (calls w !! c) as [cl|] eqn:E; [|done].
  simpl in Hp. injection Hp as Hp.
  rewrite (settle_call_pending c cl) by done. simpl.
  by rewrite list_lookup_insert_eq by (by eapply lookup_lt_Some).
Qed.

Lemma shutdown_on_exit_fold_calls cs : forall w,
  let w' := fold_left shutdown_on_exit cs w in
  (forall c, c ∈ cs -> promise_of c w = Some Pending ->
             promise_of c w' = Some (Resolved None))
  /\ (forall c, c ∈ cs -> ForceKillTimer c ∉ timers w')
  /\ (forall tm, tm ∈ timers w' -> tm ∈ timers w).
Proof.
  induction cs as [|c0 cs IH]; intros w; simpl.
  - split_and!; try done; intros c Hin; by apply elem_of_nil in Hin.
  - destruct (IH (shutdown_on_exit w c0)) as (H1 & H2 & H3).
    assert (Hsub : forall tm, tm ∈ timers (shutdown_on_exit w c0) ->
                              tm ∈ timers w /\ tm <> ForceKillTimer c0).
    { intros tm. unfold shutdown_on_exit. rewrite settle_call_timers. simpl.
      rewrite list_elem_of_filter. tauto. }
    assert (Hkeep : forall w0 c, promise_of c w0 = Some (Resolved None) ->
              promise_of c (fold_left shutdown_on_exit cs w0)
              = Some (Resolved None)).
    { clear. induction cs as [|c1 cs IH]; intros w0 c Hp; [done|].
      simpl. apply IH. unfold shutdown_on_exit.
      destruct (decide (c = c1)) as [->|Hne].
      - by apply settle_call_settled.
      - by rewrite settle_call_other. }
    split_and!.
    + intros c Hin Hp. destruct (decide (c = c0)) as [->|Hne].
      * apply Hkeep. unfold shutdown_on_exit. by apply settle_call_resolves.
      * apply elem_of_cons in Hin as [?|Hin]; [done|].
        apply H1; [done|]. unfold shutdown_on_exit.
        by rewrite settle_call_other.
    + intros c Hin Harmed. apply elem_of_cons in Hin as [->|Hin].
      * apply H3, Hsub in Harmed as [_ Hne]. done.
      * by apply (H2 c).
    + intros tm Hin. by apply H3, Hsub in Hin as [Hin _].
Qed.

(** [X25] When the child exits after [shutdown()], also before the first
    second is over: every [shutdown()] call that waits on this child is
    resolved, its force-kill timer is cleared (no [SIGKILL] will follow),
    the handle of the child is dropped and the state is [STOPPED]; and the
    listeners send no signal. *)
Theorem exit_after_shutdown_resolves_it
  (parse : string -> option JSON) (now : Z) (h : nat) (w : World) (pr : Proc) :
  jobs w = [] ->
  procs w !! h = Some pr -> exited pr = false ->
  pendingPromise (self w) = None ->
  let w' := step parse now (ProcessExit h) w in
  (forall c, c ∈ exitOnce pr -> promise_of c w = Some Pending ->
             promise_of c w' = Some (Resolved None))
  /\ (forall c, c ∈ exitOnce pr -> armed (ForceKillTimer c) w' = false)
  /\ process (self w') = None /\ state (self w') = STOPPED
  /\ history w' = ExitSeen h :: history w.
Proof.
  intros Hj Hh He Hp w'.
  assert (E : w' = on_exit h w).
  { unfold w', step. simpl. apply drain_idle.
    unfold on_exit. rewrite Hh, He. simpl. rewrite Hp.
    match goal with |- context [fold_left shutdown_on_exit ?cs ?w0] =>
      destruct (shutdown_on_exit_fold cs w0) as (_ & -> & _)
    end. done. }
  rewrite E. unfold on_exit. rewrite Hh, He. simpl. rewrite Hp.
  match goal with |- context [fold_left shutdown_on_exit ?cs ?w0] =>
    destruct (shutdown_on_exit_fold cs w0) as (_ & _ & _ & Eh & _ & Es);
    destruct (shutdown_on_exit_fold_calls cs w0) as (H1 & H2 & _)
  end.
  rewrite Eh, Es by done. simpl. split_and!; try done.
  intros c Hin. apply bool_decide_eq_false. by apply H2.
Qed.

Lemma exit_after_shutdown_resolves_it_witness :
  let w := run sample_parse ready [(2000, CallShutdown)] in
  let w' := step sample_parse 2200 (ProcessExit 0) w in
  promise_of 1 w = Some Pending
  /\ armed (ForceKillTimer 1) w = true
  /\ promise_of 1 w' = Some (Resolved None)
  /\ armed (ForceKillTimer 1) w' = false
  /\ state (self w') = STOPPED
  /\ history w' = ExitSeen 0 :: history w.
Proof.
  do 2 (split; [reflexivity|]).
  pose proof (exit_after_shutdown_resolves_it sample_parse 2200 0
                (run sample_parse ready [(2000, CallShutdown)])
                {| pid := Some 41%nat; stdinWritable := false; exited := false;
                   exitOnce := [1%nat]; initCall := 0%nat;
                   init := Resolved (Some (JBool true)) |}
                eq_refl eq_refl eq_refl eq_refl)
    as (H1 & H2 & _ & H4 & H5).
  assert (Hin : 1%nat ∈ [1%nat]) by (by apply list_elem_of_singleton).
  split; [exact (H1 1%nat Hin eq_refl)|].
  split; [exact (H2 1%nat Hin)|].
  split; [exact H4|exact H5].
Defined.

(** ** The caller that extracts entities and facts *)

Lemma from_first_brace_app pre rest :
  has_char "{" pre = false ->
  from_first_brace (pre +:+ String "{" rest) = Some (String "{" rest).
Proof.
  induction pre as [|c pre IH]; [done|].
  change (String c pre +:+ String "{" rest)
    with (String c (pre +:+ String "{" rest)).
  simpl. destruct (Ascii.eqb c "{"); [done|]. exact IH.
Qed.

Lemma upto_last_brace_none post :
  has_char "}" post = false -> upto_last_brace post = None.
Proof.
  induction post as [|c post IH]; [done|]. simpl.
  destruct (Ascii.eqb c "}"); [done|]. simpl. intros H. by rewrite IH.
Qed.

Lemma upto_last_brace_app body post :
  has_char "}" post = false ->
  upto_last_brace (body +:+ String "}" post) = Some (body +:+ "}").
Proof.
  intros Hp. induction body as [|c body IH].
  - change ("" +:+ String "}" post) with (String "}" post). simpl.
    by rewrite upto_last_brace_none.
  - change (String c body +:+ String "}" post)
      with (String c (body +:+ String "}" post)).
    simpl. by rewrite IH.
Qed.

Lemma json_match_span pre body post :
  has_char "{" pre = false -> has_char "}" post = false ->
  json_match (pre +:+ String "{" body +:+ String "}" post)
  = Some (String "{" body +:+ "}").
Proof.
  intros Hpre Hpost. unfold json_match.
  change (String "{" body +:+ String "}" post)
    with (String "{" (body +:+ String "}" post)).
  rewrite from_first_brace_app by done. simpl.
  change (String "{" (body +:+ String "}" post))
    with (String "{" body +:+ String "}" post).
  by rewrite upto_last_brace_app.
Qed.

Lemma json_match_none s :
  has_char "{" s = false \/ has_char "}" s = false -> json_match s = None.
Proof.
  unfold json_match. intros [H|H].
  - assert (E : from_first_brace s = None); [|by rewrite E].
    induction s as [|c s IH]; [done|]. simpl in *.
    destruct (Ascii.eqb c "{"); [done|]. by apply IH.
  - destruct (from_first_brace s) as [rest|] eqn:E; [|done]. simpl.
    apply upto_last_brace_none.
    revert rest E. induction s as [|c s IH]; intros rest E; [done|].
    simpl in *. destruct (Ascii.eqb c "}") eqn:Ec; [done|]. simpl in H.
    destruct (Ascii.eqb c "{"); [|by apply IH].
    injection E as <-. simpl. by rewrite Ec.
Qed.

(** [X26] [extractEntitiesAndFacts] reads the answer of the provider from
    its first opening brace to its last closing brace: what the model writes
    before the first and after the last does not count, and what is between
    them is handed to [JSON.parse] as one text, also when it is more than
    one object. *)
Theorem extraction_reads_the_outer_braces
  (parse : string -> option JSON) (pre body post : string) :
  has_char "{" pre = false ->
  has_char "}" post = false ->
  let span := String "{" body +:+ "}" in
  let response := pre +:+ String "{" body +:+ String "}" post in
  json_match response = Some span
  /\ json_match span = Some span
  /\ extraction_of parse (Resolved (Some (JStr response)))
     = extraction_of parse (Resolved (Some (JStr span))).
Proof.
  intros Hpre Hpost span response.
  assert (E1 : json_match response = Some span) by (by apply json_match_span).
  assert (E2 : json_match span = Some span).
  { pose proof (json_match_span "" body "" eq_refl eq_refl) as E.
    exact E. }
  split; [exact E1|]. split; [exact E2|]. simpl. by rewrite E1, E2.
Qed.

Lemma extraction_reads_the_outer_braces_witness :
  let pre := "Here is the JSON you asked for: " in
  let body := json_text "'entities': ['LLMProvider'], 'facts': []" in
  let post := " Hope this helps." in
  let response := pre +:+ String "{" body +:+ String "}" post in
  has_char "{" pre = false /\ has_char "}" post = false
  /\ json_match response = Some (String "{" body +:+ "}")
  /\ extraction_of sample_parse (Resolved (Some (JStr response)))
     = Some {| entities := JArr [JStr "LLMProvider"]; facts := JArr [] |}.
Proof.
  do 2 (split; [reflexivity|]).
  pose proof (extraction_reads_the_outer_braces sample_parse
                "Here is the JSON you asked for: "
                (json_text "'entities': ['LLMProvider'], 'facts': []")
                " Hope this helps." eq_refl eq_refl) as (H1 & _ & H3).
  split; [exact H1|]. rewrite H3. reflexivity.
Defined.

(** [X27] [extractEntitiesAndFacts] never fails and never tells a failure
    from an empty answer: it returns empty lists when the call of the
    provider is rejected (a timeout, the exit of the child, "Provider not
    ready", "Process not running"), when the answer is not a string, when
    it has no opening or no closing brace, and when the text between the
    outer braces is not JSON. *)
Theorem extraction_falls_back_to_empty (parse : string -> option JSON) :
  (forall e, extraction_of parse (Rejected e) = Some no_extraction)
  /\ (forall v, (forall s, v <> Some (JStr s)) ->
                extraction_of parse (Resolved v) = Some no_extraction)
  /\ (forall s, has_char "{" s = false \/ has_char "}" s = false ->
                extraction_of parse (Resolved (Some (JStr s)))
                = Some no_extraction)
  /\ (forall s text, json_match s = Some text -> parse text = None ->
                     extraction_of parse (Resolved (Some (JStr s)))
                     = Some no_extraction).
Proof.
  split_and!.
  - done.
  - intros [[]|] Hv; try done. by destruct (Hv s).
  - intros s Hs. simpl. by rewrite json_match_none.
  - intros s text Hm Hp. simpl. by rewrite Hm, Hp.
Qed.

Lemma extraction_falls_back_to_empty_witness :
  extraction_of sample_parse (Rejected "Timeout after 120000ms")
  = Some no_extraction
  /\ extraction_of sample_parse (Resolved (Some (JNum "42")))
     = Some no_extraction
  /\ extraction_of sample_parse (Resolved (Some (JStr "no entities found")))
     = Some no_extraction
  /\ extraction_of sample_parse
       (Resolved (Some (JStr (json_text "{'entities': [} and {'facts': []}"))))
     = Some no_extraction.
Proof.
  pose proof (extraction_falls_back_to_empty sample_parse)
    as (H1 & H2 & H3 & H4).
  split; [exact (H1 _)|]. split; [by apply H2|].
  split; [apply H3; by left|].
  by apply (H4 _ (json_text "{'entities': [} and {'facts': []}")).
Defined.

(** The server extracts from a memory on a provider that is [READY]; the
    child answers in prose around the JSON object. *)
Example extraction_end_to_end :
  let system := extraction_system_prompt (Some "a memory service") None in
  let prompt := extraction_prompt "LLMProvider keeps one child" in
  let answer :=
    json_text "Sure: {\'entities\': [\'LLMProvider\'], \'facts\': []}" in
  let w := run sample_parse ready
             [(1000, CallComplete prompt (Some system) (spawned_ok 0));
              (1900, StdoutData 0 (result_line answer))] in
  prompts_of 0 (history w)
  = ["Hello"; system +:+ blank_line +:+ "---" +:+ blank_line +:+ prompt]
  /\ (promise_of 1 w ≫= extraction_of sample_parse)
     = Some {| entities := JArr [JStr "LLMProvider"]; facts := JArr [] |}.
Proof. vm_compute. done. Qed.

(** ** The line of a turn, read back *)

Lemma parse_chars_quote_char c tail :
  plain_char c = true ->
  parse_chars (quote_char c +:+ tail)
  = '(str, r) ← parse_chars tail; Some (String c str, r).
Proof. destruct c as [[] [] [] [] [] [] [] []]; done. Qed.

Lemma parse_chars_quote_chars s rest :
  forallb plain_char (list_ascii_of_string s) = true ->
  parse_chars (quote_chars s +:+ String dquote rest) = Some (s, rest).
Proof.
  induction s as [|c s IH]; [done|]. simpl.
  intros [Hc Hs]%andb_prop.
  rewrite string_app_assoc, parse_chars_quote_char by done.
  by rewrite IH.
Qed.

Lemma string_length_app (a b : string) :
  String.length (a +:+ b) = (String.length a + String.length b)%nat.
Proof.
  induction a as [|c a IH]; [done|].
  change (S (String.length (a +:+ b))
          = S (String.length a + String.length b)). by rewrite IH.
Qed.

Lemma sample_parse_user_message content :
  forallb plain_char (list_ascii_of_string content) = true ->
  sample_parse (user_message content)
  = Some (JObj [("type", JStr "user");
                ("message", JObj [("role", JStr "user");
                                  ("content", JStr content)])]).
Proof.
  intros Hc. unfold sample_parse.
  set (n := String.length (user_message content)).
  assert (Hn : exists m, (2 * n + 2 = 7 + m)%nat).
  { exists (2 * n - 5)%nat. subst n. unfold user_message.
    rewrite string_length_app. simpl. lia. }
  destruct Hn as [m ->]. clear n.
  assert (E : user_message content
              = json_text "{'type':'user','message':{'role':'user','content':"
                +:+ String dquote (quote_chars content +:+ String dquote "}}")).
  { unfold user_message, JSON_stringify_string.
    rewrite (string_app_assoc (String dquote (quote_chars content))).
    reflexivity. }
  rewrite E. clear E.
  pose proof (parse_chars_quote_chars content "}}" Hc) as Hp.
  revert Hp. generalize (quote_chars content +:+ String dquote "}}").
  intros rest Hp.
  let s := eval cbv in
    (json_text "{'type':'user','message':{'role':'user','content':") in
  change (json_text "{'type':'user','message':{'role':'user','content':")
    with s.
  cbv [String.append]. simpl. rewrite Hp. reflexivity.
Qed.

(** ** Chunks of output, event after event *)

Lemma append_blocks_jobs blocks : forall w,
  jobs (world_of (append_blocks blocks w)) = jobs w.
Proof.
  induction blocks as [|b bs IH]; intros w; [done|].
  simpl. destruct b; try done; repeat (case_match; try done);
    rewrite IH; unfold append_response; by destruct (pendingPromise (self w)).
Qed.

Lemma handleMessage_procs now msg w :
  procs (world_of (_handleMessage now msg w)) = procs w.
Proof.
  unfold _handleMessage.
  destruct (pendingPromise (self w)) as [p|]; [|done].
  destruct msg; try done;
    repeat (case_match; try done); simpl;
    rewrite ?append_blocks_procs; try done;
    unfold pending_resolve, pending_reject;
    by rewrite settle_turn_procs.
Qed.

Lemma handleStdout_procs parse now data w :
  procs (_handleStdout parse now data w) = procs w.
Proof.
  unfold _handleStdout.
  apply (fold_left_invariant (fun a => procs a = procs w)); [|done].
  intros a line Ha. unfold handle_line.
  destruct (nonempty _); [|done]. destruct (parse _); [|done].
  by rewrite handleMessage_procs.
Qed.

(** A message ends a turn, and the statistics count it; or it ends none,
    queues no reaction and is read alike at any time. *)
Lemma handleMessage_tally now msg w :
  let w' := world_of (_handleMessage now msg w) in
  (turns_ended w' = turns_ended w /\ jobs w' = jobs w
   /\ forall now', world_of (_handleMessage now' msg w) = w')
  \/ turns_ended w' = turns_ended w + 1.
Proof.
  unfold _handleMessage, turns_ended.
  destruct (pendingPromise (self w)) as [p|]; [|by left].
  destruct msg; try (by left);
    repeat (case_match; try (by left)); simpl;
    first [ left; rewrite append_blocks_stats, append_blocks_jobs; done
          | right; rewrite ?pending_resolve_self, ?pending_reject_self;
            simpl; lia ].
Qed.

Lemma deliver_tally now msgs : forall w,
  turns_ended w <= turns_ended (deliver now msgs w).
Proof.
  induction msgs as [|m ms IH]; intros w; [simpl; lia|].
  simpl. fold (deliver now ms).
  specialize (IH (world_of (_handleMessage now m w))).
  destruct (handleMessage_tally now m w) as [(E & _)|E]; simpl in E; lia.
Qed.

Lemma deliver_quiet now msgs : forall w,
  turns_ended (deliver now msgs w) = turns_ended w ->
  jobs (deliver now msgs w) = jobs w
  /\ forall now', deliver now' msgs w = deliver now msgs w.
Proof.
  induction msgs as [|m ms IH]; intros w H; [done|].
  simpl in *. fold (deliver now ms) in *.
  pose proof (deliver_tally now ms (world_of (_handleMessage now m w))) as Hle.
  destruct (handleMessage_tally now m w) as [(E & Hj & Hn)|E];
    [|simpl in E; lia].
  simpl in E, Hj, Hn.
  destruct (IH (world_of (_handleMessage now m w))) as [Hj' Hn']; [lia|].
  split; [by rewrite Hj', Hj|].
  intros now'. fold (deliver now' ms). by rewrite Hn, Hn'.
Qed.

Lemma handleStdout_quiet parse now data w :
  stats (self (_handleStdout parse now data w)) = stats (self w) ->
  jobs (_handleStdout parse now data w) = jobs w
  /\ forall now', _handleStdout parse now' data w
                  = _handleStdout parse now data w.
Proof.
  destruct (every_text_has_lines (stdoutBuffer (self w) +:+ data))
    as (lines & rest & E & Hl & Hr).
  rewrite (handleStdout_unlines parse now data w lines rest) by done.
  intros H.
  destruct (deliver_quiet now (omap (decode_line parse) lines) w)
    as [Hj Hn].
  { unfold turns_ended. simpl in H. by rewrite H. }
  split; [done|]. intros now'.
  rewrite (handleStdout_unlines parse now' data w lines rest) by done.
  by rewrite Hn.
Qed.

Lemma Buffer_toString_app a : forall b ta tb,
  Buffer_toString a = Some ta -> Buffer_toString b = Some tb ->
  Buffer_toString (a ++ b) = Some (ta +:+ tb).
Proof.
  remember (length a) as n eqn:Hn. revert a Hn.
  induction n as [n IH] using lt_wf_ind. intros a Hn b ta tb Ha Hb.
  destruct a as [|x rest]; [by injection Ha as <-|].
  cbn [Buffer_toString app] in *.
  destruct (Byte.to_N x <? 128)%N.
  - destruct (Buffer_toString rest) as [t|] eqn:Er; [|done].
    injection Ha as <-.
    rewrite (IH (length rest) ltac:(simpl in Hn; lia) rest eq_refl b t tb)
      by done.
    done.
  - destruct ((Byte.to_N x =? 194) || (Byte.to_N x =? 195))%N; [|done].
    destruct rest as [|y rest']; [done|]. cbn [app].
    destruct ((128 <=? Byte.to_N y) && (Byte.to_N y <? 192))%N; [|done].
    destruct (Buffer_toString rest') as [t|] eqn:Er; [|done].
    injection Ha as <-.
    rewrite (IH (length rest') ltac:(simpl in Hn; lia) rest' eq_refl b t tb)
      by done.
    done.
Qed.

(** A chunk that ends in the first byte of a longer character has no text
    here: the code reads U+FFFD for the cut character, and again for its
    other bytes at the start of the next chunk. *)
Lemma cut_character_has_no_text a : forall lead,
  (192 <= Byte.to_N lead)%N -> Buffer_toString (a ++ [lead]) = None.
Proof.
  remember (length a) as n eqn:Hn. revert a Hn.
  induction n as [n IH] using lt_wf_ind. intros a Hn lead Hlead.
  destruct a as [|x rest].
  - cbn [Buffer_toString app].
    destruct (N.ltb_spec (Byte.to_N lead) 128); [lia|].
    by destruct ((Byte.to_N lead =? 194) || (Byte.to_N lead =? 195))%N.
  - cbn [Buffer_toString app].
    destruct (Byte.to_N x <? 128)%N.
    + by rewrite (IH (length rest) ltac:(simpl in Hn; lia) rest eq_refl).
    + destruct ((Byte.to_N x =? 194) || (Byte.to_N x =? 195))%N; [|done].
      destruct rest as [|y rest']; cbn [app].
      * destruct (N.ltb_spec (Byte.to_N lead) 192); [lia|].
        by rewrite andb_false_r.
      * destruct ((128 <=? Byte.to_N y) && (Byte.to_N y <? 192))%N; [|done].
        by rewrite (IH (length rest') ltac:(simpl in Hn; lia) rest' eq_refl).
Qed.

(** [X1] The decoding does not depend on where the output of the child is
    cut into chunks, as long as the cut is not inside a character and not
    after the end of a turn.  Two [data] events whose chunks have a text
    each, the first of which ends no turn (it leaves the statistics as they
    were: no completion, no error), leave the provider as the one event
    with the two chunks joined, at the time of the second, does. *)
Theorem stdout_chunks_compose
  (parse : string -> option JSON) (t1 t2 : Z) (h : nat)
  (a b : list Byte.byte) (w wa wb : World) :
  jobs w = [] ->
  on_data parse t1 h a w = Some wa ->
  stats (self wa) = stats (self w) ->
  on_data parse t2 h b wa = Some wb ->
  on_data parse t2 h (a ++ b) w = Some wb.
Proof.
  unfold on_data. intros Hj Ha Hs Hb.
  destruct (Buffer_toString a) as [ta|] eqn:Ea; [|done].
  destruct (Buffer_toString b) as [tb|] eqn:Eb; [|done].
  injection Ha as <-. injection Hb as <-.
  rewrite (Buffer_toString_app a b ta tb Ea Eb). simpl. f_equal.
  unfold step in *. simpl in *. rewrite drain_stats in Hs.
  destruct (procs w !! h) as [pr|] eqn:Hh.
  - destruct (handleStdout_quiet parse t1 ta w Hs) as [Hj1 Hn].
    rewrite (drain_idle t1 (_handleStdout parse t1 ta w)) by congruence.
    rewrite handleStdout_procs, Hh.
    by rewrite handleStdout_app, (Hn t2).
  - rewrite (drain_idle t1 w Hj). by rewrite Hh.
Qed.

(** A fragment with a two-byte character and the first half of the result
    line, then the rest of the result line: read in two events or in one,
    the turn resolves with the text of the fragment. *)
Lemma stdout_chunks_compose_witness :
  let head := json_text "{'type':'assistant','message':{'content':"
              +:+ json_text "[{'type':'text','text':'caf" in
  let tail := json_text "'}]}}" +:+ line_break +:+ json_text "{'type':'res" in
  let a := list_byte_of_string head ++ [Byte.xc3; Byte.xa9]
           ++ list_byte_of_string tail in
  let b := list_byte_of_string
             (json_text "ult','result':''}" +:+ line_break) in
  let text_a := head +:+ String "233" "" +:+ tail in
  let wa := step sample_parse 1500 (StdoutData 0 text_a) busy in
  let wb := step sample_parse 1600
              (StdoutData 0 (json_text "ult','result':''}" +:+ line_break))
              wa in
  jobs busy = []
  /\ on_data sample_parse 1500 0 a busy = Some wa
  /\ stats (self wa) = stats (self busy)
  /\ on_data sample_parse 1600 0 b wa = Some wb
  /\ on_data sample_parse 1600 0 (a ++ b) busy = Some wb
  /\ promise_of 1 wa = Some Pending
  /\ promise_of 1 wb
     = Some (Resolved (Some (JStr ("caf" +:+ String "233" "")))).
Proof.
  intros head tail a b text_a wa wb.
  assert (H1 : jobs busy = []) by (vm_compute; reflexivity).
  assert (H2 : on_data sample_parse 1500 0 a busy = Some wa)
    by (vm_compute; reflexivity).
  assert (H3 : stats (self wa) = stats (self busy))
    by (vm_compute; reflexivity).
  assert (H4 : on_data sample_parse 1600 0 b wa = Some wb)
    by (vm_compute; reflexivity).
  split_and!; [exact H1 | exact H2 | exact H3 | exact H4 | |
               vm_compute; reflexivity | vm_compute; reflexivity].
  exact (stdout_chunks_compose sample_parse 1500 1600 0%nat a b busy wa wb
           H1 H2 H3 H4).
Defined.

(** Where the first chunk ends a turn, the cut counts.  A [complete()]
    waits for the warmup; the child answers the warmup and, in the next
    line, writes a second result.  In one event the second result finds no
    pending turn and is dropped, and the prompt is sent after it; in two
    events the prompt is sent in between, and the second result answers
    it. *)
Example chunk_after_turn_end_differs :
  let w := run sample_parse fresh
             [(0, CallComplete "first" None (spawned_ok 41))] in
  let a := list_byte_of_string (result_line "Hello!") in
  let b := list_byte_of_string (result_line "early") in
  (state ∘ self <$> on_data sample_parse 900 0 (a ++ b) w) = Some BUSY
  /\ (promise_of 0%nat <$> on_data sample_parse 900 0 (a ++ b) w)
     = Some (Some Pending)
  /\ (state ∘ self
        <$> (on_data sample_parse 900 0 a w ≫= on_data sample_parse 900 0 b))
     = Some READY
  /\ (promise_of 0%nat
        <$> (on_data sample_parse 900 0 a w ≫= on_data sample_parse 900 0 b))
     = Some (Some (Resolved (Some (JStr "early")))).
Proof. vm_compute. split_and!; reflexivity. Qed.

(** ** The stream buffer and the life of a child *)

Lemma fixed_buffer w w' :
  fixed w' = fixed w -> stdoutBuffer (self w') = stdoutBuffer (self w).
Proof. unfold fixed. congruence. Qed.

Lemma fire_buffer now tm w :
  stdoutBuffer (self (fire now tm w)) = stdoutBuffer (self w).
Proof.
  unfold fire. destruct (armed tm w); [|done].
  destruct tm; simpl; repeat case_match;
    rewrite ?(fixed_buffer _ _ (settle_init_fixed _ _ _ _)),
      ?(fixed_buffer _ _ (persistentComplete_woken_fixed _ _ _ _)); by frame.
Qed.

Lemma startPersistentProcess_buffer now c sp w :
  stdoutBuffer (self (_startPersistentProcess now c sp w))
  = stdoutBuffer (self w).
Proof.
  unfold _startPersistentProcess.
  by rewrite (fixed_buffer _ _ (sendMessage_fixed _ _ _ _)).
Qed.

Lemma initialize_buffer now c sp w :
  stdoutBuffer (self (initialize now c sp w)) = stdoutBuffer (self w).
Proof.
  unfold initialize.
  repeat case_match;
    rewrite ?(fixed_buffer _ _ (resume_initialize_fixed _ _ _ _)),
      ?startPersistentProcess_buffer; done.
Qed.

Lemma complete_buffer now prompt sys sp w :
  stdoutBuffer (self (complete now prompt sys sp w)) = stdoutBuffer (self w).
Proof.
  unfold complete, _persistentComplete.
  repeat case_match;
    rewrite ?settle_call_self, ?initialize_buffer,
      ?(fixed_buffer _ _ (persistentComplete_initialized_fixed _ _ _ _));
    done.
Qed.

Lemma on_exit_buffer h w :
  stdoutBuffer (self (on_exit h w)) = stdoutBuffer (self w).
Proof.
  unfold on_exit. repeat case_match; try done;
    (apply (fold_left_invariant
              (fun w' => stdoutBuffer (self w') = stdoutBuffer (self w)));
     [ intros a b <-; unfold shutdown_on_exit; by frame | by frame ]).
Qed.

Lemma on_error_buffer now h e w :
  stdoutBuffer (self (on_error now h e w)) = stdoutBuffer (self w).
Proof.
  unfold on_error. repeat case_match; try done;
    rewrite (fixed_buffer _ _ (settle_init_fixed _ _ _ _)); by frame.
Qed.

Lemma anthropicAPI_buffer now c r w :
  stdoutBuffer (self (_anthropicAPI now c r w)) = stdoutBuffer (self w).
Proof. unfold _anthropicAPI. repeat case_match; by frame. Qed.

Lemma handle_buffer parse now ev w :
  no_output ev = true ->
  stdoutBuffer (self (handle parse now ev w)) = stdoutBuffer (self w).
Proof.
  intros Hev. destruct ev; try done; simpl.
  - apply complete_buffer.
  - unfold call_initialize. by rewrite initialize_buffer.
  - by rewrite shutdown_self.
  - apply on_exit_buffer.
  - apply on_error_buffer.
  - by rewrite on_stdin_closed_self.
  - apply fire_buffer.
  - apply anthropicAPI_buffer.
Qed.

(** [X28] Nothing but the output of a child touches the stream buffer: over
    any tasks that bring no output (calls of the host, timers, the exit or
    the error of a child, a respawn, a shutdown) the buffer stays as it
    was.  So the unfinished line a child leaves when it exits is still
    there when the next child is spawned, and comes before that child's
    first line. *)
Theorem buffer_outlives_the_child
  (parse : string -> option JSON) (tasks : list (Z * Event)) (w : World) :
  forallb (fun task => no_output (snd task)) tasks = true ->
  stdoutBuffer (self (run parse w tasks)) = stdoutBuffer (self w).
Proof.
  revert w. induction tasks as [|[now ev] tasks IH]; intros w H; [done|].
  simpl in *. apply andb_prop in H as [Hev H].
  rewrite (IH _ H). unfold step.
  rewrite (fixed_buffer _ _ (drain_fixed _ _)). by apply handle_buffer.
Qed.

(** The child exits in the middle of a line and a [complete()] respawns:
    the half line is still in the buffer, the answer of the new child to
    the warmup is read behind it and does not parse, and the warmup stays
    pending with the prompt of the caller unsent. *)
Lemma buffer_outlives_the_child_witness :
  let partial := json_text "{'type':'res" in
  let w0 := step sample_parse 1500 (StdoutData 0 partial) busy in
  let tasks := [(1600, ProcessExit 0);
                (1700, CallComplete "again" None (spawned_ok 42))] in
  let w1 := run sample_parse w0 tasks in
  let w2 := step sample_parse 2000 (StdoutData 1 (result_line "Hello!")) w1 in
  forallb (fun task => no_output (snd task)) tasks = true
  /\ stdoutBuffer (self w0) = partial
  /\ stdoutBuffer (self w1) = partial
  /\ process (self w1) = Some 1%nat
  /\ pendingPromise (self w1)
     = Some {| turn := 2; response := ""; startTime := 1700 |}
  /\ pendingPromise (self w2) = pendingPromise (self w1)
  /\ state (self w2) = BUSY
  /\ prompts_of 1 (history w2) = ["Hello"].
Proof.
  intros partial w0 tasks w1 w2.
  assert (H : forallb (fun task => no_output (snd task)) tasks = true)
    by reflexivity.
  assert (E : stdoutBuffer (self w0) = partial) by (vm_compute; reflexivity).
  split; [exact H|]. split; [exact E|].
  split.
  { exact (eq_trans (buffer_outlives_the_child sample_parse tasks w0 H)
             E). }
  vm_compute. split_and!; reflexivity.
Defined.
